(** * Membership and permission resolution of centra-reto's [User] model

    A shallow embedding of the group expansion ([getGroups] and its inner
    [handleRows]), the two membership mutations ([addToGroup],
    [endGroupMembership]) and the permission tree ([getPermissions],
    [hasPermission]) of the [User] class, followed by the properties the
    specification states about them; then the callers in the web router
    (the middleware [requirePermissions], the guards [requireInitialSetup]
    and [requireLogin], the page [administrado_resursoj]) and the getters of
    names, pictures and accounts of the same class, with properties that
    the code itself shows.

    Conventions of the embedding:
    - JavaScript numbers that the code handles are integer epoch seconds, so a
      number is a [Z] next to the non-numeric values the code can produce
      ([undefined], [null], [NaN], the infinities);
    - the SQLite database is a record of tables, each a list of rows in table
      order; a query is a filter over the table and does not fail;
    - [async] functions run to completion one after the other: a computation
      is a function from the world (database, the user object, the clock) to
      an outcome and the world it leaves behind, also when it throws;
    - recursion that the source does not bound takes a fuel argument, and
      running out of fuel is the outcome [Diverge]. *)

From Stdlib Require Import ZArith String Ascii List Lia DecimalString.
From stdpp Require Import base option gmap strings list fin_maps.

Local Open Scope Z_scope.

(** ** JavaScript values and the built-ins the code calls *)

Module JS.

Inductive value :=
  | Undefined
  | Null
  | Num (z : Z)
  | PosInfinity
  | NegInfinity
  | NaN.

#[global] Instance value_eq_dec : EqDecision value.
Proof. solve_decision. Defined.

(** [if (v)]: [0], [NaN], [null] and [undefined] are falsy. *)
Definition truthy (v : value) : bool :=
  match v with
  | Num z => negb (z =? 0)
  | PosInfinity | NegInfinity => true
  | Undefined | Null | NaN => false
  end.

Definition ToNumber (v : value) : value :=
  match v with
  | Undefined => NaN
  | Null => Num 0
  | _ => v
  end.

(** [a < b] on numbers; any comparison with [NaN] is false. *)
Definition lt (a b : value) : bool :=
  match ToNumber a, ToNumber b with
  | Num x, Num y => x <? y
  | Num _, PosInfinity => true
  | NegInfinity, Num _ => true
  | NegInfinity, PosInfinity => true
  | _, _ => false
  end.

Definition gt (a b : value) : bool := lt b a.

Definition is_nan (v : value) : bool :=
  match v with NaN => true | _ => false end.

Definition min2 (a b : value) : value :=
  let a := ToNumber a in
  let b := ToNumber b in
  if is_nan a || is_nan b then NaN else if lt b a then b else a.

Definition max2 (a b : value) : value :=
  let a := ToNumber a in
  let b := ToNumber b in
  if is_nan a || is_nan b then NaN else if lt a b then b else a.

(** [Math.min(...l)] and [Math.max(...l)]; on no argument they are
    [Infinity] and [-Infinity]. *)
Definition Math_min (l : list value) : value := fold_left min2 l PosInfinity.
Definition Math_max (l : list value) : value := fold_left max2 l NegInfinity.

Definition isFinite (v : value) : bool :=
  match ToNumber v with
  | Num _ => true
  | _ => false
  end.

(** A nullable integer column read from the database. *)
Definition of_column (c : option Z) : value :=
  match c with
  | Some z => Num z
  | None => Null
  end.

(** [s.split('.')]: never empty; the empty string gives one empty segment. *)
Fixpoint split_dot (s : string) : list string :=
  match s with
  | EmptyString => [EmptyString]
  | String c s' =>
      if Ascii.eqb c "."%char then EmptyString :: split_dot s'
      else match split_dot s' with
           | seg :: segs => String c seg :: segs
           | [] => [String c EmptyString]
           end
  end.

Fixpoint strip_prefix (p s : string) : option string :=
  match p with
  | EmptyString => Some s
  | String a p' =>
      match s with
      | String b s' => if Ascii.eqb a b then strip_prefix p' s' else None
      | EmptyString => None
      end
  end.

(** First occurrence of [pat] in [s]: the text before it and after it. *)
Fixpoint find_first (pat s : string) : option (string * string) :=
  match strip_prefix pat s with
  | Some after => Some (EmptyString, after)
  | None =>
      match s with
      | EmptyString => None
      | String c s' =>
          match find_first pat s' with
          | Some (before, after) => Some (String c before, after)
          | None => None
          end
      end
  end.

(** The replacement text of [String.prototype.replace] for a string
    pattern: [$$], [$&], [$`] and [$'] are expanded, and since a string
    pattern has no capture group every other [$] stands for itself. *)
Fixpoint GetSubstitution (matched before after replacement : string) : string :=
  match replacement with
  | EmptyString => EmptyString
  | String c tl =>
      if Ascii.eqb c "$"%char then
        match tl with
        | String d rest =>
            if Ascii.eqb d "$"%char then
              String "$"%char (GetSubstitution matched before after rest)
            else if Ascii.eqb d "&"%char then
              (matched ++ GetSubstitution matched before after rest)%string
            else if Ascii.eqb d "`"%char then
              (before ++ GetSubstitution matched before after rest)%string
            else if Ascii.eqb d "'"%char then
              (after ++ GetSubstitution matched before after rest)%string
            else String c (GetSubstitution matched before after tl)
        | EmptyString => String c EmptyString
        end
      else String c (GetSubstitution matched before after tl)
  end.

(** [s.replace(pat, replacement)] with a string pattern: the first
    occurrence only. *)
Definition replace (s pat replacement : string) : string :=
  match find_first pat s with
  | Some (before, after) =>
      (before ++ GetSubstitution pat before after replacement ++ after)%string
  | None => s
  end.

(** ['$' + n] for a natural number [n]. *)
Definition dollar (n : nat) : string :=
  String "$"%char (NilEmpty.string_of_uint (Nat.to_uint n)).

(** Property names every object literal inherits from [Object.prototype];
    the [in] operator finds them. *)
Definition Object_prototype : list string :=
  [ "constructor"; "__defineGetter__"; "__defineSetter__"; "hasOwnProperty";
    "__lookupGetter__"; "__lookupSetter__"; "isPrototypeOf";
    "propertyIsEnumerable"; "toString"; "valueOf"; "__proto__";
    "toLocaleString" ]%string.

Definition inherited (k : string) : bool :=
  bool_decide (k ∈ Object_prototype).

End JS.

Export JS.

(** ** The database *)

(** Table [groups]. Boolean columns are SQLite integers. *)
Record groups_row := {
  g_id : Z;
  g_name_base : string;
  g_name_display : option string;
  g_members_allowed : Z;
  g_parent : option Z;
  g_public : Z;
  g_searchable : Z;
  g_args : option string
}.

(** Table [users_groups]: one row per stored (direct) membership. *)
Record users_groups_row := {
  ug_user_id : Z;
  ug_group_id : Z;
  ug_args : option string;
  ug_from : Z;
  ug_to : option Z
}.

Record DB := {
  tbl_groups : list groups_row;
  tbl_users_groups : list users_groups_row;
  tbl_groups_permissions : list (Z * string);
  tbl_users_permissions : list (Z * string)
}.

(** A row as [handleRows] receives it: the columns of the select, and the
    [direct] property that the lookup of parents adds. Columns that a select
    does not name are [undefined] on its rows. *)
Record row := {
  r_id : Z;
  r_from : value;
  r_to : value;
  r_name_base : string;
  r_name_display : option string;
  r_members_allowed : Z;
  r_parent : option Z;
  r_public : Z;
  r_searchable : Z;
  r_group_args : option string;
  r_user_args : option string;
  r_direct : option bool
}.

(** [select groups.id, `from`, `to`, ... from users_groups inner join groups
    on users_groups.group_id = groups.id where user_id = ?] *)
Definition joined_row (ug : users_groups_row) (g : groups_row) : row :=
  {| r_id := g_id g;
     r_from := Num (ug_from ug);
     r_to := of_column (ug_to ug);
     r_name_base := g_name_base g;
     r_name_display := g_name_display g;
     r_members_allowed := g_members_allowed g;
     r_parent := g_parent g;
     r_public := g_public g;
     r_searchable := g_searchable g;
     r_group_args := g_args g;
     r_user_args := ug_args ug;
     r_direct := None |}.

Definition select_user_groups (db : DB) (user_id : Z) : list row :=
  ug ← filter (λ ug, ug_user_id ug = user_id) (tbl_users_groups db);
  g ← filter (λ g, g_id g = ug_group_id ug) (tbl_groups db);
  [joined_row ug g].

(** [select id, name_base, ... from groups where id in (...)], each row then
    given [direct = false] by the caller's loop. *)
Definition parent_row (g : groups_row) : row :=
  {| r_id := g_id g;
     r_from := Undefined;
     r_to := Undefined;
     r_name_base := g_name_base g;
     r_name_display := g_name_display g;
     r_members_allowed := g_members_allowed g;
     r_parent := g_parent g;
     r_public := g_public g;
     r_searchable := g_searchable g;
     r_group_args := g_args g;
     r_user_args := None;
     r_direct := Some false |}.

Definition select_groups_in (db : DB) (ids : list Z) : list row :=
  parent_row <$> filter (λ g, g_id g ∈ ids) (tbl_groups db).

(** [select permission from groups_permissions where group_id in (...)] *)
Definition select_groups_permissions (db : DB) (ids : list Z) : list string :=
  snd <$> filter (λ p, p.1 ∈ ids) (tbl_groups_permissions db).

(** [select permission from users_permissions where user_id = ?] *)
Definition select_users_permissions (db : DB) (user_id : Z) : list string :=
  snd <$> filter (λ p, p.1 = user_id) (tbl_users_permissions db).

(** [update users_groups set `to` = ? where user_id = ? and group_id = ?] *)
Definition update_users_groups_to (db : DB) (timeNow user_id group_id : Z) : DB :=
  {| tbl_groups := tbl_groups db;
     tbl_users_groups :=
       (λ ug, if bool_decide (ug_user_id ug = user_id ∧ ug_group_id ug = group_id)
              then {| ug_user_id := ug_user_id ug;
                      ug_group_id := ug_group_id ug;
                      ug_args := ug_args ug;
                      ug_from := ug_from ug;
                      ug_to := Some timeNow |}
              else ug) <$> tbl_users_groups db;
     tbl_groups_permissions := tbl_groups_permissions db;
     tbl_users_permissions := tbl_users_permissions db |}.

(** ** The user object *)

(** What [new Group({...})] holds. *)
Record Group := {
  id : Z;
  nameBase : string;
  nameDisplay : option string;
  membersAllowed : bool;
  parent : option Z;
  isPublic : bool;
  searchable : bool;
  args : list string
}.

(** The [user] part of an entry of [this.groups]. [children] is
    [pairings[row.id] || null]: not a copy but the array of [pairings]
    itself, which later [push]es extend; the entry therefore holds the key
    under which that array lives ([pairings] never replaces an array once
    created). *)
Record membership_user := {
  u_args : list string;
  from : value;
  to : value;
  active : bool;
  direct : bool;
  children : option Z;
  name : string
}.

Record membership := {
  group : Group;
  user : membership_user
}.

(** The permission tree: an object whose properties are [true] or a nested
    object. [PProto k] is the value of the inherited property [k] of
    [Object.prototype], which [path[bit]] yields when [bit] is found through
    the prototype chain; what lies inside it is outside the model. *)
#[local] Unset Elimination Schemes.
Inductive pnode :=
| PTrue
| PObj (props : gmap string pnode)
| PProto (k : string).
#[local] Set Elimination Schemes.

(** The fields of a [User] instance that the resolution uses. [pairings] is
    the closure variable of the last expansion of [getGroups], kept because
    the [children] of the cached entries point into it. *)
Record User := {
  user_id : Z;
  groups : option (gmap Z membership);
  pairings : gmap Z (list Z);
  permissions : option pnode
}.

(** The array an entry's [children] denotes. *)
Definition children_of (u : User) (m : membership) : option (list Z) :=
  k ← children (user m); pairings u !! k.

(** ** Computations *)

Inductive error :=
| TypeError
| ParseError (msg : string).

Inductive outcome (A : Type) :=
| Ret (a : A)
| Throw (e : error)
| Unmodelled
| Diverge.
Arguments Ret {A} a.
Arguments Throw {A} e.
Arguments Unmodelled {A}.
Arguments Diverge {A}.

#[global] Instance outcome_ret : MRet outcome := λ A a, Ret a.

#[global] Instance outcome_bind : MBind outcome := λ A B f o,
  match o with
  | Ret a => f a
  | Throw e => Throw e
  | Unmodelled => Unmodelled
  | Diverge => Diverge
  end.

#[global] Instance outcome_fmap : FMap outcome := λ A B f o,
  match o with
  | Ret a => Ret (f a)
  | Throw e => Throw e
  | Unmodelled => Unmodelled
  | Diverge => Diverge
  end.

(** A computation over a state [S]; the state it leaves is kept whatever the
    outcome. *)
Definition St (S A : Type) : Type := S → outcome A * S.

#[global] Instance St_ret {S} : MRet (St S) := λ A a s, (Ret a, s).

#[global] Instance St_bind {S} : MBind (St S) := λ A B f m s,
  match m s with
  | (Ret a, s') => f a s'
  | (Throw e, s') => (Throw e, s')
  | (Unmodelled, s') => (Unmodelled, s')
  | (Diverge, s') => (Diverge, s')
  end.

Definition throw {S A} (e : error) : St S A := λ s, (Throw e, s).
Definition diverge {S A} : St S A := λ s, (Diverge, s).
Definition get {S} : St S S := λ s, (Ret s, s).
Definition put {S} (s : S) : St S () := λ _, (Ret (), s).

(** A computation that touches nothing. *)
Definition lift {S A} (o : outcome A) : St S A := λ s, (o, s).

Fixpoint mapM {S A B} (f : A → St S B) (l : list A) : St S (list B) :=
  match l with
  | [] => mret []
  | a :: l' => b ← f a; bs ← mapM f l'; mret (b :: bs)
  end.

(** [moment().unix()] is the next reading of [clock]; every reading advances
    [reads]. *)
Record world := {
  db : DB;
  this : User;
  clock : nat → Z;
  reads : nat
}.

Abbreviation M := (St world).

Definition with_db (d : DB) (w : world) : world :=
  {| db := d; this := this w; clock := clock w; reads := reads w |}.

Definition with_this (u : User) (w : world) : world :=
  {| db := db w; this := u; clock := clock w; reads := reads w |}.

Definition with_groups (g : option (gmap Z membership)) (u : User) : User :=
  {| user_id := user_id u; groups := g;
     pairings := pairings u; permissions := permissions u |}.

Definition with_pairings (p : gmap Z (list Z)) (u : User) : User :=
  {| user_id := user_id u; groups := groups u;
     pairings := p; permissions := permissions u |}.

Definition with_permissions (p : option pnode) (u : User) : User :=
  {| user_id := user_id u; groups := groups u;
     pairings := pairings u; permissions := p |}.

Definition get_db : M DB := λ w, (Ret (db w), w).
Definition get_this : M User := λ w, (Ret (this w), w).
Definition set_db (d : DB) : M () := λ w, (Ret (), with_db d w).
Definition set_groups (g : option (gmap Z membership)) : M () :=
  λ w, (Ret (), with_this (with_groups g (this w)) w).
Definition set_pairings (p : gmap Z (list Z)) : M () :=
  λ w, (Ret (), with_this (with_pairings p (this w)) w).
Definition set_permissions (p : option pnode) : M () :=
  λ w, (Ret (), with_this (with_permissions p (this w)) w).

Definition moment_unix : M Z := λ w,
  (Ret (clock w (reads w)),
   {| db := db w; this := this w; clock := clock w; reads := S (reads w) |}).

(** [this.groups] and [this.permissions] as the code uses them once they have
    been assigned: calling a method on [undefined] throws. *)
Definition this_groups : M (gmap Z membership) :=
  u ← get_this;
  match groups u with
  | Some g => mret g
  | None => throw TypeError
  end.

Definition this_permissions : M pnode :=
  u ← get_this;
  match permissions u with
  | Some p => mret p
  | None => throw TypeError
  end.

(** What the closure [handleRows] reads and writes: the map [this.groups]
    and the variable [pairings] of the enclosing [getGroups]. *)
Record expansion := {
  e_groups : gmap Z membership;
  e_pairings : gmap Z (list Z)
}.

(** Run a computation of the closure on the user's fields; [this.groups]
    has been assigned by then. *)
Definition expanding {A} (c : St expansion A) : M A := λ w,
  match groups (this w) with
  | Some groups0 =>
      let '(o, x) := c {| e_groups := groups0; e_pairings := pairings (this w) |} in
      (o, with_this (with_pairings (e_pairings x)
                       (with_groups (Some (e_groups x)) (this w))) w)
  | None => (Throw TypeError, w)
  end.

(** The state [getGroups] starts the closure from, and the world it leaves
    when the closure ended in [x]. *)
Definition no_expansion : expansion := {| e_groups := ∅; e_pairings := ∅ |}.

Definition expanded (w : world) (x : expansion) : world :=
  {| db := db w;
     this := {| user_id := user_id (this w);
                groups := Some (e_groups x);
                pairings := e_pairings x;
                permissions := permissions (this w) |};
     clock := clock w;
     reads := S (reads w) |}.

(** The world once [this.permissions] holds the tree [T]. *)
Definition cached_tree (T : pnode) (w : world) : world :=
  with_this (with_permissions (Some T) (this w)) w.

(** ** Rendering and time windows *)

Definition truthy_string (s : option string) : bool :=
  match s with
  | Some (String _ _) => true
  | _ => false
  end.

Definition truthy_int (z : Z) : bool := negb (z =? 0).

Definition truthy_id (p : option Z) : bool :=
  match p with
  | Some z => truthy_int z
  | None => false
  end.

(** [if (arr.length > 0) { arr = arr[0]; }] on the records of [csvParse]. *)
Definition first_record (arr : list (list string)) : list string :=
  match arr with
  | record :: _ => record
  | [] => []
  end.

(** The loop [for (let i = 0; i < args.length; i++)] replacing ['$' + (i + 1)],
    started at index [i]. *)
Fixpoint substitute (nameForUser : string) (i : nat) (args : list string) : string :=
  match args with
  | [] => nameForUser
  | arg :: rest => substitute (replace nameForUser (dollar (i + 1)) arg) (S i) rest
  end.

Definition render_name (name_base : string) (name_display : option string)
    (args : list string) : string :=
  if truthy_string name_display
  then substitute (default EmptyString name_display) 0 args
  else name_base.

(** The block under [// If already present]. *)
Definition merge_present (timeFrom timeTo : value) (group : membership) : value * value :=
  let timeFrom := Math_min [timeFrom; from (user group)] in
  let timeTo :=
    if truthy timeTo && truthy (to (user group))
    then Math_max [timeTo; to (user group)]
    else if truthy (to (user group)) then to (user group) else timeTo in
  (timeFrom, timeTo).

(** The block under [// If parent], on the entries of the children. *)
Definition window_of_children (children : list membership) : value * value :=
  let timeFrom := Math_min ((λ x, from (user x)) <$> children) in
  let timeTo :=
    Math_max ((λ x, if negb (truthy (to (user x))) then PosInfinity
                    else to (user x)) <$> children) in
  (timeFrom, if negb (isFinite timeTo) then Null else timeTo).

Definition is_active (timeFrom timeTo : value) (timeNow : Z) : bool :=
  let active := true in
  let active := if gt timeFrom (Num timeNow) then false else active in
  let active := if truthy timeTo && lt timeTo (Num timeNow) then false else active in
  active.

(** ** One row of the expansion *)

(** [let direct = true; if (row.direct === false) { direct = false; }] *)
Definition direct_of (row : row) : bool :=
  match r_direct row with
  | Some false => false
  | _ => true
  end.

(** [pairings[row.id].map(x => this.groups.get(x))] followed by the reads
    of [x.user]: an id without entry gives [undefined], whose [user] throws. *)
Fixpoint children_entries (groups0 : gmap Z membership) (ids : list Z)
    : outcome (list membership) :=
  match ids with
  | [] => Ret []
  | i :: ids' =>
      match groups0 !! i with
      | Some child => children0 ← children_entries groups0 ids'; Ret (child :: children0)
      | None => Throw TypeError
      end
  end.

(** [timeFrom] and [timeTo] of a row after the block under
    [// If already present]. *)
Definition present_window (row : row) (x : expansion) : value * value :=
  let timeFrom := r_from row in
  let timeTo := r_to row in
  match e_groups x !! r_id row with
  | Some group => merge_present timeFrom timeTo group
  | None => (timeFrom, timeTo)
  end.

(** [timeFrom] and [timeTo] of a row, from its columns down to the line
    that computes [active]. *)
Definition window_of (row : row) (x : expansion) : outcome (value * value) :=
  let '(timeFrom, timeTo) := present_window row x in
  if direct_of row then Ret (timeFrom, timeTo)
  else
    match e_pairings x !! r_id row with
    | Some ids =>
        children0 ← children_entries (e_groups x) ids;
        Ret (window_of_children children0)
    | None => Throw TypeError
    end.

(** The object given to [this.groups.set]. *)
Definition entry_of (row : row) (x : expansion) (timeFrom timeTo : value) (active : bool)
    (userArgsArr groupArgsArr : list string) : membership :=
  {| group := {| id := r_id row;
                 nameBase := r_name_base row;
                 nameDisplay := r_name_display row;
                 membersAllowed := truthy_int (r_members_allowed row);
                 parent := r_parent row;
                 isPublic := truthy_int (r_public row);
                 searchable := truthy_int (r_searchable row);
                 args := groupArgsArr |};
     user := {| u_args := userArgsArr;
                from := timeFrom;
                to := timeTo;
                active := active;
                direct := direct_of row;
                children := if e_pairings x !! r_id row is Some _
                            then Some (r_id row) else None;
                name := render_name (r_name_base row) (r_name_display row) userArgsArr |} |}.

(** [this.groups.set(row.id, entry)] and the block under [if (row.parent)]. *)
Definition record (row : row) (entry : membership) (x : expansion) : expansion :=
  {| e_groups := <[r_id row := entry]> (e_groups x);
     e_pairings :=
       if truthy_id (r_parent row) then
         let p := default 0 (r_parent row) in
         <[p := default [] (e_pairings x !! p) ++ [r_id row]]> (e_pairings x)
       else e_pairings x |}.

Definition pushed (row : row) : list Z :=
  if truthy_id (r_parent row) then [default 0 (r_parent row)] else [].

(** ** The permission tree *)

(** One pass of the loop over [bits] in [getPermissions], from [path]; the
    result is [path] after the assignments. The module is strict code, so
    creating a property on the primitive [true] throws, as does [bit in true].
    Assigning [__proto__] a boolean is ignored by its setter. *)
Fixpoint structurize (bits : list string) (path : pnode) : outcome pnode :=
  match bits with
  | [] => Ret path
  | [bit] =>
      match path with
      | PObj props =>
          if bool_decide (bit = "__proto__"%string) then Ret path
          else Ret (PObj (<[bit := PTrue]> props))
      | PTrue => Throw TypeError
      | PProto _ => Unmodelled
      end
  | bit :: rest =>
      match path with
      | PObj props =>
          match props !! bit with
          | Some child =>
              child' ← structurize rest child;
              Ret (PObj (<[bit := child']> props))
          | None =>
              if inherited bit then Unmodelled
              else
                child' ← structurize rest (PObj ∅);
                Ret (PObj (<[bit := child']> props))
          end
      | PTrue => Throw TypeError
      | PProto _ => Unmodelled
      end
  end.

(** The loop of [hasPermission] from [path]. *)
Fixpoint walk (bits : list string) (path : pnode) : outcome bool :=
  match bits with
  | [] => Ret true
  | bit :: rest =>
      match path with
      | PObj props =>
          match props !! bit with
          | Some child => walk rest child
          | None =>
              if inherited bit then walk rest (PProto bit)
              else Ret (bool_decide (is_Some (props !! "*"%string)))
          end
      | PTrue => Throw TypeError
      | PProto _ => Unmodelled
      end
  end.

(** The ids pushed on [groupIds] and the rows pushed on [rawPermissions] in
    [getPermissions]. *)
Definition groupIds_of (groups0 : gmap Z membership) : list Z :=
  (λ g : membership, id (group g)) <$>
    filter (λ g : membership, active (user g) = true) (map_to_list groups0).*2.

Definition rawPermissions_of (d : DB) (user_id : Z) (groups0 : gmap Z membership) : list string :=
  select_groups_permissions d (groupIds_of groups0) ++ select_users_permissions d user_id.

(** ** The methods of [User] *)

(** What the promisified [csv-parse] settles to: the records, or a rejection. *)
Inductive csv_result :=
| CsvRecords (records : list (list string))
| CsvError (msg : string).

(** [group] of [addToGroup] and [endGroupMembership]: a [Group] or an id. *)
Inductive group_arg :=
| ByGroup (g : Group)
| ById (n : Z).

Section User.

(** The [csv-parse] library. *)
Variable csvParse : string → csv_result.

(** Modelled from the spec: [Group.getGroupById] (module [./group]), a
    read of the Repository that yields the group or [null]. *)
Variable Group_getGroupById : Z → DB → outcome (option Group).

(** Modelled from the spec: [Group.prototype.addUser] (module [./group]),
    the Repository's [insertMembership] or a refusal when the group does not
    permit direct members; it acts on the database only. *)
Variable Group_addUser : Group → Z → list string → Z → value → DB → outcome bool * DB.

Definition await_csvParse {S} (s : string) : St S (list (list string)) :=
  match csvParse s with
  | CsvRecords records => mret records
  | CsvError msg => throw (ParseError msg)
  end.

(** Whether the parser rejects the text of an argument column. *)
Definition rejects (s : option string) : bool :=
  match csvParse (default EmptyString s) with
  | CsvError _ => true
  | CsvRecords _ => false
  end.

(** The body of [for (let row of rows)] in [handleRows]; it returns what
    the iteration pushes on [nextLookup]. *)
Definition handleRow (timeNow : Z) (row : row) : St expansion (list Z) :=
  x ← get;
  window ← lift (window_of row x);
  let '(timeFrom, timeTo) := window in
  let active := is_active timeFrom timeTo timeNow in
  userArgsArr ← await_csvParse (default EmptyString (r_user_args row));
  let userArgsArr := first_record userArgsArr in
  groupArgsArr ← await_csvParse (default EmptyString (r_group_args row));
  let groupArgsArr := first_record groupArgsArr in
  put (record row (entry_of row x timeFrom timeTo active userArgsArr groupArgsArr) x);;
  mret (pushed row).

(** The closure [handleRows]; [d] is the database behind [CR.db.users],
    which the closure only reads, and [timeNow] the reading that
    [getGroups] took before it. Each call uses up one unit of [fuel]. *)
Fixpoint handleRows (fuel : nat) (d : DB) (timeNow : Z) (rows : list row) : St expansion () :=
  match fuel with
  | O => diverge
  | S fuel' =>
      pushed ← mapM (handleRow timeNow) rows;
      let nextLookup := concat pushed in
      if (length nextLookup <? 1)%nat then mret ()
      else
        let newRows := select_groups_in d nextLookup in
        handleRows fuel' d timeNow newRows
  end.

(** [getGroups]: the cached map when [this.groups] is assigned, else the
    expansion from the user's stored memberships. *)
Definition getGroups (fuel : nat) : M (gmap Z membership) :=
  u ← get_this;
  match groups u with
  | Some cached => mret cached
  | None =>
      set_groups (Some ∅);;
      timeNow ← moment_unix;
      set_pairings ∅;;
      d ← get_db;
      let rows := select_user_groups d (user_id u) in
      expanding (handleRows fuel d timeNow rows);;
      this_groups
  end.

(** [if (typeof group === 'number') group = await Group.getGroupById(group)] *)
Definition resolve_group (group : group_arg) : M (option Group) :=
  match group with
  | ByGroup g => mret (Some g)
  | ById n => d ← get_db; lift (Group_getGroupById n d)
  end.

(** Reading a property of, or calling a method on, [group]. *)
Definition deref (group : option Group) : M Group :=
  match group with
  | Some g => mret g
  | None => throw TypeError
  end.

(** [endGroupMembership]: [false] when [getGroups] has no entry for the
    group; else the update of the table, the reset of [this.groups] and a
    new expansion. *)
Definition endGroupMembership (fuel : nat) (group : group_arg) : M bool :=
  group ← resolve_group group;
  groups0 ← getGroups fuel;
  g ← deref group;
  if negb (bool_decide (is_Some (groups0 !! id g))) then mret false
  else
    timeNow ← moment_unix;
    d ← get_db;
    u ← get_this;
    set_db (update_users_groups_to d timeNow (user_id u) (id g));;
    set_groups None;;
    getGroups fuel;;
    mret true.

(** [addToGroup (group, args = [], timeFrom = undefined, timeTo = null)];
    [None] for [args] is [null] or an omitted argument, [None] for
    [timeFrom] is [undefined]; the result [None] is [false]. *)
Definition addToGroup (fuel : nat) (group : group_arg) (args : option (list string))
    (timeFrom : option Z) (timeTo : value) : M (option Group) :=
  timeFrom ← match timeFrom with
             | None => moment_unix
             | Some t => mret t
             end;
  group ← resolve_group group;
  let args := default [] args in
  g ← deref group;
  u ← get_this;
  d ← get_db;
  let '(wasAdded, d') := Group_addUser g (user_id u) args timeFrom timeTo d in
  set_db d';;
  wasAdded ← lift wasAdded;
  if negb wasAdded then mret None
  else
    timeNow ← moment_unix;
    let active := true in
    let active := if truthy timeTo && lt timeTo (Num timeNow) then false else active in
    let active := if gt (Num timeFrom) (Num timeNow) then false else active in
    let nameForUser := render_name (nameBase g) (nameDisplay g) args in
    groups0 ← getGroups fuel;
    set_groups (Some (<[id g :=
      {| group := g;
         user := {| u_args := args;
                    from := Num timeFrom;
                    to := timeTo;
                    active := active;
                    direct := true;
                    children := None;
                    name := nameForUser |} |}]> groups0));;
    mret (Some g).

(** One iteration of [for (let permission of rawPermissions)]. *)
Definition structurize_permission (permission : string) : M () :=
  root ← this_permissions;
  root' ← lift (structurize (split_dot permission) root);
  set_permissions (Some root').

(** [getPermissions]: the cached tree when [this.permissions] is assigned,
    else the tree built from the permissions of the active groups and of the
    user. *)
Definition getPermissions (fuel : nat) : M pnode :=
  u ← get_this;
  match permissions u with
  | Some cached => mret cached
  | None =>
      set_permissions (Some (PObj ∅));;
      groups0 ← getGroups fuel;
      d ← get_db;
      let rawPermissions := rawPermissions_of d (user_id u) groups0 in
      mapM structurize_permission rawPermissions;;
      this_permissions
  end.

Definition hasPermission (fuel : nat) (permission : string) : M bool :=
  permissions0 ← getPermissions fuel;
  lift (walk (split_dot permission) permissions0).

End User.

(** ** Depth of the hierarchy *)

(** The chain of parent pointers that starts at [parent] ends within [n]
    groups. *)
Fixpoint chain_ends (d : DB) (n : nat) (parent : option Z) : bool :=
  if truthy_id parent then
    match n with
    | O => false
    | S n' =>
        forallb (λ g, chain_ends d n' (g_parent g))
          (filter (λ g, g_id g = default 0 parent) (tbl_groups d))
    end
  else true.

(** Every group of [d] is at most [n] parent pointers away from a root. *)
Definition depth_le (d : DB) (n : nat) : bool :=
  forallb (λ g, chain_ends d n (g_parent g)) (tbl_groups d).

(** The computation came to an end: it returned or it threw. *)
Definition settles {A} (o : outcome A) : bool :=
  match o with
  | Ret _ | Throw _ => true
  | Unmodelled | Diverge => false
  end.

(** Every id that [pairings] lists has an entry in [this.groups]. *)
Definition children_resolved (x : expansion) : Prop :=
  ∀ k ids i, e_pairings x !! k = Some ids → i ∈ ids → is_Some (e_groups x !! i).

(** ** What the clock does not decide *)

(** An entry and a state of the closure with [active] left out of
    account: the clock's reading enters nothing else. *)
Definition timeless (g : membership) : membership :=
  {| group := group g;
     user := {| u_args := u_args (user g);
                from := from (user g);
                to := to (user g);
                active := true;
                direct := direct (user g);
                children := children (user g);
                name := name (user g) |} |}.

Definition shape (x : expansion) : expansion :=
  {| e_groups := timeless <$> e_groups x; e_pairings := e_pairings x |}.

(** Every looked-up row among [rows] finds its array in [pairings]. *)
Definition rows_paired (x : expansion) (rows : list row) : Prop :=
  ∀ r, r ∈ rows → direct_of r = false → is_Some (e_pairings x !! r_id r).

(** ** Reference instances of the collaborators

    The methods above are parametric in the [csv-parse] library and in the
    two methods of [./group]. The instances below serve to run the model on
    concrete databases. *)

Module Reference.

Definition dquote : ascii := "034"%char.
Definition newline : ascii := "010"%char.

Definition snoc (s : string) (c : ascii) : string := (s ++ String c EmptyString)%string.

(** A reader of comma-separated fields and newline-separated records with
    double-quoted fields, a doubled quote standing for a quote inside them.
    [started] tells whether the current field has begun. *)
Fixpoint scan (quoted started : bool) (s : string) (field : string)
    (record : list string) (records : list (list string)) : csv_result :=
  match s with
  | EmptyString =>
      if quoted then CsvError "Quoted field not terminated"
      else if started || negb (bool_decide (record = []))
           then CsvRecords (records ++ [record ++ [field]])
           else CsvRecords records
  | String c s' =>
      if quoted then
        if Ascii.eqb c dquote then
          match s' with
          | String c' s'' =>
              if Ascii.eqb c' dquote then scan true true s'' (snoc field dquote) record records
              else if Ascii.eqb c' ","%char || Ascii.eqb c' newline
                   then scan false true s' field record records
                   else CsvError "Invalid closing quote"
          | EmptyString => scan false true s' field record records
          end
        else scan true true s' (snoc field c) record records
      else
        if Ascii.eqb c ","%char then scan false true s' EmptyString (record ++ [field]) records
        else if Ascii.eqb c newline
             then scan false false s' EmptyString [] (records ++ [record ++ [field]])
        else if Ascii.eqb c dquote then
               if bool_decide (field = EmptyString)
               then scan true true s' EmptyString record records
               else CsvError "Invalid opening quote"
        else scan false true s' (snoc field c) record records
  end.

Definition csv_parse (s : string) : csv_result :=
  match scan false false s EmptyString [] [] with
  | CsvRecords (first :: rest) =>
      if forallb (λ r, (length r =? length first)%nat) rest
      then CsvRecords (first :: rest)
      else CsvError "Number of columns is inconsistent"
  | r => r
  end.

(** Modelled from the spec: [Group.getGroupById] reads the group with the
    given id, [null] when there is none. *)
Definition getGroupById (n : Z) (d : DB) : outcome (option Group) :=
  match filter (λ g, g_id g = n) (tbl_groups d) with
  | [] => Ret None
  | g :: _ =>
      match csv_parse (default EmptyString (g_args g)) with
      | CsvRecords records =>
          Ret (Some {| id := g_id g;
                       nameBase := g_name_base g;
                       nameDisplay := g_name_display g;
                       membersAllowed := truthy_int (g_members_allowed g);
                       parent := g_parent g;
                       isPublic := truthy_int (g_public g);
                       searchable := truthy_int (g_searchable g);
                       args := first_record records |})
      | CsvError msg => Throw (ParseError msg)
      end
  end.

Definition encode_args (args : list string) : option string :=
  match args with
  | [] => None
  | _ => Some (String.concat "," args)
  end.

(** Modelled from the spec: [addUser] refuses when the group does not
    permit direct members, and otherwise stores one membership row. *)
Definition addUser (g : Group) (user_id : Z) (args : list string)
    (timeFrom : Z) (timeTo : value) (d : DB) : outcome bool * DB :=
  if negb (membersAllowed g) then (Ret false, d)
  else
    (Ret true,
     {| tbl_groups := tbl_groups d;
        tbl_users_groups :=
          tbl_users_groups d ++
            [{| ug_user_id := user_id;
                ug_group_id := id g;
                ug_args := encode_args args;
                ug_from := timeFrom;
                ug_to := match timeTo with Num z => Some z | _ => None end |}];
        tbl_groups_permissions := tbl_groups_permissions d;
        tbl_users_permissions := tbl_users_permissions d |}).

Definition getGroups := getGroups csv_parse.
Definition endGroupMembership := endGroupMembership csv_parse getGroupById.
Definition addToGroup := addToGroup csv_parse getGroupById addUser.
Definition getPermissions := getPermissions csv_parse.
Definition hasPermission := hasPermission csv_parse.

End Reference.

(** ** Concrete databases *)

(** A group without display template or argument labels. *)
Definition plain_group (i : Z) (name_base : string) (parent : option Z) : groups_row :=
  {| g_id := i;
     g_name_base := name_base;
     g_name_display := None;
     g_members_allowed := 1;
     g_parent := parent;
     g_public := 1;
     g_searchable := 1;
     g_args := None |}.

Definition stored (user_id group_id : Z) (timeFrom : Z) (timeTo : option Z) : users_groups_row :=
  {| ug_user_id := user_id;
     ug_group_id := group_id;
     ug_args := None;
     ug_from := timeFrom;
     ug_to := timeTo |}.

(** A [User] object as its constructor leaves it. *)
Definition new_User (i : Z) : User :=
  {| user_id := i; groups := None; pairings := ∅; permissions := None |}.

(** A world in which every reading of the clock is [now]. *)
Definition at_time (now : Z) (d : DB) (u : User) : world :=
  {| db := d; this := u; clock := λ _, now; reads := 0 |}.

(** The windows of the resolved entry of a group. *)
Definition window (groups0 : gmap Z membership) (i : Z) : option (value * value) :=
  (λ g, (from (user g), to (user g))) <$> groups0 !! i.

(** Groups A (1) and C (2), children of B (3); user 1 holds A over (10, 20)
    and C over (5, no expiry). *)
Definition db_merge : DB :=
  {| tbl_groups := [plain_group 1 "A" (Some 3); plain_group 2 "C" (Some 3);
                    plain_group 3 "B" None];
     tbl_users_groups := [stored 1 1 10 (Some 20); stored 1 2 5 None];
     tbl_groups_permissions := [];
     tbl_users_permissions := [] |}.

(** Board (5) and its child Committee (7); user 1 holds Board from 1000
    without expiry and Committee over (2000, 3000). *)
Definition db_board : DB :=
  {| tbl_groups := [plain_group 5 "Board" None; plain_group 7 "Committee" (Some 5)];
     tbl_users_groups := [stored 1 5 1000 None; stored 1 7 2000 (Some 3000)];
     tbl_groups_permissions := [];
     tbl_users_permissions := [] |}.

(** Group A (1), child of B (3); user 1 holds B over (5, no expiry) and A
    over (10, 20): B is reached directly and through A. *)
Definition db_two_paths : DB :=
  {| tbl_groups := [plain_group 1 "A" (Some 3); plain_group 3 "B" None];
     tbl_users_groups := [stored 1 3 5 None; stored 1 1 10 (Some 20)];
     tbl_groups_permissions := [];
     tbl_users_permissions := [] |}.

(** User 1 left group 3 at 20 and joined it again at 30 without expiry. *)
Definition db_rejoined : DB :=
  {| tbl_groups := [plain_group 3 "B" None];
     tbl_users_groups := [stored 1 3 10 (Some 20); stored 1 3 30 None];
     tbl_groups_permissions := [];
     tbl_users_permissions := [] |}.

(** Two groups that are each other's parent; user 1 holds the first. *)
Definition db_cycle : DB :=
  {| tbl_groups := [plain_group 1 "A" (Some 2); plain_group 2 "B" (Some 1)];
     tbl_users_groups := [stored 1 1 0 None];
     tbl_groups_permissions := [];
     tbl_users_permissions := [] |}.

(** User 1 holds groups 5 and 7; the arguments stored with the second
    membership open a quoted field and never close it. *)
Definition db_malformed : DB :=
  {| tbl_groups := [plain_group 5 "Board" None; plain_group 7 "Committee" None];
     tbl_users_groups :=
       [stored 1 5 1000 None;
        {| ug_user_id := 1; ug_group_id := 7;
           ug_args := Some (String Reference.dquote "estro");
           ug_from := 2000; ug_to := None |}];
     tbl_groups_permissions := [];
     tbl_users_permissions := [] |}.

(** User 1 has no membership and is granted [perm] individually. *)
Definition db_individual (perm : string) : DB :=
  {| tbl_groups := [plain_group 5 "Board" None];
     tbl_users_groups := [];
     tbl_groups_permissions := [];
     tbl_users_permissions := [(1, perm)] |}.

(** Board (5) grants [reports.export] and has the child Committee (7);
    user 1 has no membership yet. *)
Definition db_grant : DB :=
  {| tbl_groups := [plain_group 5 "Board" None; plain_group 7 "Committee" (Some 5)];
     tbl_users_groups := [];
     tbl_groups_permissions := [(5, "reports.export"%string)];
     tbl_users_permissions := [] |}.

(** A fresh user 1 on [db_individual perm]. *)
Definition w_individual (perm : string) : world :=
  at_time 0 (db_individual perm) (new_User 1).

(** The trees that [reports.export] and [reports.*] build. *)
Definition tree_export : pnode :=
  PObj {[ "reports"%string := PObj {[ "export"%string := PTrue ]} ]}.

Definition tree_wildcard : pnode :=
  PObj {[ "reports"%string := PObj {[ "*"%string := PTrue ]} ]}.

Definition w_malformed : world := at_time 0 db_malformed (new_User 1).

Definition w_cycle : world := at_time 0 db_cycle (new_User 1).

(** User 1 on [db_grant] after a first [hasPermission], which has cached the
    (empty) group map and the (empty) permission tree; then after joining
    Committee; then after leaving it again. *)
Definition w_asked : world :=
  (Reference.hasPermission 1 "reports.export" (at_time 100 db_grant (new_User 1))).2.

Definition w_joined : world :=
  (Reference.addToGroup 2 (ById 7) None None Null w_asked).2.

Definition w_left : world :=
  (Reference.endGroupMembership 2 (ById 7) w_joined).2.

(** Board (5) and its child Committee (7); user 1 holds Committee only. *)
Definition db_committee : DB :=
  {| tbl_groups := [plain_group 5 "Board" None; plain_group 7 "Committee" (Some 5)];
     tbl_users_groups := [stored 1 7 2000 (Some 3000)];
     tbl_groups_permissions := [];
     tbl_users_permissions := [] |}.

Definition w_committee : world := at_time 2500 db_committee (new_User 1).

Definition Board : Group :=
  {| id := 5; nameBase := "Board"; nameDisplay := None; membersAllowed := true;
     parent := None; isPublic := true; searchable := true; args := [] |}.

(** The resolved map of a fresh user 1 on [d] when every reading of the
    clock is [now]; empty when the resolution does not return. *)
Definition resolved (now : Z) (d : DB) : gmap Z membership :=
  match (Reference.getGroups 3 (at_time now d (new_User 1))).1 with
  | Ret groups0 => groups0
  | _ => ∅
  end.

Definition active_in (groups0 : gmap Z membership) (i : Z) : option bool :=
  (λ g, active (user g)) <$> groups0 !! i.

Definition direct_in (groups0 : gmap Z membership) (i : Z) : option bool :=
  (λ g, direct (user g)) <$> groups0 !! i.

(** The same database with the stored memberships in the opposite order,
    for the order in which the join returns its rows is not fixed. *)
Definition reordered (d : DB) : DB :=
  {| tbl_groups := tbl_groups d;
     tbl_users_groups := reverse (tbl_users_groups d);
     tbl_groups_permissions := tbl_groups_permissions d;
     tbl_users_permissions := tbl_users_permissions d |}.

(** ** Paths of the permission tree *)

(** The properties named by [bits], one after the other, are own properties
    from [T] on. *)
Fixpoint reaches (bits : list string) (T : pnode) : Prop :=
  match bits with
  | [] => True
  | bit :: rest =>
      match T with
      | PObj props =>
          match props !! bit with
          | Some child => reaches rest child
          | None => False
          end
      | _ => False
      end
  end.

(** Every path of own properties in [T] is the beginning of one of the
    granted strings [G], given by their segments. *)
Definition justified (G : list (list string)) (T : pnode) : Prop :=
  ∀ bits, bits ≠ [] → reaches bits T → ∃ g, g ∈ G ∧ bits `prefix_of` g.

(** ** The middleware [requirePermissions] *)

(** What the middleware sees of a request and its response: [req.user]
    ([None] when nobody is logged in), the database and the clock, and the
    redirects sent through [res.redirect] so far. *)
Record exchange := {
  req_user : option User;
  ex_db : DB;
  ex_clock : nat → Z;
  ex_reads : nat;
  redirects : list (Z * string)
}.

(** A method called on [req.user]; on [undefined] the call throws. *)
Definition on_user {A} (c : M A) : St exchange A := λ r,
  match req_user r with
  | None => (Throw TypeError, r)
  | Some u =>
      let '(o, w) := c {| db := ex_db r; this := u;
                          clock := ex_clock r; reads := ex_reads r |} in
      (o, {| req_user := Some (this w); ex_db := db w; ex_clock := clock w;
             ex_reads := reads w; redirects := redirects r |})
  end.

(** [res.redirect(code, target)] *)
Definition redirect (code : Z) (target : string) : St exchange () := λ r,
  (Ret (), {| req_user := req_user r; ex_db := ex_db r; ex_clock := ex_clock r;
              ex_reads := ex_reads r; redirects := redirects r ++ [(code, target)] |}).

(** [req.requirePermissions(...perms)] *)
Fixpoint requirePermissions (csvParse : string → csv_result) (fuel : nat)
    (perms : list string) : St exchange bool :=
  match perms with
  | [] => mret true
  | perm :: rest =>
      held ← on_user (hasPermission csvParse fuel perm);
      if negb held then redirect 303 "/";; mret false
      else requirePermissions csvParse fuel rest
  end.

(** Whether the walk of [perm] in [T] answers true. *)
Definition answers_true (T : pnode) (perm : string) : bool :=
  match walk (split_dot perm) T with
  | Ret true => true
  | _ => false
  end.

(** The exchange after [n] further redirects to [/]. *)
Definition sent_home (n : nat) (r : exchange) : exchange :=
  {| req_user := req_user r; ex_db := ex_db r; ex_clock := ex_clock r;
     ex_reads := ex_reads r;
     redirects := redirects r ++ replicate n (303, "/"%string) |}.

(** A request of [u] on [d] with nothing sent yet. *)
Definition request_of (u : option User) (d : DB) : exchange :=
  {| req_user := u; ex_db := d; ex_clock := λ _, 0; ex_reads := 0; redirects := [] |}.

(** ** What the resolved map holds *)

(** The entry [e] carries the columns of the group [g]. *)
Definition describes (g : groups_row) (e : membership) : Prop :=
  id (group e) = g_id g ∧
  nameBase (group e) = g_name_base g ∧
  nameDisplay (group e) = g_name_display g ∧
  membersAllowed (group e) = truthy_int (g_members_allowed g) ∧
  parent (group e) = g_parent g ∧
  isPublic (group e) = truthy_int (g_public g) ∧
  searchable (group e) = truthy_int (g_searchable g).

(** The row [r] carries the columns of the group [g]. *)
Definition row_of_group (g : groups_row) (r : row) : Prop :=
  r_id r = g_id g ∧
  r_name_base r = g_name_base g ∧
  r_name_display r = g_name_display g ∧
  r_members_allowed r = g_members_allowed g ∧
  r_parent r = g_parent g ∧
  r_public r = g_public g ∧
  r_searchable r = g_searchable g.

(** Every entry sits under the id of a group of [d] whose columns it
    carries, and its [active] is what its window gives at [now]. *)
Definition entries_of_table (d : DB) (now : Z) (x : expansion) : Prop :=
  ∀ k e, e_groups x !! k = Some e →
    active (user e) = is_active (from (user e)) (to (user e)) now ∧
    name (user e) =
      render_name (nameBase (group e)) (nameDisplay (group e)) (u_args (user e)) ∧
    ∃ g, g ∈ tbl_groups d ∧ g_id g = k ∧ describes g e.

(** Every id that [pairings] lists under [p] is that of a group of [d]
    whose parent is [p]. *)
Definition pairings_of_table (d : DB) (x : expansion) : Prop :=
  ∀ p ids i, e_pairings x !! p = Some ids → i ∈ ids →
    ∃ g, g ∈ tbl_groups d ∧ g_id g = i ∧ g_parent g = Some p.

(** A start that is a number and an end that is a number or [null]. *)
Definition is_number (v : value) : Prop := ∃ z, v = Num z.
Definition is_end (v : value) : Prop := v = Null ∨ ∃ z, v = Num z.

(** A row of the join has a number for [from] and a number or [null]
    for [to]. *)
Definition stored_window (r : row) : Prop :=
  direct_of r = true → is_number (r_from r) ∧ is_end (r_to r).

(** Every entry has such a window, every array of [pairings] has an element
    and lists resolved ids only. *)
Definition windows_formed (x : expansion) : Prop :=
  children_resolved x ∧
  (∀ k ids, e_pairings x !! k = Some ids → ids ≠ []) ∧
  (∀ k e, e_groups x !! k = Some e → is_number (from (user e)) ∧ is_end (to (user e))).

(** Every inherited entry points to the array kept under its own id. *)
Definition inherited_have_children (x : expansion) : Prop :=
  ∀ k e, e_groups x !! k = Some e → direct (user e) = false →
    children (user e) = Some k ∧ is_Some (e_pairings x !! k).

(** Every entry whose group has a parent that is a group of [d] has that
    parent resolved, or about to be among [rows]. *)
Definition parents_pending (d : DB) (rows : list row) (pending : list Z) (x : expansion)
    : Prop :=
  ∀ k e g, e_groups x !! k = Some e →
    truthy_id (parent (group e)) = true →
    g ∈ tbl_groups d → g_id g = default 0 (parent (group e)) →
    is_Some (e_groups x !! g_id g) ∨ (∃ r, r ∈ rows ∧ r_id r = g_id g) ∨
    g_id g ∈ pending.

(** ** The table after [endGroupMembership] *)

(** A stored membership with [to] set to [timeNow]. *)
Definition ended (timeNow : Z) (ug : users_groups_row) : users_groups_row :=
  {| ug_user_id := ug_user_id ug;
     ug_group_id := ug_group_id ug;
     ug_args := ug_args ug;
     ug_from := ug_from ug;
     ug_to := Some timeNow |}.

(** [new] is [old] after the update for the user [uid] and the group
    [gid] at [timeNow]. *)
Definition updated_row (timeNow uid gid : Z) (old new : users_groups_row) : Prop :=
  if bool_decide (ug_user_id old = uid ∧ ug_group_id old = gid)
  then new = ended timeNow old
  else new = old.

(** Stored memberships of user 1 in group 7: one that ended at 20 and one
    that is open. *)
Definition db_history : DB :=
  {| tbl_groups := [plain_group 7 "Committee" None];
     tbl_users_groups := [stored 1 7 10 (Some 20); stored 1 7 30 None; stored 2 7 5 None];
     tbl_groups_permissions := [];
     tbl_users_permissions := [] |}.

Definition w_history : world := at_time 100 db_history (new_User 1).

Definition Committee : Group :=
  {| id := 7; nameBase := "Committee"; nameDisplay := None; membersAllowed := true;
     parent := None; isPublic := true; searchable := true; args := [] |}.

(** A group that takes no direct members, and one under Board. *)
Definition Closed : Group :=
  {| id := 9; nameBase := "Closed"; nameDisplay := None; membersAllowed := false;
     parent := None; isPublic := true; searchable := true; args := [] |}.

Definition Subcommittee : Group :=
  {| id := 7; nameBase := "Committee"; nameDisplay := None; membersAllowed := true;
     parent := Some 5; isPublic := true; searchable := true; args := [] |}.

(** ** The routes behind the guards *)

(** Table [users_details]. *)
Record users_details_row := {
  ud_user_id : Z;
  ud_full_name_latin : option string;
  ud_full_name_native : option string;
  ud_full_name_latin_sort : option string;
  ud_nickname : option string;
  ud_pet_name : option string;
  ud_pronouns : option string
}.

(** [hasCompletedInitialSetup] of the user with the id [i]:
    [select 1 from users_details where user_id = ?], then [!!row]. *)
Definition hasCompletedInitialSetup (users_details : list users_details_row) (i : Z)
    : bool :=
  bool_decide (Exists (λ row, ud_user_id row = i) users_details).

(** A middleware returns whether it called [next()]. *)
Definition requireInitialSetup (users_details : list users_details_row)
    : St exchange bool := λ r,
  if match req_user r with
     | Some u => hasCompletedInitialSetup users_details (user_id u)
     | None => false
     end
  then (Ret true, r)
  else ((redirect 303 "/";; mret false) : St exchange bool) r.

Definition requireLogin : St exchange bool := λ r,
  if bool_decide (is_Some (req_user r))
  then (Ret true, r)
  else ((redirect 303 "/";; mret false) : St exchange bool) r.

(** The handlers of a route in the order of their registration: each runs
    when the one before has called [next()], and [page] after them all. *)
Fixpoint dispatch (handlers : list (St exchange bool)) (page : St exchange ())
    : St exchange () :=
  match handlers with
  | [] => page
  | handler :: rest =>
      continue ← handler;
      if (continue : bool) then dispatch rest page else mret ()
  end.

(** The page [administrado_resursoj]; [sendRegularPage] is the method that
    it finds on [res], called with the name of the template (and with a
    view that is a constant of the page, which is left out). *)
Definition administrado_resursoj (csvParse : string → csv_result) (fuel : nat)
    (sendRegularPage : string → St exchange ()) : St exchange () :=
  held ← requirePermissions csvParse fuel ["resource.view"%string];
  if negb held then mret ()
  else sendRegularPage "administrado/resursoj"%string.

(** Whether the request comes from a user who has a row in [users_details]. *)
Definition set_up (users_details : list users_details_row) (r : exchange) : bool :=
  match req_user r with
  | Some u => hasCompletedInitialSetup users_details (user_id u)
  | None => false
  end.

(** The details of user 1. *)
Definition details_of_1 : list users_details_row :=
  [{| ud_user_id := 1;
      ud_full_name_latin := Some "Ludoviko Zamenhof"%string;
      ud_full_name_native := None;
      ud_full_name_latin_sort := Some "Zamenhof, Ludoviko"%string;
      ud_nickname := Some "Ludoviko"%string;
      ud_pet_name := None;
      ud_pronouns := Some "li"%string |}].

(** A [sendRegularPage] that sends nothing, and a request of user 1 who
    holds [resource.view]. *)
Definition silent_page (page : string) : St exchange () := mret ().

Definition tree_resource : pnode :=
  PObj {[ "resource"%string := PObj {[ "view"%string := PTrue ]} ]}.

Definition r_resource : exchange :=
  request_of (Some (this (cached_tree tree_resource (w_individual "resource.view"))))
    (db_individual "resource.view").

(** ** Names and pictures *)

(** The object kept in [this.details]; [None] stands for [null] and for
    [undefined], which every use treats alike. The object [{}] that
    [getNameDetails] hands out when the user has no row is [no_details]. *)
Record details := {
  fullNameLatin : option string;
  fullNameNative : option string;
  fullNameLatinSort : option string;
  nickname : option string;
  petName : option string;
  pronouns : option (list string)
}.

Definition no_details : details :=
  {| fullNameLatin := None; fullNameNative := None; fullNameLatinSort := None;
     nickname := None; petName := None; pronouns := None |}.

(** Table [users_pictures]. *)
Record users_pictures_row := {
  up_user_id : Z;
  up_public : option Z
}.

(** The fields of a [User] instance that the getters of names and pictures
    use, and the tables they read. *)
Record account := {
  a_id : Z;
  a_email : string;
  a_details : option details
}.

Record site := {
  users_details : list users_details_row;
  users_pictures : list users_pictures_row;
  account_of : account
}.

Definition with_tables (ud : list users_details_row) (up : list users_pictures_row)
    (s : site) : site :=
  {| users_details := ud; users_pictures := up; account_of := account_of s |}.

(** [s.split(',')] *)
Fixpoint split_comma (s : string) : list string :=
  match s with
  | EmptyString => [EmptyString]
  | String c s' =>
      if Ascii.eqb c ","%char then EmptyString :: split_comma s'
      else match split_comma s' with
           | seg :: segs => String c seg :: segs
           | [] => [String c EmptyString]
           end
  end.

(** The object that [getNameDetails] builds from a row. *)
Definition details_of_row (row : users_details_row) : details :=
  {| fullNameLatin := ud_full_name_latin row;
     fullNameNative := ud_full_name_native row;
     fullNameLatinSort := ud_full_name_latin_sort row;
     nickname := ud_nickname row;
     petName := ud_pet_name row;
     pronouns := if truthy_string (ud_pronouns row)
                 then split_comma <$> ud_pronouns row else None |}.

Definition getNameDetails : St site details := λ s,
  match a_details (account_of s) with
  | Some cached => (Ret cached, s)
  | None =>
      match head (filter (λ row, ud_user_id row = a_id (account_of s)) (users_details s)) with
      | Some row =>
          let d := details_of_row row in
          (Ret d, {| users_details := users_details s;
                     users_pictures := users_pictures s;
                     account_of := {| a_id := a_id (account_of s);
                                      a_email := a_email (account_of s);
                                      a_details := Some d |} |})
      | None => (Ret no_details, s)
      end
  end.

(** [formatLongName (fullNameLatin, petName = null)] *)
Definition formatLongName (fullNameLatin0 : string) (petName0 : option string) : string :=
  if truthy_string petName0
  then (fullNameLatin0 ++ " (" ++ default EmptyString petName0 ++ ")")%string
  else fullNameLatin0.

Definition getLongName : St site (option string) :=
  d ← getNameDetails;
  if negb (truthy_string (fullNameLatin d)) then mret None
  else mret (Some (formatLongName (default EmptyString (fullNameLatin d)) (petName d))).

Definition getShortName : St site (option string) :=
  d ← getNameDetails;
  if negb (truthy_string (nickname d)) then mret None
  else if truthy_string (petName d)
  then mret (Some (default EmptyString (nickname d) ++ " ("
                   ++ default EmptyString (petName d) ++ ")")%string)
  else mret (nickname d).

Definition getBriefName : St site (option string) :=
  d ← getNameDetails;
  if truthy_string (petName d) then mret (petName d)
  else if truthy_string (nickname d) then mret (nickname d)
  else mret None.

(** The row that [select public from users_pictures where user_id = ?]
    gives to [get]. *)
Definition picture_row (s : site) : option users_pictures_row :=
  head (filter (λ row, up_user_id row = a_id (account_of s)) (users_pictures s)).

(** [hasPicture (mustBePublic = false)]; [None] is the omitted argument. *)
Definition hasPicture (mustBePublic : option bool) (s : site) : bool :=
  match picture_row s with
  | None => false
  | Some row => if default false mustBePublic then truthy_id (up_public row) else true
  end.

Definition getPictureState (s : site) : Z :=
  match picture_row s with
  | None => 0
  | Some row => if negb (truthy_id (up_public row)) then 1 else 2
  end.

Definition getPictureSizes : list nat := [512; 256; 128]%nat.

(** The digits of a size. *)
Definition digits (n : nat) : string := NilEmpty.string_of_uint (Nat.to_uint n).

(** [getPictureURLs (mustBePublic = true)]; the result [None] is [null]. *)
Definition getPictureURLs (mustBePublic : option bool) (s : site)
    : option (gmap nat string) :=
  if negb (hasPicture (Some (default true mustBePublic)) s) then None
  else
    Some (foldl (λ urls size,
                   <[size := ("/img/aktivulo/" ++ a_email (account_of s) ++ "/"
                              ++ digits size ++ ".png")%string]> urls)
            ∅ getPictureSizes).

(** User 1 with a private picture and the details of [details_of_1]. *)
Definition s_private : site :=
  {| users_details := details_of_1;
     users_pictures := [{| up_user_id := 1; up_public := Some 0 |}];
     account_of := {| a_id := 1; a_email := "ludoviko@example.org"; a_details := None |} |}.

(** User 2, who has no row in either table. *)
Definition s_new : site :=
  {| users_details := details_of_1;
     users_pictures := [{| up_user_id := 1; up_public := Some 0 |}];
     account_of := {| a_id := 2; a_email := "nova@example.org"; a_details := None |} |}.

(** User 1 with the pet name Lulo. *)
Definition row_lulo : users_details_row :=
  {| ud_user_id := 1;
     ud_full_name_latin := Some "Ludoviko Zamenhof"%string;
     ud_full_name_native := None;
     ud_full_name_latin_sort := Some "Zamenhof, Ludoviko"%string;
     ud_nickname := Some "Ludoviko"%string;
     ud_pet_name := Some "Lulo"%string;
     ud_pronouns := None |}.

Definition s_lulo : site :=
  {| users_details := [row_lulo];
     users_pictures := [];
     account_of := {| a_id := 1; a_email := "ludoviko@example.org"; a_details := None |} |}.

(** ** Accounts *)

(** Table [users]. *)
Record users_row := {
  u_id : Z;
  u_email : string;
  u_enabled : option Z;
  u_password : option string;
  u_activation_key : option string;
  u_activation_key_time : option Z
}.

(** The fields that the constructor of [User] sets. *)
Record login := {
  l_id : Z;
  l_email : string;
  l_enabled : bool;
  l_password : option string;
  l_activationKey : option string;
  l_activationKeyTime : option Z
}.

(** The table [users] and the [User] instance [this]. *)
Record registry := {
  tbl_users : list users_row;
  self : login
}.

(** [not enabled] of SQLite: [NULL] stays [NULL]. *)
Definition sql_not (v : option Z) : option Z :=
  (λ z, if z =? 0 then 1 else 0) <$> v.

(** [a < b] of SQLite as a [where] condition: a [NULL] operand does not
    satisfy it. *)
Definition sql_lt (a : option Z) (b : Z) : bool :=
  match a with
  | Some z => z <? b
  | None => false
  end.

(** The row after [update users set enabled = not enabled]. *)
Definition toggled (row : users_row) : users_row :=
  {| u_id := u_id row; u_email := u_email row;
     u_enabled := sql_not (u_enabled row);
     u_password := u_password row;
     u_activation_key := u_activation_key row;
     u_activation_key_time := u_activation_key_time row |}.

(** The row after [update users set password = ?, activation_key = NULL,
    activation_key_time = NULL]. *)
Definition activated (password : string) (row : users_row) : users_row :=
  {| u_id := u_id row; u_email := u_email row;
     u_enabled := u_enabled row;
     u_password := Some password;
     u_activation_key := None;
     u_activation_key_time := None |}.

(** [update users set ... where id = ?] *)
Definition update_users (set : users_row → users_row) (i : Z) (users : list users_row)
    : list users_row :=
  (λ row, if bool_decide (u_id row = i) then set row else row) <$> users.

Definition toggleEnabled : St registry bool := λ s,
  let u := self s in
  (Ret (negb (l_enabled u)),
   {| tbl_users := update_users toggled (l_id u) (tbl_users s);
      self := {| l_id := l_id u; l_email := l_email u; l_enabled := negb (l_enabled u);
                 l_password := l_password u; l_activationKey := l_activationKey u;
                 l_activationKeyTime := l_activationKeyTime u |} |}).

Definition activate (password : string) : St registry () := λ s,
  let u := self s in
  (Ret (),
   {| tbl_users := update_users (activated password) (l_id u) (tbl_users s);
      self := {| l_id := l_id u; l_email := l_email u; l_enabled := l_enabled u;
                 l_password := Some password; l_activationKey := None;
                 l_activationKeyTime := None |} |}).

(** [User.getUserById (id)]; the result [None] is [null]. *)
Definition getUserById (i : Z) (users : list users_row) : option login :=
  match head (filter (λ row, u_id row = i) users) with
  | None => None
  | Some data =>
      Some {| l_id := i; l_email := u_email data;
              l_enabled := truthy_id (u_enabled data);
              l_password := u_password data;
              l_activationKey := u_activation_key data;
              l_activationKeyTime := u_activation_key_time data |}
  end.

(** [User.cleanUpActivationKeys ()] when [moment().unix()] reads [timeNow]
    and [CR.conf.activationKeyValidity] is [validity]:
    [delete from users where activation_key_time < ?]. *)
Definition cleanUpActivationKeys (timeNow validity : Z) (users : list users_row)
    : list users_row :=
  filter (λ row, sql_lt (u_activation_key_time row) (timeNow - validity) = false) users.

(** An account created at 1000 and not activated yet. *)
Definition row_pending : users_row :=
  {| u_id := 1; u_email := "ludoviko@example.org"; u_enabled := Some 1;
     u_password := None; u_activation_key := Some "c0ffee"%string;
     u_activation_key_time := Some 1000 |}.

Definition s_pending : registry :=
  {| tbl_users := [row_pending];
     self := {| l_id := 1; l_email := "ludoviko@example.org"; l_enabled := true;
                l_password := None; l_activationKey := Some "c0ffee"%string;
                l_activationKeyTime := Some 1000 |} |}.

(** * Properties *)

Ltac run1 :=
  unfold mbind, mret, St_bind, St_ret, outcome_bind, outcome_ret, get, put, throw,
    diverge, lift, get_db, get_this, set_db, set_groups, set_pairings,
    set_permissions, moment_unix, this_groups, this_permissions, expanding; simpl.

Ltac run := run1; repeat (progress run1).

(** ** The built-ins on examples *)

Example split_dot_export :
  split_dot "reports.export.csv" = ["reports"; "export"; "csv"]%string.
Proof. reflexivity. Qed.

Example split_dot_empty : split_dot EmptyString = [EmptyString].
Proof. reflexivity. Qed.

Example split_dot_trailing : split_dot "a..b." = ["a"; EmptyString; "b"; EmptyString]%string.
Proof. reflexivity. Qed.

Example replace_first_only : replace "$1 de $1" "$1" "estro" = "estro de $1"%string.
Proof. reflexivity. Qed.

Example replace_dollar_pattern : replace "x-$1-y" "$1" "<$&|$$>" = "x-<$1|$>-y"%string.
Proof. reflexivity. Qed.

Example dollar_10 : dollar 10 = "$10"%string.
Proof. reflexivity. Qed.

Example Math_min_undefined : Math_min [Undefined; Num 1000] = NaN.
Proof. reflexivity. Qed.

Example Math_max_infinity : Math_max [Num 20; PosInfinity] = PosInfinity.
Proof. reflexivity. Qed.

Lemma split_dot_nonempty s : split_dot s ≠ [].
Proof. destruct s as [|c s]; simpl; [done|]. destruct (Ascii.eqb _ _); [done|]. by destruct (split_dot s). Qed.

(** ** The caches *)

Section Caches.

Variable csvParse : string → csv_result.

Lemma getGroups_cached fuel w cached :
  groups (this w) = Some cached →
  getGroups csvParse fuel w = (Ret cached, w).
Proof. intros H. unfold getGroups. run. by rewrite H. Qed.

Lemma getGroups_fresh fuel w :
  groups (this w) = None →
  getGroups csvParse fuel w =
    let r := handleRows csvParse fuel (db w) (clock w (reads w))
               (select_user_groups (db w) (user_id (this w))) no_expansion in
    ((λ _, e_groups r.2) <$> r.1, expanded w r.2).
Proof.
  intros H. unfold getGroups. run. rewrite H. simpl.
  destruct (handleRows _ _ _ _ _ _) as [[] x]; reflexivity.
Qed.

(** [getGroups] leaves the database, the user's id, the cached permission
    tree and the clock's readings as they are. *)
Lemma getGroups_frame fuel w o w1 :
  getGroups csvParse fuel w = (o, w1) →
  db w1 = db w ∧ user_id (this w1) = user_id (this w) ∧
  permissions (this w1) = permissions (this w) ∧ clock w1 = clock w.
Proof.
  destruct (groups (this w)) as [cached|] eqn:H.
  - rewrite (getGroups_cached _ _ _ H). by intros [= <- <-].
  - rewrite (getGroups_fresh _ _ H). simpl. by intros [= <- <-].
Qed.

(** After [getGroups] the cache is assigned, whatever the outcome. *)
Lemma getGroups_assigns fuel w o w1 :
  getGroups csvParse fuel w = (o, w1) → is_Some (groups (this w1)).
Proof.
  destruct (groups (this w)) as [cached|] eqn:H.
  - rewrite (getGroups_cached _ _ _ H). intros [= <- <-]. by rewrite H.
  - rewrite (getGroups_fresh _ _ H). simpl. intros [= <- <-]. by eexists.
Qed.

Lemma getGroups_returns_cache fuel w groups0 w1 :
  getGroups csvParse fuel w = (Ret groups0, w1) → groups (this w1) = Some groups0.
Proof.
  destruct (groups (this w)) as [cached|] eqn:H.
  - rewrite (getGroups_cached _ _ _ H). by intros [= <- <-].
  - rewrite (getGroups_fresh _ _ H). simpl.
    destruct (handleRows _ _ _ _ _ _) as [[] x]; simpl; intros [= <- <-]; done.
Qed.

Lemma getGroups_with_permissions fuel w p :
  getGroups csvParse fuel (with_this (with_permissions p (this w)) w) =
    let r := getGroups csvParse fuel w in
    (r.1, with_this (with_permissions p (this r.2)) r.2).
Proof.
  destruct (groups (this w)) as [cached|] eqn:H.
  - rewrite (getGroups_cached _ w cached H). by apply getGroups_cached.
  - rewrite (getGroups_fresh _ w H), getGroups_fresh by done. reflexivity.
Qed.

Lemma getPermissions_cached fuel w T :
  permissions (this w) = Some T →
  getPermissions csvParse fuel w = (Ret T, w).
Proof. intros H. unfold getPermissions. run. by rewrite H. Qed.

Lemma getPermissions_fresh fuel w groups0 w1 :
  permissions (this w) = None →
  getGroups csvParse fuel w = (Ret groups0, w1) →
  getPermissions csvParse fuel w =
    (mapM structurize_permission (rawPermissions_of (db w) (user_id (this w)) groups0);;
     this_permissions) (cached_tree (PObj ∅) w1).
Proof.
  intros H HG. unfold getPermissions. run. rewrite H.
  pose proof (getGroups_with_permissions fuel w (Some (PObj ∅))) as E.
  rewrite HG in E. rewrite E. simpl.
  apply getGroups_frame in HG as (-> & _). reflexivity.
Qed.

Lemma hasPermission_cached fuel w T path :
  permissions (this w) = Some T →
  hasPermission csvParse fuel path w = (walk (split_dot path) T, w).
Proof. intros H. unfold hasPermission. run. by rewrite (getPermissions_cached _ _ T). Qed.

End Caches.

Lemma bind_run {S A B} (m : St S A) (f : A → St S B) s a s' :
  m s = (Ret a, s') → (m ≫= f) s = f a s'.
Proof. intros H. unfold mbind, St_bind. by rewrite H. Qed.

Lemma bind_stop {S A B} (m : St S A) (f : A → St S B) s o s' :
  m s = (o, s') → (∀ a, o ≠ Ret a) →
  (m ≫= f) s = (match o with Ret _ => Diverge | Throw e => Throw e
                | Unmodelled => Unmodelled | Diverge => Diverge end, s').
Proof. intros H Ho. unfold mbind, St_bind. rewrite H. destruct o; [by destruct (Ho a)|done..]. Qed.

Lemma filter_none {A} (P : A → Prop) `{∀ x, Decision (P x)} (l : list A) :
  (∀ x, x ∈ l → ¬ P x) → filter P l = [].
Proof.
  induction l as [|a l IH]; intros Hl; [done|].
  rewrite filter_cons_False by (apply Hl; left).
  apply IH. intros x Hx. apply Hl. by right.
Qed.

Lemma cached_tree_id T w : permissions (this w) = Some T → cached_tree T w = w.
Proof. destruct w as [d [i g p pm] c r]; simpl. by intros ->. Qed.

(** ** The permission tree *)

Section Permissions.

Variable csvParse : string → csv_result.

Lemma structurize_permission_run perm root root' w :
  permissions (this w) = Some root →
  structurize (split_dot perm) root = Ret root' →
  structurize_permission perm w = (Ret (), cached_tree root' w).
Proof. intros H E. unfold structurize_permission. run. by rewrite H, E. Qed.

(** Granting again what the tree already holds changes nothing. *)
Lemma structurize_again perm T n w :
  structurize (split_dot perm) T = Ret T →
  permissions (this w) = Some T →
  mapM structurize_permission (replicate n perm) w = (Ret (replicate n ()), w).
Proof.
  intros E H. induction n as [|n IH]; [done|].
  simpl. erewrite bind_run by (by apply (structurize_permission_run perm T T)).
  rewrite (cached_tree_id T w H). erewrite bind_run by apply IH. done.
Qed.

(** The tree of a user all of whose grants are the one string [perm]. *)
Lemma getPermissions_single fuel w groups0 w1 perm n T :
  permissions (this w) = None →
  getGroups csvParse fuel w = (Ret groups0, w1) →
  rawPermissions_of (db w) (user_id (this w)) groups0 = replicate (S n) perm →
  structurize (split_dot perm) (PObj ∅) = Ret T →
  structurize (split_dot perm) T = Ret T →
  getPermissions csvParse fuel w = (Ret T, cached_tree T w1).
Proof.
  intros Hp HG Hraw E0 E1.
  rewrite (getPermissions_fresh _ _ _ _ _ Hp HG), Hraw.
  assert (mapM structurize_permission (replicate (S n) perm) (cached_tree (PObj ∅) w1)
          = (Ret (replicate (S n) ()), cached_tree T w1)) as R.
  { simpl. erewrite bind_run by (by apply (structurize_permission_run perm (PObj ∅) T)).
    erewrite bind_run by (by apply (structurize_again perm T n)).
    reflexivity. }
  by rewrite (bind_run _ _ _ _ _ R).
Qed.

Lemma hasPermission_single fuel w groups0 w1 perm n T path :
  permissions (this w) = None →
  getGroups csvParse fuel w = (Ret groups0, w1) →
  rawPermissions_of (db w) (user_id (this w)) groups0 = replicate (S n) perm →
  structurize (split_dot perm) (PObj ∅) = Ret T →
  structurize (split_dot perm) T = Ret T →
  hasPermission csvParse fuel path w = (walk (split_dot path) T, cached_tree T w1) ∧
  hasPermission csvParse fuel path (cached_tree T w1)
    = (walk (split_dot path) T, cached_tree T w1).
Proof.
  intros Hp HG Hraw E0 E1. split.
  - unfold hasPermission. run.
    by rewrite (getPermissions_single _ _ _ _ _ _ _ Hp HG Hraw E0 E1).
  - by apply hasPermission_cached.
Qed.

End Permissions.

(** C4 (wildcard law): for a user whose grants are all the one string
    [reports.*], [hasPermission] answers true on [reports.export] and on
    [reports.export.csv] and false on [other.export], on the call that builds
    the tree and on every later call. *)
Theorem C4_wildcard_law csvParse fuel w groups0 w1 n :
  permissions (this w) = None →
  getGroups csvParse fuel w = (Ret groups0, w1) →
  rawPermissions_of (db w) (user_id (this w)) groups0 = replicate (S n) "reports.*"%string →
  ∃ w2,
    hasPermission csvParse fuel "reports.export" w = (Ret true, w2) ∧
    hasPermission csvParse fuel "reports.export.csv" w = (Ret true, w2) ∧
    hasPermission csvParse fuel "other.export" w = (Ret false, w2) ∧
    hasPermission csvParse fuel "reports.export" w2 = (Ret true, w2) ∧
    hasPermission csvParse fuel "reports.export.csv" w2 = (Ret true, w2) ∧
    hasPermission csvParse fuel "other.export" w2 = (Ret false, w2).
Proof.
  intros Hp HG Hraw. exists (cached_tree tree_wildcard w1).
  assert (∀ path, _) as H by
    (intros path; exact (hasPermission_single csvParse fuel w groups0 w1 _ n tree_wildcard
                           path Hp HG Hraw eq_refl eq_refl)).
  repeat split; first [rewrite (proj1 (H _)) | rewrite (proj2 (H _))]; reflexivity.
Qed.

Lemma C4_wildcard_law_witness :
  ∃ w2,
    Reference.hasPermission 1 "reports.export" (w_individual "reports.*") = (Ret true, w2) ∧
    Reference.hasPermission 1 "reports.export.csv" (w_individual "reports.*") = (Ret true, w2) ∧
    Reference.hasPermission 1 "other.export" (w_individual "reports.*") = (Ret false, w2) ∧
    Reference.hasPermission 1 "reports.export" w2 = (Ret true, w2) ∧
    Reference.hasPermission 1 "reports.export.csv" w2 = (Ret true, w2) ∧
    Reference.hasPermission 1 "other.export" w2 = (Ret false, w2).
Proof.
  apply (C4_wildcard_law Reference.csv_parse 1 (w_individual "reports.*") ∅
           (expanded (w_individual "reports.*") no_expansion) 0); reflexivity.
Defined.

(** C3 (exact-leaf law), as the code has it: for a user whose grants are all
    the one string [reports.export], [hasPermission] answers true on
    [reports.export] and also on [reports], whose only segment is consumed
    inside the tree. *)
Theorem C3_exact_leaf_law csvParse fuel w groups0 w1 n :
  permissions (this w) = None →
  getGroups csvParse fuel w = (Ret groups0, w1) →
  rawPermissions_of (db w) (user_id (this w)) groups0
    = replicate (S n) "reports.export"%string →
  ∃ w2,
    hasPermission csvParse fuel "reports.export" w = (Ret true, w2) ∧
    hasPermission csvParse fuel "reports" w = (Ret true, w2) ∧
    hasPermission csvParse fuel "reports.export" w2 = (Ret true, w2) ∧
    hasPermission csvParse fuel "reports" w2 = (Ret true, w2).
Proof.
  intros Hp HG Hraw. exists (cached_tree tree_export w1).
  assert (∀ path, _) as H by
    (intros path; exact (hasPermission_single csvParse fuel w groups0 w1 _ n tree_export
                           path Hp HG Hraw eq_refl eq_refl)).
  repeat split; first [rewrite (proj1 (H _)) | rewrite (proj2 (H _))]; reflexivity.
Qed.

Lemma C3_exact_leaf_law_witness :
  ∃ w2,
    Reference.hasPermission 1 "reports.export" (w_individual "reports.export") = (Ret true, w2) ∧
    Reference.hasPermission 1 "reports" (w_individual "reports.export") = (Ret true, w2) ∧
    Reference.hasPermission 1 "reports.export" w2 = (Ret true, w2) ∧
    Reference.hasPermission 1 "reports" w2 = (Ret true, w2).
Proof.
  apply (C3_exact_leaf_law Reference.csv_parse 1 (w_individual "reports.export") ∅
           (expanded (w_individual "reports.export") no_expansion) 0); reflexivity.
Defined.

(** The exact-leaf law as the specification words it fails: with
    [reports.export] as the only grant, [reports] is answered true, and
    [reports.export.csv] makes [hasPermission] throw on [bit in true]. *)
Lemma C3_exact_leaf_counterexample :
  rawPermissions_of (db_individual "reports.export") 1 ∅ = ["reports.export"%string] ∧
  (Reference.hasPermission 1 "reports.export" (w_individual "reports.export")).1 = Ret true ∧
  (Reference.hasPermission 1 "reports" (w_individual "reports.export")).1 = Ret true ∧
  (Reference.hasPermission 1 "reports.export.csv" (w_individual "reports.export")).1
    = Throw TypeError.
Proof. repeat split; reflexivity. Qed.

(** Below a leaf the walk throws, whatever the database behind the grant. *)
Lemma hasPermission_below_leaf_throws csvParse fuel w groups0 w1 n :
  permissions (this w) = None →
  getGroups csvParse fuel w = (Ret groups0, w1) →
  rawPermissions_of (db w) (user_id (this w)) groups0
    = replicate (S n) "reports.export"%string →
  (hasPermission csvParse fuel "reports.export.csv" w).1 = Throw TypeError.
Proof.
  intros Hp HG Hraw.
  by rewrite (proj1 (hasPermission_single csvParse fuel w groups0 w1 _ n tree_export
                       "reports.export.csv" Hp HG Hraw eq_refl eq_refl)).
Qed.

(** ** Users without memberships *)

Lemma select_user_groups_none d uid :
  (∀ ug, ug ∈ tbl_users_groups d → ug_user_id ug ≠ uid) →
  select_user_groups d uid = [].
Proof. intros H. unfold select_user_groups. by rewrite filter_none. Qed.

Lemma select_groups_permissions_nil d : select_groups_permissions d [] = [].
Proof.
  unfold select_groups_permissions. rewrite filter_none; [done|].
  intros p _. apply not_elem_of_nil.
Qed.

Lemma rawPermissions_of_none d uid :
  (∀ p, p ∈ tbl_users_permissions d → p.1 ≠ uid) →
  rawPermissions_of d uid ∅ = [].
Proof.
  intros H. unfold rawPermissions_of, groupIds_of, select_users_permissions.
  rewrite map_to_list_empty. simpl.
  rewrite select_groups_permissions_nil. by rewrite filter_none.
Qed.

Lemma getGroups_no_memberships csvParse fuel w :
  groups (this w) = None →
  (∀ ug, ug ∈ tbl_users_groups (db w) → ug_user_id ug ≠ user_id (this w)) →
  getGroups csvParse (S fuel) w = (Ret ∅, expanded w no_expansion).
Proof.
  intros Hg Hug. rewrite getGroups_fresh by done.
  by rewrite select_user_groups_none.
Qed.

(** C5, as the code has it: a freshly resolved user without memberships has
    an empty group map; if no permission is granted to the user individually
    either, [hasPermission] answers false on every dotted path whose first
    segment is not a property name inherited from [Object.prototype]. *)
Theorem C5_no_memberships csvParse fuel w :
  groups (this w) = None →
  permissions (this w) = None →
  (∀ ug, ug ∈ tbl_users_groups (db w) → ug_user_id ug ≠ user_id (this w)) →
  (getGroups csvParse (S fuel) w).1 = Ret ∅ ∧
  ((∀ p, p ∈ tbl_users_permissions (db w) → p.1 ≠ user_id (this w)) →
   ∀ path, inherited (hd EmptyString (split_dot path)) = false →
     (hasPermission csvParse (S fuel) path w).1 = Ret false).
Proof.
  intros Hg Hp Hug.
  pose proof (getGroups_no_memberships csvParse fuel w Hg Hug) as HG.
  split; [by rewrite HG|].
  intros Hup path Hin. unfold hasPermission.
  rewrite (bind_run _ _ w (PObj ∅) (cached_tree (PObj ∅) (expanded w no_expansion))).
  - unfold lift. simpl. pose proof (split_dot_nonempty path) as Hne.
    destruct (split_dot path) as [|bit rest]; [done|]. simpl in *.
    by rewrite lookup_empty, Hin.
  - rewrite (getPermissions_fresh _ _ _ _ _ Hp HG).
    by rewrite rawPermissions_of_none.
Qed.

Lemma C5_no_memberships_witness :
  (Reference.getGroups 1 (at_time 0 db_grant (new_User 1))).1 = Ret ∅ ∧
  (Reference.hasPermission 1 "reports.export" (at_time 0 db_grant (new_User 1))).1 = Ret false.
Proof.
  destruct (C5_no_memberships Reference.csv_parse 0 (at_time 0 db_grant (new_User 1))
              eq_refl eq_refl) as [H1 H2].
  - intros ug Hug. by apply elem_of_nil in Hug.
  - split; [exact H1|]. apply H2; [|reflexivity].
    intros p Hp. by apply elem_of_nil in Hp.
Defined.

(** The law as the specification words it fails: a user without memberships
    holds what is granted individually; and with nothing granted at all, a
    name that every object inherits is still found by [in]. *)
Lemma C5_no_memberships_counterexample :
  tbl_users_groups (db_individual "reports.export") = [] ∧
  (Reference.getGroups 1 (w_individual "reports.export")).1 = Ret ∅ ∧
  (Reference.hasPermission 1 "reports.export" (w_individual "reports.export")).1 = Ret true ∧
  tbl_users_groups db_grant = [] ∧ tbl_users_permissions db_grant = [] ∧
  (Reference.hasPermission 1 "constructor" (at_time 0 db_grant (new_User 1))).1 = Ret true.
Proof. repeat split; reflexivity. Qed.

(** ** Rows of the expansion *)

Section Rows.

Variable csvParse : string → csv_result.

Lemma handleRow_eq now row x :
  handleRow csvParse now row x =
    match window_of row x with
    | Ret (timeFrom, timeTo) =>
        match csvParse (default EmptyString (r_user_args row)) with
        | CsvError msg => (Throw (ParseError msg), x)
        | CsvRecords ur =>
            match csvParse (default EmptyString (r_group_args row)) with
            | CsvError msg => (Throw (ParseError msg), x)
            | CsvRecords gr =>
                (Ret (pushed row),
                 record row (entry_of row x timeFrom timeTo
                               (is_active timeFrom timeTo now)
                               (first_record ur) (first_record gr)) x)
            end
        end
    | Throw e => (Throw e, x)
    | Unmodelled => (Unmodelled, x)
    | Diverge => (Diverge, x)
    end.
Proof.
  unfold handleRow, await_csvParse. run.
  destruct (window_of row x) as [[timeFrom timeTo]| | |]; try done.
  destruct (csvParse (default _ (r_user_args row))); [|done].
  by destruct (csvParse (default _ (r_group_args row))).
Qed.

(** A row never makes the expansion diverge or leave the model. *)
Lemma children_entries_outcome groups0 ids :
  (∃ l, children_entries groups0 ids = Ret l) ∨ children_entries groups0 ids = Throw TypeError.
Proof.
  induction ids as [|i ids IH]; simpl; [by left; eexists|].
  destruct (groups0 !! i); [|by right].
  destruct IH as [[l ->]| ->]; simpl; [left; by eexists|by right].
Qed.

Lemma window_of_outcome row x :
  (∃ win, window_of row x = Ret win) ∨ window_of row x = Throw TypeError.
Proof.
  unfold window_of. destruct (present_window row x) as [tf tt].
  destruct (direct_of row); [left; by eexists|].
  destruct (e_pairings x !! r_id row) as [ids|]; [|by right].
  destruct (children_entries_outcome (e_groups x) ids) as [[l ->]| ->]; simpl;
    [left; by eexists|by right].
Qed.

Lemma window_of_direct row x :
  direct_of row = true → ∃ win, window_of row x = Ret win.
Proof.
  intros H. unfold window_of. rewrite H.
  destruct (present_window row x) as [tf tt]. by eexists.
Qed.

Lemma handleRow_outcome now row x :
  (∃ x', handleRow csvParse now row x = (Ret (pushed row), x')) ∨
  (∃ e, handleRow csvParse now row x = (Throw e, x)).
Proof.
  rewrite handleRow_eq.
  destruct (window_of_outcome row x) as [[[tf tt] ->]| ->]; [|right; by eexists].
  destruct (csvParse (default _ (r_user_args row))); [|right; by eexists].
  destruct (csvParse (default _ (r_group_args row))); [left|right]; by eexists.
Qed.

(** A directly held row fails on its arguments only. *)
Lemma handleRow_direct_outcome now row x :
  direct_of row = true →
  (rejects csvParse (r_user_args row) || rejects csvParse (r_group_args row) = false ∧
   ∃ x', handleRow csvParse now row x = (Ret (pushed row), x')) ∨
  (rejects csvParse (r_user_args row) || rejects csvParse (r_group_args row) = true ∧
   ∃ msg, handleRow csvParse now row x = (Throw (ParseError msg), x)).
Proof.
  intros Hd. rewrite handleRow_eq. unfold rejects.
  destruct (window_of_direct row x Hd) as [[tf tt] ->].
  destruct (csvParse (default _ (r_user_args row))); [|right; split; [done|by eexists]].
  destruct (csvParse (default _ (r_group_args row))); [left|right]; (split; [done|by eexists]).
Qed.

Lemma mapM_handleRow_rejected now rows x :
  (∀ r, r ∈ rows → direct_of r = true) →
  (∃ r, r ∈ rows ∧ rejects csvParse (r_user_args r) || rejects csvParse (r_group_args r) = true) →
  ∃ msg x', mapM (handleRow csvParse now) rows x = (Throw (ParseError msg), x').
Proof.
  revert x. induction rows as [|row rows IH]; intros x Hd (r & Hr & Hrej).
  { by apply elem_of_nil in Hr. }
  simpl.
  destruct (handleRow_direct_outcome now row x) as [(Hok & x' & E)|(_ & msg & E)].
  { apply Hd. left. }
  - rewrite (bind_run _ _ _ _ _ E).
    destruct (IH x') as (msg & x'' & E').
    { intros r' Hr'. apply Hd. by right. }
    { exists r. split; [|done]. apply elem_of_cons in Hr as [->|Hr]; [congruence|done]. }
    exists msg, x''. by rewrite (bind_stop _ _ _ _ _ E').
  - exists msg, x. by rewrite (bind_stop _ _ _ _ _ E).
Qed.

Lemma select_user_groups_direct d uid r :
  r ∈ select_user_groups d uid → direct_of r = true.
Proof.
  unfold select_user_groups. intros H.
  apply list_elem_of_bind in H as (ug & H & _).
  apply list_elem_of_bind in H as (g & H & _).
  apply list_elem_of_singleton in H as ->. reflexivity.
Qed.

End Rows.

(** ** Failures of the expansion *)

(** C8, as the code has it: when the parser rejects the argument text stored
    with one of the user's memberships (or with its group), a fresh
    [getGroups] throws the parser's error; no empty argument list stands in
    for the rejected text. *)
Theorem C8_malformed_args_throw csvParse fuel w row :
  groups (this w) = None →
  row ∈ select_user_groups (db w) (user_id (this w)) →
  rejects csvParse (r_user_args row) || rejects csvParse (r_group_args row) = true →
  ∃ msg w', getGroups csvParse (S fuel) w = (Throw (ParseError msg), w').
Proof.
  intros Hg Hrow Hrej. rewrite getGroups_fresh by done. simpl.
  destruct (mapM_handleRow_rejected csvParse (clock w (reads w))
              (select_user_groups (db w) (user_id (this w))) no_expansion)
    as (msg & x' & E).
  { intros r. apply select_user_groups_direct. }
  { by exists row. }
  rewrite (bind_stop _ _ _ _ _ E) by done. simpl. by eexists _, _.
Qed.

Lemma C8_malformed_args_throw_witness :
  ∃ msg w', Reference.getGroups 1 w_malformed = (Throw (ParseError msg), w').
Proof.
  apply (C8_malformed_args_throw Reference.csv_parse 0 w_malformed
           (joined_row
              {| ug_user_id := 1; ug_group_id := 7;
                 ug_args := Some (String Reference.dquote "estro");
                 ug_from := 2000; ug_to := None |}
              (plain_group 7 "Committee" None))).
  - reflexivity.
  - vm_compute. apply list_elem_of_In. right. left. reflexivity.
  - reflexivity.
Defined.

(** The text stored with the second membership of [db_malformed] is
    rejected, and the resolution of the user's groups throws. *)
Lemma C8_malformed_args_counterexample :
  Reference.csv_parse (String Reference.dquote "estro")
    = CsvError "Quoted field not terminated" ∧
  (Reference.getGroups 1 w_malformed).1
    = Throw (ParseError "Quoted field not terminated").
Proof. split; reflexivity. Qed.

(** C9, as the code has it: when a fresh expansion throws, [this.groups]
    holds the map as the closure left it at the failure, and a later
    [getGroups] returns that map without reading the database or the
    clock. *)
Theorem C9_failed_expansion_is_cached csvParse fuel fuel' w e w' :
  getGroups csvParse fuel w = (Throw e, w') →
  ∃ x,
    handleRows csvParse fuel (db w) (clock w (reads w))
      (select_user_groups (db w) (user_id (this w))) no_expansion = (Throw e, x) ∧
    groups (this w') = Some (e_groups x) ∧
    getGroups csvParse fuel' w' = (Ret (e_groups x), w').
Proof.
  destruct (groups (this w)) as [cached|] eqn:Hg.
  { by rewrite (getGroups_cached _ _ _ _ Hg). }
  rewrite (getGroups_fresh _ _ _ Hg). simpl.
  destruct (handleRows _ _ _ _ _ _) as [o x] eqn:E. simpl.
  destruct o; simpl; intros [= <- <-]; try done.
  exists x. split; [done|]. split; [done|]. by apply getGroups_cached.
Qed.

Lemma C9_failed_expansion_is_cached_witness :
  let w' := (Reference.getGroups 1 w_malformed).2 in
  ∃ x,
    handleRows Reference.csv_parse 1 db_malformed 0
      (select_user_groups db_malformed 1) no_expansion
      = (Throw (ParseError "Quoted field not terminated"), x) ∧
    groups (this w') = Some (e_groups x) ∧
    Reference.getGroups 7 w' = (Ret (e_groups x), w').
Proof.
  apply (C9_failed_expansion_is_cached Reference.csv_parse 1 7 w_malformed
           (ParseError "Quoted field not terminated")
           (Reference.getGroups 1 w_malformed).2).
  reflexivity.
Defined.

(** After the failed expansion of [db_malformed] the cache holds group 5 and
    not group 7, and the next call returns this partial map. *)
Lemma C9_failed_expansion_counterexample :
  ∃ e w' partial,
    Reference.getGroups 1 w_malformed = (Throw e, w') ∧
    groups (this w') = Some partial ∧
    is_Some (partial !! 5) ∧ partial !! 7 = None ∧
    Reference.getGroups 1 w' = (Ret partial, w').
Proof.
  exists (ParseError "Quoted field not terminated"), (Reference.getGroups 1 w_malformed).2,
    (default ∅ (groups (this (Reference.getGroups 1 w_malformed).2))).
  split; [reflexivity|]. split; [reflexivity|].
  split; [by eexists|]. split; reflexivity.
Qed.

(** ** Termination *)

Section Termination.

Variable csvParse : string → csv_result.

Lemma mapM_handleRow_outcome now rows x :
  (∃ x', mapM (handleRow csvParse now) rows x = (Ret (pushed <$> rows), x')) ∨
  (∃ e x', mapM (handleRow csvParse now) rows x = (Throw e, x')).
Proof.
  revert x. induction rows as [|row rows IH]; intros x; csimpl.
  { left. by eexists. }
  destruct (handleRow_outcome csvParse now row x) as [[x' E]|[e E]].
  - rewrite (bind_run _ _ _ _ _ E).
    destruct (IH x') as [[x'' E']|(e & x'' & E')].
    + left. exists x''. by rewrite (bind_run _ _ _ _ _ E').
    + right. exists e, x''. by rewrite (bind_stop _ _ _ _ _ E').
  - right. exists e, x. by rewrite (bind_stop _ _ _ _ _ E).
Qed.

Lemma pushed_chain_ends_0 d rows :
  (∀ r, r ∈ rows → chain_ends d 0 (r_parent r) = true) →
  concat (pushed <$> rows) = [].
Proof.
  induction rows as [|row rows IH]; intros H; [done|]. csimpl.
  rewrite IH by (intros r Hr; apply H; by right).
  assert (chain_ends d 0 (r_parent row) = true) as H0 by (apply H; left).
  unfold pushed. simpl in H0. by destruct (truthy_id (r_parent row)).
Qed.

Lemma elem_of_pushed i rows :
  i ∈ concat (pushed <$> rows) →
  ∃ r, r ∈ rows ∧ truthy_id (r_parent r) = true ∧ default 0 (r_parent r) = i.
Proof.
  induction rows as [|row rows IH]; csimpl; intros H.
  { by apply elem_of_nil in H. }
  apply elem_of_app in H as [H|H].
  - exists row. split; [by left|]. unfold pushed in H.
    destruct (truthy_id (r_parent row)); [|by apply elem_of_nil in H].
    by apply list_elem_of_singleton in H as ->.
  - destruct (IH H) as (r & Hr & Hp). exists r. split; [by right|done].
Qed.

Lemma parents_chain_ends d n rows r' :
  (∀ r, r ∈ rows → chain_ends d (S n) (r_parent r) = true) →
  r' ∈ select_groups_in d (concat (pushed <$> rows)) →
  chain_ends d n (r_parent r') = true.
Proof.
  intros H Hr'. unfold select_groups_in in Hr'.
  apply list_elem_of_fmap in Hr' as (g & -> & Hg).
  apply list_elem_of_filter in Hg as [Hid Hg].
  apply elem_of_pushed in Hid as (r & Hr & Ht & Hp).
  specialize (H r Hr). simpl in H. rewrite Ht in H.
  rewrite forallb_forall in H. apply H. apply list_elem_of_In.
  apply list_elem_of_filter. split; [by rewrite Hp|done].
Qed.

Lemma handleRows_settles d now n : ∀ fuel rows x,
  (n < fuel)%nat →
  (∀ r, r ∈ rows → chain_ends d n (r_parent r) = true) →
  settles (handleRows csvParse fuel d now rows x).1 = true.
Proof.
  induction n as [|n IH]; intros [|fuel] rows x Hfuel Hrows; try lia; simpl.
  - destruct (mapM_handleRow_outcome now rows x) as [[x' E]|(e & x' & E)].
    + rewrite (bind_run _ _ _ _ _ E). by rewrite (pushed_chain_ends_0 d rows).
    + by rewrite (bind_stop _ _ _ _ _ E).
  - destruct (mapM_handleRow_outcome now rows x) as [[x' E]|(e & x' & E)].
    + rewrite (bind_run _ _ _ _ _ E).
      destruct (length (concat (pushed <$> rows)) <? 1)%nat; [done|].
      apply IH; [lia|]. intros r'. by apply parents_chain_ends.
    + by rewrite (bind_stop _ _ _ _ _ E).
Qed.

Lemma select_user_groups_parent d uid r :
  r ∈ select_user_groups d uid → ∃ g, g ∈ tbl_groups d ∧ r_parent r = g_parent g.
Proof.
  unfold select_user_groups. intros H.
  apply list_elem_of_bind in H as (ug & H & _).
  apply list_elem_of_bind in H as (g & H & Hg).
  apply list_elem_of_singleton in H as ->.
  apply list_elem_of_filter in Hg as [_ Hg]. by exists g.
Qed.

End Termination.

(** ** The reads of the closure *)

Section Progress.

Variable csvParse : string → csv_result.

Lemma children_entries_resolved groups0 ids :
  (∀ i, i ∈ ids → is_Some (groups0 !! i)) →
  ∃ l, children_entries groups0 ids = Ret l.
Proof.
  induction ids as [|i ids IH]; intros H; simpl; [by eexists|].
  destruct (H i) as [child ->]; [by left|].
  destruct IH as [l ->]; [intros j Hj; apply H; by right|]. by eexists.
Qed.

(** With every listed child resolved, a row whose arguments parse is
    recorded and pushes its parent. *)
Lemma handleRow_resolved now row x :
  children_resolved x →
  (direct_of row = false → is_Some (e_pairings x !! r_id row)) →
  rejects csvParse (r_user_args row) = false →
  rejects csvParse (r_group_args row) = false →
  ∃ entry, handleRow csvParse now row x = (Ret (pushed row), record row entry x).
Proof.
  intros Hx Hp Hu Hg. rewrite handleRow_eq. unfold rejects in *.
  assert (∃ win, window_of row x = Ret win) as [[tf tt] ->].
  { unfold window_of. destruct (present_window row x) as [tf tt].
    destruct (direct_of row); [by eexists|].
    destruct (Hp eq_refl) as [ids Hids]. rewrite Hids.
    destruct (children_entries_resolved (e_groups x) ids) as [l ->]; [|by eexists].
    intros i Hi. by apply (Hx (r_id row) ids). }
  destruct (csvParse (default _ (r_user_args row))); [|done].
  destruct (csvParse (default _ (r_group_args row))); [|done].
  by eexists.
Qed.

Lemma record_resolved row entry x :
  children_resolved x → children_resolved (record row entry x).
Proof.
  intros Hx k ids i Hk Hi. unfold record in *. simpl in *.
  destruct (decide (i = r_id row)) as [->|Hne].
  { rewrite lookup_insert_eq. by eexists. }
  rewrite lookup_insert_ne by done.
  destruct (truthy_id (r_parent row)); [|by apply (Hx k ids)].
  destruct (decide (default 0 (r_parent row) = k)) as [<-|Hk'].
  - rewrite lookup_insert_eq in Hk. injection Hk as <-.
    apply elem_of_app in Hi as [Hi|Hi].
    + destruct (e_pairings x !! default 0 (r_parent row)) as [ids|] eqn:E; simpl in Hi.
      * by apply (Hx (default 0 (r_parent row)) ids).
      * by apply elem_of_nil in Hi.
    + by apply list_elem_of_singleton in Hi.
  - rewrite lookup_insert_ne in Hk by done. by apply (Hx k ids).
Qed.

Lemma record_pairings_parent row entry x :
  truthy_id (r_parent row) = true →
  is_Some (e_pairings (record row entry x) !! default 0 (r_parent row)).
Proof. intros H. unfold record. simpl. rewrite H, lookup_insert_eq. by eexists. Qed.

Lemma record_pairings_mono row entry x k :
  is_Some (e_pairings x !! k) → is_Some (e_pairings (record row entry x) !! k).
Proof.
  intros H. unfold record. simpl. destruct (truthy_id (r_parent row)); [|done].
  destruct (decide (default 0 (r_parent row) = k)) as [->|Hne].
  - rewrite lookup_insert_eq. by eexists.
  - by rewrite lookup_insert_ne.
Qed.

(** With every listed child resolved and the row's own array in place, a
    row is recorded unless the parser rejects its arguments. *)
Lemma handleRow_paired now row x :
  children_resolved x →
  (direct_of row = false → is_Some (e_pairings x !! r_id row)) →
  (∃ entry, handleRow csvParse now row x = (Ret (pushed row), record row entry x)) ∨
  (∃ msg, handleRow csvParse now row x = (Throw (ParseError msg), x)).
Proof.
  intros Hx Hp.
  destruct (rejects csvParse (r_user_args row)) eqn:Hu;
    [|destruct (rejects csvParse (r_group_args row)) eqn:Hg].
  3: { left. by apply handleRow_resolved. }
  all: right; rewrite handleRow_eq; unfold rejects in *.
  all: assert (∃ win, window_of row x = Ret win) as [[tf tt] ->].
  1,3: unfold window_of; destruct (present_window row x) as [tf tt];
       destruct (direct_of row); [by eexists|];
       destruct (Hp eq_refl) as [ids Hids]; rewrite Hids;
       destruct (children_entries_resolved (e_groups x) ids) as [l ->]; [|by eexists];
       intros i Hi; by apply (Hx (r_id row) ids).
  - destruct (csvParse (default _ (r_user_args row))); [done|by eexists].
  - destruct (csvParse (default _ (r_user_args row))); [|by eexists].
    destruct (csvParse (default _ (r_group_args row))); [done|by eexists].
Qed.

Lemma mapM_handleRow_paired now rows : ∀ x,
  children_resolved x → rows_paired x rows →
  (∃ x', mapM (handleRow csvParse now) rows x = (Ret (pushed <$> rows), x') ∧
     children_resolved x' ∧
     (∀ k, is_Some (e_pairings x !! k) → is_Some (e_pairings x' !! k)) ∧
     (∀ p, p ∈ concat (pushed <$> rows) → is_Some (e_pairings x' !! p))) ∨
  (∃ msg x', mapM (handleRow csvParse now) rows x = (Throw (ParseError msg), x')).
Proof.
  induction rows as [|row rows IH]; intros x Hx Hrows; csimpl.
  { left. exists x. split; [done|]. split; [done|]. split; [done|].
    intros p Hp. by apply elem_of_nil in Hp. }
  destruct (handleRow_paired now row x Hx) as [[entry E]|[msg E]].
  { apply Hrows. left. }
  2: { right. exists msg, x. by rewrite (bind_stop _ _ _ _ _ E). }
  rewrite (bind_run _ _ _ _ _ E).
  destruct (IH (record row entry x)) as [(x' & E' & Hx' & Hmono & Hpushed)|(msg & x' & E')].
  { by apply record_resolved. }
  { intros r Hr Hd. apply record_pairings_mono, Hrows; [by right|done]. }
  2: { right. exists msg, x'. by rewrite (bind_stop _ _ _ _ _ E'). }
  left. exists x'. rewrite (bind_run _ _ _ _ _ E'). split; [done|]. split; [done|]. split.
  - intros k Hk. by apply Hmono, record_pairings_mono.
  - intros p Hp. apply elem_of_app in Hp as [Hp|Hp]; [|by apply Hpushed].
    unfold pushed in Hp. destruct (truthy_id (r_parent row)) eqn:Ht.
    + apply list_elem_of_singleton in Hp as ->. by apply Hmono, record_pairings_parent.
    + by apply elem_of_nil in Hp.
Qed.

(** The closure never reads a property of [undefined]: it returns, throws
    what the parser threw, or goes on for ever. *)
Lemma handleRows_paired d now fuel : ∀ rows x,
  children_resolved x → rows_paired x rows →
  match (handleRows csvParse fuel d now rows x).1 with
  | Ret _ | Throw (ParseError _) | Diverge => True
  | Throw TypeError | Unmodelled => False
  end.
Proof.
  induction fuel as [|fuel IH]; intros rows x Hx Hrows; [done|]. simpl.
  destruct (mapM_handleRow_paired now rows x Hx Hrows)
    as [(x' & E & Hx' & _ & Hpushed)|(msg & x' & E)].
  2: { by rewrite (bind_stop _ _ _ _ _ E). }
  rewrite (bind_run _ _ _ _ _ E).
  destruct (length (concat (pushed <$> rows)) <? 1)%nat; [done|].
  apply IH; [done|]. intros r Hr _. unfold select_groups_in in Hr.
  apply list_elem_of_fmap in Hr as (g & -> & Hg).
  apply list_elem_of_filter in Hg as [Hid _]. by apply Hpushed.
Qed.

Lemma getGroups_never_TypeError fuel w :
  match (getGroups csvParse fuel w).1 with
  | Ret _ | Throw (ParseError _) | Diverge => True
  | Throw TypeError | Unmodelled => False
  end.
Proof.
  destruct (groups (this w)) as [cached|] eqn:Hg.
  { by rewrite (getGroups_cached _ _ _ _ Hg). }
  rewrite (getGroups_fresh _ _ _ Hg). simpl.
  pose proof (handleRows_paired (db w) (clock w (reads w)) fuel
                (select_user_groups (db w) (user_id (this w))) no_expansion) as H.
  destruct (handleRows _ _ _ _ _ _) as [[| [] | |] x]; simpl in *; try done; apply H.
  all: try (intros k ids i Hk; simpl in Hk; by rewrite lookup_empty in Hk).
  all: intros r Hr Hd; apply select_user_groups_direct in Hr; congruence.
Qed.

End Progress.


(** C6, as the code has it: on a hierarchy in which every group is at most
    [N] parent pointers away from a root, [getGroups] comes to an end within
    [N + 1] calls of [handleRows]: it returns the map, or throws what the
    parser threw. *)
Theorem C6_bounded_depth_terminates csvParse fuel N w :
  depth_le (db w) N = true →
  (N < fuel)%nat →
  (∃ groups0, (getGroups csvParse fuel w).1 = Ret groups0) ∨
  (∃ msg, (getGroups csvParse fuel w).1 = Throw (ParseError msg)).
Proof.
  intros Hd Hfuel.
  assert (settles (getGroups csvParse fuel w).1 = true) as Hs.
  { destruct (groups (this w)) as [cached|] eqn:Hg.
    { by rewrite (getGroups_cached _ _ _ _ Hg). }
    rewrite (getGroups_fresh _ _ _ Hg). simpl.
    pose proof (handleRows_settles csvParse (db w) (clock w (reads w)) N fuel
                  (select_user_groups (db w) (user_id (this w))) no_expansion Hfuel) as H.
    destruct (handleRows _ _ _ _ _ _) as [[] x]; simpl in *; try done; apply H;
      intros r Hr; apply select_user_groups_parent in Hr as (g & Hg' & ->);
      unfold depth_le in Hd; rewrite forallb_forall in Hd; apply Hd;
      by apply list_elem_of_In. }
  pose proof (getGroups_never_TypeError csvParse fuel w) as Ht.
  destruct (getGroups csvParse fuel w).1 as [groups0|[|msg]| |]; try done.
  - left. by eexists.
  - right. by eexists.
Qed.

Lemma C6_bounded_depth_terminates_witness :
  (∃ groups0, (Reference.getGroups 2 (at_time 2500 db_board (new_User 1))).1 = Ret groups0) ∨
  (∃ msg, (Reference.getGroups 2 (at_time 2500 db_board (new_User 1))).1
            = Throw (ParseError msg)).
Proof.
  apply (C6_bounded_depth_terminates Reference.csv_parse 2 1
           (at_time 2500 db_board (new_User 1))); [reflexivity|lia].
Defined.

(** ** A cycle of parent pointers *)

Lemma cycle_diverges fuel : ∀ x,
  children_resolved x →
  (is_Some (e_pairings x !! 1) →
   (handleRows Reference.csv_parse fuel db_cycle 0
      [parent_row (plain_group 1 "A" (Some 2))] x).1 = Diverge) ∧
  (is_Some (e_pairings x !! 2) →
   (handleRows Reference.csv_parse fuel db_cycle 0
      [parent_row (plain_group 2 "B" (Some 1))] x).1 = Diverge).
Proof.
  induction fuel as [|fuel IH]; intros x Hx; [done|].
  split; intros Hp.
  - destruct (handleRow_resolved Reference.csv_parse 0
                (parent_row (plain_group 1 "A" (Some 2))) x Hx (λ _, Hp) eq_refl eq_refl)
      as [entry E].
    cbn [handleRows mapM]. rewrite (bind_run _ _ _ _ _ (bind_run _ _ _ _ _ E)).
    apply (IH (record _ entry x)); [by apply record_resolved|].
    by apply record_pairings_parent.
  - destruct (handleRow_resolved Reference.csv_parse 0
                (parent_row (plain_group 2 "B" (Some 1))) x Hx (λ _, Hp) eq_refl eq_refl)
      as [entry E].
    cbn [handleRows mapM]. rewrite (bind_run _ _ _ _ _ (bind_run _ _ _ _ _ E)).
    apply (IH (record _ entry x)); [by apply record_resolved|].
    by apply record_pairings_parent.
Qed.

(** On two groups that are each other's parent the expansion never comes to
    an end, however many calls of [handleRows] it is given. *)
Lemma C6_cycle_counterexample :
  tbl_groups db_cycle = [plain_group 1 "A" (Some 2); plain_group 2 "B" (Some 1)] ∧
  ¬ ∃ fuel, settles (Reference.getGroups fuel w_cycle).1 = true.
Proof.
  split; [reflexivity|]. intros [fuel H].
  unfold Reference.getGroups in H. rewrite getGroups_fresh in H by done.
  destruct fuel as [|fuel]; [done|].
  change (select_user_groups (db w_cycle) (user_id (this w_cycle)))
    with [joined_row (stored 1 1 0 None) (plain_group 1 "A" (Some 2))] in H.
  destruct (handleRow_resolved Reference.csv_parse 0
              (joined_row (stored 1 1 0 None) (plain_group 1 "A" (Some 2))) no_expansion)
    as [entry E]; try done.
  assert ((handleRows Reference.csv_parse (S fuel) (db w_cycle) (clock w_cycle (reads w_cycle))
             [joined_row (stored 1 1 0 None) (plain_group 1 "A" (Some 2))] no_expansion).1
          = Diverge) as D.
  { cbn [handleRows mapM]. rewrite (bind_run _ _ _ _ _ (bind_run _ _ _ _ _ E)).
    apply (cycle_diverges fuel (record _ entry no_expansion)).
    - by apply record_resolved.
    - by apply record_pairings_parent. }
  cbv zeta in H.
  destruct (handleRows _ (S fuel) _ _ _ _) as [o x']. simpl in *. by subst o.
Qed.

(** ** The mutations and the caches *)

Lemma bind_inv {S A B} (m : St S A) (f : A → St S B) s b s' :
  (m ≫= f) s = (Ret b, s') → ∃ a s1, m s = (Ret a, s1) ∧ f a s1 = (Ret b, s').
Proof.
  unfold mbind, St_bind. destruct (m s) as [[a| | |] s1]; try done. by exists a, s1.
Qed.

Section Mutations.

Variable csvParse : string → csv_result.
Variable Group_getGroupById : Z → DB → outcome (option Group).
Variable Group_addUser : Group → Z → list string → Z → value → DB → outcome bool * DB.

Lemma resolve_group_frame group w o w1 :
  resolve_group Group_getGroupById group w = (o, w1) → w1 = w.
Proof.
  destruct group as [g|n]; simpl.
  - by intros [= _ <-].
  - unfold mbind, St_bind, get_db, lift. by intros [= _ <-].
Qed.

(** [endGroupMembership] that returns [true] has discarded the cached map
    and expanded it anew from the updated table; the cached permission tree
    is as before. *)
Lemma endGroupMembership_true fuel group w w' :
  endGroupMembership csvParse Group_getGroupById fuel group w = (Ret true, w') →
  permissions (this w') = permissions (this w) ∧
  ∃ w0 groups1,
    groups (this w0) = None ∧ db w0 = db w' ∧
    getGroups csvParse fuel w0 = (Ret groups1, w') ∧
    groups (this w') = Some groups1.
Proof.
  unfold endGroupMembership. intros H.
  apply bind_inv in H as (g0 & w1 & Hr & H). apply resolve_group_frame in Hr as ->.
  apply bind_inv in H as (groups0 & w2 & HG & H).
  apply bind_inv in H as (g & w3 & Hd & H).
  assert (w3 = w2) as -> by (destruct g0; simpl in Hd; [by injection Hd|done]).
  destruct (negb _); [done|].
  apply bind_inv in H as (timeNow & w4 & Ht & H). injection Ht as <- <-.
  apply bind_inv in H as (d & w5 & Hdb & H). injection Hdb as <- <-.
  apply bind_inv in H as (u & w6 & Hu & H). injection Hu as <- <-.
  apply bind_inv in H as ([] & w7 & Hs & H). injection Hs as <-.
  apply bind_inv in H as ([] & w8 & Hs & H). injection Hs as <-.
  apply bind_inv in H as (groups1 & w9 & HG' & H). injection H as <-.
  pose proof (getGroups_frame _ _ _ _ _ HG) as (_ & _ & Hp & _).
  pose proof (getGroups_frame _ _ _ _ _ HG') as (Hdb & _ & Hp' & _).
  split; [by rewrite Hp', <- Hp|].
  eexists _, groups1. split; [|split; [|split; [exact HG'|]]].
  - reflexivity.
  - by rewrite Hdb.
  - by eapply getGroups_returns_cache.
Qed.

(** [addToGroup] that returns the group has set one direct entry in the map
    that [getGroups] handed out (the cached one when there was one); the
    cached permission tree is as before. *)
Lemma addToGroup_added fuel target args timeFrom timeTo w g w' :
  addToGroup csvParse Group_getGroupById Group_addUser fuel target args timeFrom timeTo w
    = (Ret (Some g), w') →
  permissions (this w') = permissions (this w) ∧
  ∃ w0 groups0 w1 entry,
    groups (this w0) = groups (this w) ∧
    getGroups csvParse fuel w0 = (Ret groups0, w1) ∧
    (∀ cached, groups (this w) = Some cached → groups0 = cached) ∧
    groups (this w') = Some (<[id g := entry]> groups0) ∧
    group entry = g ∧ direct (user entry) = true ∧ children (user entry) = None ∧
    to (user entry) = timeTo.
Proof.
  unfold addToGroup. intros H.
  apply bind_inv in H as (tf & w1 & Ht & H).
  assert (this w1 = this w ∧ db w1 = db w) as [Hthis Hdb].
  { destruct timeFrom; injection Ht as <- <-; done. }
  apply bind_inv in H as (g0 & w2 & Hr & H). apply resolve_group_frame in Hr as ->.
  apply bind_inv in H as (g1 & w3 & Hd & H).
  assert (w3 = w1) as -> by (destruct g0; simpl in Hd; [by injection Hd|done]).
  apply bind_inv in H as (u & w4 & Hu & H). injection Hu as <- <-.
  apply bind_inv in H as (d & w5 & Hd' & H). injection Hd' as <- <-.
  destruct (Group_addUser _ _ _ _ _ _) as [wasAdded d'].
  apply bind_inv in H as ([] & w6 & Hs & H). injection Hs as <-.
  apply bind_inv in H as (added & w7 & Hl & H). unfold lift in Hl. injection Hl as -> <-.
  destruct added; simpl in H; [|done].
  apply bind_inv in H as (timeNow & w8 & Hn & H). injection Hn as <- <-.
  apply bind_inv in H as (groups0 & w9 & HG & H).
  apply bind_inv in H as ([] & w10 & Hs & H). injection Hs as <-.
  injection H as <- <-.
  pose proof (getGroups_frame _ _ _ _ _ HG) as (_ & _ & Hp & _).
  split; [simpl in *; by rewrite Hp, Hthis|].
  eexists _, groups0, w9, _. split; [|split; [exact HG|split]].
  - simpl. by rewrite Hthis.
  - intros cached Hc.
    erewrite getGroups_cached in HG by (simpl; rewrite Hthis; exact Hc).
    by injection HG as <- _.
  - done.
Qed.

End Mutations.

(** C7, as the code has it: [endGroupMembership] that returns [true] has
    discarded the cached group map and expanded it anew; neither it nor
    [addToGroup] touches the cached permission tree, from which every later
    [hasPermission] still answers. *)
Theorem C7_mutations_and_caches csvParse Group_getGroupById Group_addUser fuel w :
  (∀ target w',
     endGroupMembership csvParse Group_getGroupById fuel target w = (Ret true, w') →
     (∃ w0 groups1, groups (this w0) = None ∧ db w0 = db w' ∧
        getGroups csvParse fuel w0 = (Ret groups1, w') ∧ groups (this w') = Some groups1) ∧
     permissions (this w') = permissions (this w) ∧
     ∀ T path, permissions (this w) = Some T →
       hasPermission csvParse fuel path w' = (walk (split_dot path) T, w')) ∧
  (∀ target args timeFrom timeTo g w',
     addToGroup csvParse Group_getGroupById Group_addUser fuel target args timeFrom timeTo w
       = (Ret (Some g), w') →
     permissions (this w') = permissions (this w) ∧
     ∀ T path, permissions (this w) = Some T →
       hasPermission csvParse fuel path w' = (walk (split_dot path) T, w')).
Proof.
  split.
  - intros target w' H. apply endGroupMembership_true in H as [Hp H].
    split; [done|]. split; [done|]. intros T path HT.
    apply hasPermission_cached. by rewrite Hp.
  - intros target args timeFrom timeTo g w' H. apply addToGroup_added in H as [Hp H].
    split; [done|]. intros T path HT.
    apply hasPermission_cached. by rewrite Hp.
Qed.

Lemma C7_mutations_and_caches_witness :
  permissions (this w_joined) = permissions (this w_asked) ∧
  Reference.hasPermission 2 "reports.export" w_joined = (Ret false, w_joined) ∧
  permissions (this w_left) = permissions (this w_joined) ∧
  Reference.hasPermission 2 "reports.export" w_left = (Ret false, w_left).
Proof.
  destruct (C7_mutations_and_caches Reference.csv_parse Reference.getGroupById
              Reference.addUser 2 w_asked) as [_ Hadd].
  destruct (Hadd (ById 7) None None Null
              {| id := 7; nameBase := "Committee"; nameDisplay := None;
                 membersAllowed := true; parent := Some 5; isPublic := true;
                 searchable := true; args := [] |} w_joined eq_refl)
    as (Hp & Hh).
  destruct (C7_mutations_and_caches Reference.csv_parse Reference.getGroupById
              Reference.addUser 2 w_joined) as [Hend _].
  destruct (Hend (ById 7) w_left eq_refl) as (_ & Hp' & Hh').
  split; [exact Hp|]. split; [exact (Hh (PObj ∅) _ eq_refl)|].
  split; [exact Hp'|]. exact (Hh' (PObj ∅) _ eq_refl).
Defined.

(** After [addToGroup] the cached map holds Committee but not its parent
    Board, which a fresh expansion of the same database resolves; and
    [hasPermission] still denies what Board grants, which a fresh user
    object on the same database is granted. *)
Lemma C7_mutations_counterexample :
  (∃ g, (Reference.addToGroup 2 (ById 7) None None Null w_asked).1 = Ret (Some g)) ∧
  (∃ cached, groups (this w_joined) = Some cached ∧
     is_Some (cached !! 7) ∧ cached !! 5 = None) ∧
  (∃ fresh, (Reference.getGroups 2 (at_time 100 (db w_joined) (new_User 1))).1 = Ret fresh ∧
     is_Some (fresh !! 7) ∧ is_Some (fresh !! 5)) ∧
  (Reference.hasPermission 2 "reports.export" w_joined).1 = Ret false ∧
  (Reference.hasPermission 2 "reports.export" (at_time 100 (db w_joined) (new_User 1))).1
    = Ret true.
Proof.
  split; [by eexists|].
  split.
  { exists (default ∅ (groups (this w_joined))). split; [reflexivity|]. split; [by eexists|done]. }
  split.
  { exists (default ∅ (groups (this (Reference.getGroups 2
               (at_time 100 (db w_joined) (new_User 1))).2))).
    split; [reflexivity|]. split; by eexists. }
  split; reflexivity.
Qed.

(** ** The clock and the shape of the expansion *)

Section Clock.

Variable csvParse : string → csv_result.

Lemma present_window_shape row x : present_window row (shape x) = present_window row x.
Proof.
  unfold present_window, shape. simpl. rewrite lookup_fmap.
  by destruct (e_groups x !! r_id row).
Qed.

Lemma children_entries_shape (groups0 : gmap Z membership) ids :
  children_entries (timeless <$> groups0) ids
    = (λ l : list membership, timeless <$> l) <$> children_entries groups0 ids.
Proof.
  induction ids as [|i ids IH]; simpl; [done|].
  rewrite lookup_fmap. destruct (groups0 !! i); simpl; [|done].
  rewrite IH. by destruct (children_entries groups0 ids).
Qed.

Lemma window_of_children_timeless l :
  window_of_children (timeless <$> l) = window_of_children l.
Proof. unfold window_of_children. by rewrite <- !list_fmap_compose. Qed.

Lemma window_of_shape row x : window_of row (shape x) = window_of row x.
Proof.
  unfold window_of. rewrite present_window_shape.
  destruct (present_window row x) as [tf tt]. destruct (direct_of row); [done|].
  simpl. destruct (e_pairings x !! r_id row) as [ids|]; [|done].
  rewrite children_entries_shape.
  destruct (children_entries (e_groups x) ids); simpl; try done.
  by rewrite window_of_children_timeless.
Qed.

Lemma shape_record row x tf tt act ua ga :
  shape (record row (entry_of row x tf tt act ua ga) x)
    = record row (entry_of row (shape x) tf tt true ua ga) (shape x).
Proof. unfold shape, record. simpl. by rewrite fmap_insert. Qed.

(** Two runs of a row at different readings of the clock, from states of
    the same shape, have the same outcome and end in states of the same
    shape. *)
Lemma handleRow_shape now1 now2 row x1 x2 :
  shape x1 = shape x2 →
  (handleRow csvParse now1 row x1).1 = (handleRow csvParse now2 row x2).1 ∧
  shape (handleRow csvParse now1 row x1).2 = shape (handleRow csvParse now2 row x2).2.
Proof.
  intros Hs. rewrite !handleRow_eq.
  rewrite <- (window_of_shape row x1), <- (window_of_shape row x2), Hs.
  destruct (window_of row (shape x2)) as [[tf tt]| | |]; try done.
  destruct (csvParse (default _ (r_user_args row))); [|done].
  destruct (csvParse (default _ (r_group_args row))); [|done].
  simpl. split; [done|]. by rewrite !shape_record, Hs.
Qed.

Lemma mapM_handleRow_shape now1 now2 rows : ∀ x1 x2,
  shape x1 = shape x2 →
  (mapM (handleRow csvParse now1) rows x1).1 = (mapM (handleRow csvParse now2) rows x2).1 ∧
  shape (mapM (handleRow csvParse now1) rows x1).2
    = shape (mapM (handleRow csvParse now2) rows x2).2.
Proof.
  induction rows as [|row rows IH]; intros x1 x2 Hs; [done|].
  destruct (handleRow_shape now1 now2 row x1 x2 Hs) as [Ho Hs'].
  simpl. unfold mbind, St_bind.
  destruct (handleRow csvParse now1 row x1) as [o1 y1],
           (handleRow csvParse now2 row x2) as [o2 y2].
  simpl in Ho, Hs'. subst o2. destruct o1; try done.
  destruct (IH y1 y2 Hs') as [Ho Hs''].
  destruct (mapM (handleRow csvParse now1) rows y1) as [o1 z1],
           (mapM (handleRow csvParse now2) rows y2) as [o2 z2].
  simpl in Ho, Hs''. subst o2. by destruct o1.
Qed.

Lemma handleRows_shape d now1 now2 fuel : ∀ rows x1 x2,
  shape x1 = shape x2 →
  (handleRows csvParse fuel d now1 rows x1).1 = (handleRows csvParse fuel d now2 rows x2).1 ∧
  shape (handleRows csvParse fuel d now1 rows x1).2
    = shape (handleRows csvParse fuel d now2 rows x2).2.
Proof.
  induction fuel as [|fuel IH]; intros rows x1 x2 Hs; [done|].
  destruct (mapM_handleRow_shape now1 now2 rows x1 x2 Hs) as [Ho Hs'].
  simpl. unfold mbind, St_bind.
  destruct (mapM (handleRow csvParse now1) rows x1) as [o1 y1],
           (mapM (handleRow csvParse now2) rows x2) as [o2 y2].
  simpl in Ho, Hs'. subst o2. destruct o1 as [nextLookup| | |]; try done.
  destruct (length (concat nextLookup) <? 1)%nat; [done|]. by apply IH.
Qed.

End Clock.

(** ** Ending a membership that is not stored *)

Lemma update_users_groups_to_none d timeNow uid gid :
  (∀ ug, ug ∈ tbl_users_groups d → ¬ (ug_user_id ug = uid ∧ ug_group_id ug = gid)) →
  update_users_groups_to d timeNow uid gid = d.
Proof.
  intros H. destruct d as [gs ugs gp up]. unfold update_users_groups_to. simpl in *.
  f_equal. induction ugs as [|ug ugs IH]; [done|]. csimpl.
  rewrite bool_decide_eq_false_2 by (apply H; left).
  f_equal. apply IH. intros ug' Hug'. apply H. by right.
Qed.

(** A second expansion of the same database for the same user returns
    again, whatever the clock reads by then. *)
Lemma getGroups_again csvParse fuel w groups0 w1 wz :
  groups (this w) = None →
  getGroups csvParse fuel w = (Ret groups0, w1) →
  groups (this wz) = None → db wz = db w → user_id (this wz) = user_id (this w) →
  ∃ groups1 w2, getGroups csvParse fuel wz = (Ret groups1, w2) ∧ db w2 = db w.
Proof.
  intros Hfresh HG Hz Hdb Huid.
  rewrite (getGroups_fresh _ _ _ Hfresh) in HG. rewrite (getGroups_fresh _ _ _ Hz).
  rewrite Hdb, Huid. cbv zeta in *.
  destruct (handleRows_shape csvParse (db w) (clock w (reads w)) (clock wz (reads wz)) fuel
              (select_user_groups (db w) (user_id (this w))) no_expansion no_expansion eq_refl)
    as [Ho _].
  destruct (handleRows csvParse fuel (db w) (clock w (reads w)) _ _) as [o1 x1],
           (handleRows csvParse fuel (db w) (clock wz (reads wz)) _ _) as [o2 x2].
  simpl in *. subst o2. destruct o1; try done.
  eexists _, _. split; [reflexivity|]. simpl. done.
Qed.

(** C10: when the freshly resolved map of a user holds a group as an
    inherited entry and no stored membership links the user to that group,
    [endGroupMembership] on the group (given as the group, or as its id when
    [Group.getGroupById] finds it) returns [true] and leaves the database,
    and so every stored membership row, as it was. *)
Theorem C10_end_inherited csvParse Group_getGroupById fuel w groups0 w1 target g entry :
  groups (this w) = None →
  getGroups csvParse fuel w = (Ret groups0, w1) →
  groups0 !! id g = Some entry →
  direct (user entry) = false →
  (∀ ug, ug ∈ tbl_users_groups (db w) →
     ¬ (ug_user_id ug = user_id (this w) ∧ ug_group_id ug = id g)) →
  target = ByGroup g ∨
    (target = ById (id g) ∧ Group_getGroupById (id g) (db w) = Ret (Some g)) →
  ∃ w2,
    endGroupMembership csvParse Group_getGroupById fuel target w1 = (Ret true, w2) ∧
    db w2 = db w.
Proof.
  intros Hfresh HG Hentry _ Hrows Htarget.
  pose proof (getGroups_returns_cache _ _ _ _ _ HG) as Hcache.
  pose proof (getGroups_frame _ _ _ _ _ HG) as (Hdb & Huid & _ & _).
  unfold endGroupMembership.
  assert (resolve_group Group_getGroupById target w1 = (Ret (Some g), w1)) as R.
  { destruct Htarget as [->|[-> Hg]]; [done|].
    simpl. unfold mbind, St_bind, get_db, lift. by rewrite Hdb, Hg. }
  rewrite (bind_run _ _ _ _ _ R).
  rewrite (bind_run _ _ _ _ _ (getGroups_cached _ _ _ _ Hcache)).
  rewrite (bind_run _ _ w1 g w1 eq_refl).
  rewrite Hentry, bool_decide_eq_true_2 by eauto. change (negb true) with false. cbv iota.
  erewrite bind_run by reflexivity.
  erewrite bind_run by reflexivity.
  erewrite bind_run by reflexivity.
  erewrite bind_run by reflexivity.
  erewrite bind_run by reflexivity.
  simpl. rewrite Hdb, Huid, update_users_groups_to_none by done.
  match goal with |- ∃ w2, (getGroups _ _ ≫= _) ?wz = _ ∧ _ =>
    destruct (getGroups_again csvParse fuel w groups0 w1 wz Hfresh HG)
      as (groups1 & w2 & HG' & Hdb'); [done..|] end.
  exists w2. by rewrite (bind_run _ _ _ _ _ HG').
Qed.

Lemma C10_end_inherited_witness :
  ∃ w2,
    Reference.endGroupMembership 2 (ById 5) (Reference.getGroups 2 w_committee).2
      = (Ret true, w2) ∧
    db w2 = db_committee.
Proof.
  eapply (C10_end_inherited Reference.csv_parse Reference.getGroupById 2 w_committee
            (default ∅ (groups (this (Reference.getGroups 2 w_committee).2)))
            (Reference.getGroups 2 w_committee).2 (ById 5) Board).
  - reflexivity.
  - reflexivity.
  - reflexivity.
  - reflexivity.
  - intros ug Hug. apply list_elem_of_singleton in Hug as ->. simpl. intros [_ [=]].
  - right. split; reflexivity.
Defined.

(** The scenario of the specification: with Committee alone, Board is
    resolved as an inherited entry with Committee's window. *)
Example committee_alone :
  ∃ groups0 w1 board,
    Reference.getGroups 2 w_committee = (Ret groups0, w1) ∧
    groups0 !! 5 = Some board ∧
    from (user board) = Num 2000 ∧ to (user board) = Num 3000 ∧
    direct (user board) = false ∧ children_of (this w1) board = Some [7].
Proof.
  exists (default ∅ (groups (this (Reference.getGroups 2 w_committee).2))),
    (Reference.getGroups 2 w_committee).2.
  eexists. split; [reflexivity|]. split; [reflexivity|]. repeat split.
Qed.

(** ** Windows of groups reached through several paths *)

Lemma is_active_open timeFrom now :
  is_active (Num timeFrom) Null now = bool_decide (timeFrom ≤ now).
Proof.
  unfold is_active, gt, lt. simpl. destruct (Z.ltb_spec now timeFrom).
  - by rewrite bool_decide_eq_false_2 by lia.
  - by rewrite bool_decide_eq_true_2 by lia.
Qed.

(** The instance of the merge law: with A held over (10, 20) and C from 5
    without expiry, both children of B, the entry synthesized for B has the
    window (5, no expiry) and is active exactly from 5 on. *)
Lemma merge_instance now :
  settles (Reference.getGroups 3 (at_time now db_merge (new_User 1))).1 = true ∧
  window (resolved now db_merge) 3 = Some (Num 5, Null) ∧
  direct_in (resolved now db_merge) 3 = Some false ∧
  active_in (resolved now db_merge) 3 = Some (bool_decide (5 ≤ now)).
Proof.
  split; [reflexivity|]. split; [reflexivity|]. split; [reflexivity|].
  change (active_in (resolved now db_merge) 3) with (Some (is_active (Num 5) Null now)).
  by rewrite is_active_open.
Qed.

(** For a looked-up row the window comes from the children alone: what the
    block under [// If already present] computed from the entry already in
    the map is discarded. *)
Lemma parent_row_window g x ids children0 :
  e_pairings x !! g_id g = Some ids →
  children_entries (e_groups x) ids = Ret children0 →
  window_of (parent_row g) x = Ret (window_of_children children0).
Proof.
  intros Hp Hc. unfold window_of. destruct (present_window _ x) as [tf tt].
  simpl. by rewrite Hp, Hc.
Qed.

(** The block under [// If already present] keeps a finite end against an
    open one, whichever of the two rows comes first. *)
Lemma merge_present_open_row timeFrom t present :
  to (user present) = Num t → t ≠ 0 →
  (merge_present (Num timeFrom) Null present).2 = Num t.
Proof.
  intros H Ht. unfold merge_present. rewrite H. simpl.
  by destruct (Z.eqb_spec t 0).
Qed.

Lemma merge_present_open_entry timeFrom t present :
  to (user present) = Null →
  (merge_present (Num timeFrom) (Num t) present).2 = Num t.
Proof.
  intros H. unfold merge_present. rewrite H. simpl.
  by rewrite andb_false_r.
Qed.

(** C1 at the failing input: B is held directly from 5 without expiry and is
    also reached through its child A, held over (10, 20). The entry of B is
    the one synthesized from A alone: its window is (10, 20), not (5, no
    expiry), and at 40 the user is inactive in B. *)
Theorem C1_two_paths_window :
  tbl_users_groups db_two_paths = [stored 1 3 5 None; stored 1 1 10 (Some 20)] ∧
  settles (Reference.getGroups 3 (at_time 40 db_two_paths (new_User 1))).1 = true ∧
  window (resolved 40 db_two_paths) 3 = Some (Num 10, Num 20) ∧
  direct_in (resolved 40 db_two_paths) 3 = Some false ∧
  active_in (resolved 40 db_two_paths) 3 = Some false.
Proof. repeat split; reflexivity. Qed.

(** The block under [// If already present] on two stored rows of one group:
    a membership over (10, 20) and a later one from 30 without expiry
    resolve to the window (10, 20); the open end is lost. *)
Lemma rejoined_window :
  window (resolved 40 db_rejoined) 3 = Some (Num 10, Num 20) ∧
  active_in (resolved 40 db_rejoined) 3 = Some false.
Proof. split; reflexivity. Qed.

(** C2 at its own scenario: Board (5) held from 1000 without expiry,
    Committee (7, child of Board) over (2000, 3000), resolved at 2500.
    Committee is active with window (2000, 3000); the entry of Board is the
    one synthesized from Committee, with window (2000, 3000) and
    [direct = false], not (1000, no expiry); once Committee has expired,
    at 3500, Board is inactive. *)
Theorem C2_board_window_overwritten :
  settles (Reference.getGroups 3 (at_time 2500 db_board (new_User 1))).1 = true ∧
  window (resolved 2500 db_board) 7 = Some (Num 2000, Num 3000) ∧
  active_in (resolved 2500 db_board) 7 = Some true ∧
  window (resolved 2500 db_board) 5 = Some (Num 2000, Num 3000) ∧
  direct_in (resolved 2500 db_board) 5 = Some false ∧
  active_in (resolved 2500 db_board) 5 = Some true ∧
  active_in (resolved 3500 db_board) 5 = Some false.
Proof. repeat split; reflexivity. Qed.

(** ** The window of a synthesized entry *)

Lemma min2_nums a z : min2 (Num a) (Num z) = Num (Z.min a z).
Proof. unfold min2, lt. simpl. destruct (Z.ltb_spec z a); f_equal; lia. Qed.

Lemma max2_nums a z : max2 (Num a) (Num z) = Num (Z.max a z).
Proof. unfold max2, lt. simpl. destruct (Z.ltb_spec a z); f_equal; lia. Qed.

Lemma fold_min2_nums zs : ∀ a,
  fold_left min2 (Num <$> zs) (Num a) = Num (fold_left Z.min zs a).
Proof. induction zs as [|z zs IH]; intros a; csimpl; [done|]. by rewrite min2_nums, IH. Qed.

Lemma fold_max2_nums zs : ∀ a,
  fold_left max2 (Num <$> zs) (Num a) = Num (fold_left Z.max zs a).
Proof. induction zs as [|z zs IH]; intros a; csimpl; [done|]. by rewrite max2_nums, IH. Qed.

Lemma Math_min_nums z zs : Math_min (Num <$> (z :: zs)) = Num (fold_left Z.min zs z).
Proof. unfold Math_min. csimpl. apply fold_min2_nums. Qed.

Lemma Math_max_nums z zs : Math_max (Num <$> (z :: zs)) = Num (fold_left Z.max zs z).
Proof. unfold Math_max. csimpl. apply fold_max2_nums. Qed.

(** Once [Infinity] is reached, numbers and further infinities keep it. *)
Lemma fold_max2_infinite l :
  Forall (λ v, v = PosInfinity ∨ ∃ z, v = Num z) l →
  fold_left max2 l PosInfinity = PosInfinity.
Proof.
  induction 1 as [|v l [->|[z ->]] _ IH]; simpl; [done|..]; exact IH.
Qed.

Lemma fold_max2_reaches_infinity l : ∀ acc,
  acc = NegInfinity ∨ acc = PosInfinity ∨ (∃ z, acc = Num z) →
  PosInfinity ∈ l →
  Forall (λ v, v = PosInfinity ∨ ∃ z, v = Num z) l →
  fold_left max2 l acc = PosInfinity.
Proof.
  induction l as [|v l IH]; intros acc Hacc Hin Hall.
  { by apply elem_of_nil in Hin. }
  apply Forall_cons in Hall as [Hv Hall]. simpl.
  apply elem_of_cons in Hin as [<-|Hin].
  - replace (max2 acc PosInfinity) with PosInfinity
      by (destruct Hacc as [->|[->|[z ->]]]; done).
    by apply fold_max2_infinite.
  - apply IH; [|done..].
    destruct Hacc as [->|[->|[a ->]]], Hv as [->|[z ->]]; simpl; eauto.
    rewrite max2_nums. eauto.
Qed.

Lemma Math_max_infinite l :
  PosInfinity ∈ l →
  Forall (λ v, v = PosInfinity ∨ ∃ z, v = Num z) l →
  Math_max l = PosInfinity.
Proof. apply fold_max2_reaches_infinity. by left. Qed.

(** The earliest start of the children is the start of the entry. *)
Lemma window_of_children_from children f fs :
  (λ c, from (user c)) <$> children = Num <$> (f :: fs) →
  (window_of_children children).1 = Num (fold_left Z.min fs f).
Proof. intros H. unfold window_of_children. simpl. rewrite H. apply Math_min_nums. Qed.

(** When every child has an end (other than the falsy 0), the latest is the
    end of the entry. *)
Lemma window_of_children_to_closed children t ts :
  (λ c, to (user c)) <$> children = Num <$> (t :: ts) →
  Forall (λ t, t ≠ 0) (t :: ts) →
  (window_of_children children).2 = Num (fold_left Z.max ts t).
Proof.
  intros H Hnz. unfold window_of_children. simpl.
  assert ((λ x, if negb (truthy (to (user x))) then PosInfinity else to (user x)) <$> children
          = Num <$> (t :: ts)) as ->; [|by rewrite Math_max_nums].
  rewrite <- H. apply list_fmap_ext. intros i c Hc.
  assert (to (user c) ∈ Num <$> (t :: ts)) as Hin.
  { rewrite <- H. apply list_elem_of_fmap. exists c. split; [done|].
    by apply list_elem_of_lookup_2 in Hc. }
  apply list_elem_of_fmap in Hin as (z & -> & Hz).
  rewrite Forall_forall in Hnz. specialize (Hnz z Hz). simpl.
  by destruct (Z.eqb_spec z 0).
Qed.

(** When some child has no end (or the falsy end 0), the entry has none. *)
Lemma window_of_children_to_open children c :
  c ∈ children → truthy (to (user c)) = false →
  Forall (λ c, to (user c) = Null ∨ ∃ t, to (user c) = Num t) children →
  (window_of_children children).2 = Null.
Proof.
  intros Hc Hopen Hall. unfold window_of_children. simpl.
  rewrite Math_max_infinite; [done| |].
  - apply list_elem_of_fmap. exists c. by rewrite Hopen.
  - apply Forall_fmap. eapply Forall_impl; [exact Hall|]. simpl.
    intros c' [->|[t ->]]; simpl; [by left|].
    destruct (t =? 0); simpl; eauto.
Qed.

(** ** The order of the stored memberships *)

(** The failing inputs of C1 and C2 resolve to the same windows when the
    join returns the two memberships in the other order. *)
Lemma two_paths_either_order :
  window (resolved 40 (reordered db_two_paths)) 3 = Some (Num 10, Num 20) ∧
  direct_in (resolved 40 (reordered db_two_paths)) 3 = Some false.
Proof. split; reflexivity. Qed.

Lemma board_either_order :
  window (resolved 2500 (reordered db_board)) 5 = Some (Num 2000, Num 3000) ∧
  direct_in (resolved 2500 (reordered db_board)) 5 = Some false ∧
  window (resolved 2500 (reordered db_board)) 7 = Some (Num 2000, Num 3000).
Proof. repeat split; reflexivity. Qed.

Lemma rejoined_either_order :
  window (resolved 40 (reordered db_rejoined)) 3 = Some (Num 10, Num 20).
Proof. reflexivity. Qed.

(** * Further properties of the permission tree *)

Lemma structurize_cons bit b rest T :
  structurize (bit :: b :: rest) T =
    match T with
    | PObj props =>
        match props !! bit with
        | Some child =>
            child' ← structurize (b :: rest) child;
            Ret (PObj (<[bit := child']> props))
        | None =>
            if inherited bit then Unmodelled
            else
              child' ← structurize (b :: rest) (PObj ∅);
              Ret (PObj (<[bit := child']> props))
        end
    | PTrue => Throw TypeError
    | PProto _ => Unmodelled
    end.
Proof. reflexivity. Qed.

Lemma outcome_bind_inv {A B} (o : outcome A) (f : A → outcome B) b :
  o ≫= f = Ret b → ∃ a, o = Ret a ∧ f a = Ret b.
Proof. destruct o; try done. intros H. by eexists. Qed.

(** X1: right after a permission string has been inserted, checking the
    string, or any dotted prefix of it, answers true. *)
Theorem structurize_then_walk bits : ∀ T T' pre,
  structurize bits T = Ret T' →
  pre `prefix_of` bits → pre ≠ [] →
  walk pre T' = Ret true.
Proof.
  induction bits as [|bit [|b rest] IH]; intros T T' pre HS [tl Hpre] Hne.
  - by destruct pre.
  - destruct pre as [|p [|p' pre]]; [done| |by destruct pre].
    injection Hpre as <- _. simpl in HS. destruct T as [|props|]; try done.
    case_bool_decide as Hb.
    + injection HS as <-. simpl. destruct (props !! bit); [done|]. by rewrite Hb.
    + injection HS as <-. simpl. by rewrite lookup_insert_eq.
  - destruct pre as [|p pre]; [done|]. injection Hpre as <- Hpre.
    rewrite structurize_cons in HS. destruct T as [|props|]; try done.
    assert (∃ child child', structurize (b :: rest) child = Ret child' ∧
              T' = PObj (<[bit := child']> props)) as (child & child' & HS' & ->).
    { destruct (props !! bit) as [child|].
      - apply outcome_bind_inv in HS as (child' & HS' & [= <-]). by eexists _, _.
      - destruct (inherited bit); [done|].
        apply outcome_bind_inv in HS as (child' & HS' & [= <-]). by eexists _, _. }
    simpl. rewrite lookup_insert_eq. destruct pre as [|p' pre]; [done|].
    apply (IH child child'); [done| |done]. by exists tl.
Qed.

Lemma structurize_then_walk_witness :
  walk ["reports"; "export"]%string
    (PObj {[ "reports"%string := PObj {[ "export"%string :=
       PObj {[ "csv"%string := PTrue ]} ]} ]}) = Ret true.
Proof.
  apply (structurize_then_walk ["reports"; "export"; "csv"]%string (PObj ∅) _
           ["reports"; "export"]%string); [reflexivity|by exists ["csv"%string]|done].
Defined.

Lemma structurize_PTrue b rest : structurize (b :: rest) PTrue = Throw TypeError.
Proof. by destruct rest. Qed.

(** X2: after a permission string has been inserted as a leaf, checking or
    inserting any longer string that extends it throws a [TypeError]. *)
Theorem extension_throws bits : ∀ T T' b rest,
  structurize bits T = Ret T' →
  bits ≠ [] → last bits ≠ Some "__proto__"%string →
  walk (bits ++ b :: rest) T' = Throw TypeError ∧
  structurize (bits ++ b :: rest) T' = Throw TypeError.
Proof.
  induction bits as [|bit [|b0 rest0] IH]; intros T T' b rest HS Hne Hlast; [done|..].
  - simpl in HS. destruct T as [|props|]; try done.
    rewrite bool_decide_eq_false_2 in HS by (intros ->; by apply Hlast).
    injection HS as <-. split.
    + simpl. by rewrite lookup_insert_eq.
    + change ([bit] ++ b :: rest) with (bit :: b :: rest).
      rewrite structurize_cons, lookup_insert_eq. by rewrite structurize_PTrue.
  - rewrite structurize_cons in HS. destruct T as [|props|]; try done.
    assert (∃ child child', structurize (b0 :: rest0) child = Ret child' ∧
              T' = PObj (<[bit := child']> props)) as (child & child' & HS' & ->).
    { destruct (props !! bit) as [child|].
      - apply outcome_bind_inv in HS as (child' & HS' & [= <-]). by eexists _, _.
      - destruct (inherited bit); [done|].
        apply outcome_bind_inv in HS as (child' & HS' & [= <-]). by eexists _, _. }
    destruct (IH child child' b rest HS') as [Hw Hs]; [done|done|].
    split.
    + simpl. rewrite lookup_insert_eq. exact Hw.
    + change ((bit :: b0 :: rest0) ++ b :: rest)
        with (bit :: b0 :: (rest0 ++ b :: rest)).
      rewrite structurize_cons, lookup_insert_eq.
      change (b0 :: rest0 ++ b :: rest) with ((b0 :: rest0) ++ b :: rest).
      by rewrite Hs.
Qed.

Lemma extension_throws_witness :
  walk ["reports"; "export"; "csv"]%string tree_export = Throw TypeError ∧
  structurize ["reports"; "export"; "csv"]%string tree_export = Throw TypeError.
Proof.
  apply (extension_throws ["reports"; "export"]%string (PObj ∅) tree_export
           "csv"%string []); [reflexivity|done|done].
Defined.

(** One step of the insertion below the root of an object. *)
Lemma structurize_step bit rest T T' :
  rest ≠ [] →
  structurize (bit :: rest) T = Ret T' →
  ∃ props child child',
    T = PObj props ∧
    (props !! bit = Some child ∨
     (props !! bit = None ∧ inherited bit = false ∧ child = PObj ∅)) ∧
    structurize rest child = Ret child' ∧
    T' = PObj (<[bit := child']> props).
Proof.
  destruct rest as [|b rest]; [done|]. intros _ HS.
  rewrite structurize_cons in HS. destruct T as [|props|]; try done.
  destruct (props !! bit) as [child|] eqn:E.
  - apply outcome_bind_inv in HS as (child' & HS' & [= <-]).
    exists props, child, child'. eauto.
  - destruct (inherited bit) eqn:Hi; [done|].
    apply outcome_bind_inv in HS as (child' & HS' & [= <-]).
    exists props, (PObj ∅), child'. split; [done|]. split; [right|]; eauto.
Qed.

Lemma walk_PProto b rest k : walk (b :: rest) (PProto k) = Unmodelled.
Proof. reflexivity. Qed.

(** X3: once [p.*] has been inserted, every check of a path under [p] whose
    next segment was not a property there answers true, however long the
    path. *)
Theorem wildcard_grants bits : ∀ T T' x rest,
  structurize (bits ++ ["*"%string]) T = Ret T' →
  x ≠ "*"%string → inherited x = false →
  walk (bits ++ [x]) T = Ret false →
  walk (bits ++ x :: rest) T' = Ret true.
Proof.
  induction bits as [|bit bits IH]; intros T T' x rest HS Hx Hi Hw.
  - simpl in HS. destruct T as [|props|]; try done. injection HS as <-.
    simpl in *. rewrite lookup_insert_ne by done.
    destruct (props !! x); [done|]. rewrite Hi in *.
    by rewrite lookup_insert_eq.
  - change ((bit :: bits) ++ ["*"%string]) with (bit :: (bits ++ ["*"%string])) in HS.
    apply structurize_step in HS as (props & child & child' & -> & Hc & HS & ->);
      [|by destruct bits].
    simpl in *. rewrite lookup_insert_eq.
    destruct Hc as [Hc|(Hc & Hb & ->)]; rewrite Hc in Hw.
    + by apply (IH child).
    + rewrite Hb in Hw. apply (IH (PObj ∅)); [done..|].
      destruct bits as [|b bits]; simpl.
      * by rewrite lookup_empty, Hi.
      * rewrite lookup_empty.
        change ((b :: bits) ++ ["*"%string]) with (b :: (bits ++ ["*"%string])) in HS.
        apply structurize_step in HS as (props' & c & c' & [= <-] & Hc' & _);
          [|by destruct bits].
        destruct Hc' as [Hc'|(_ & -> & _)]; [by rewrite lookup_empty in Hc'|done].
Qed.

Lemma wildcard_grants_witness :
  walk ["reports"; "export"; "csv"]%string tree_wildcard = Ret true.
Proof.
  apply (wildcard_grants ["reports"%string] (PObj ∅) tree_wildcard "export"%string
           ["csv"%string]); [reflexivity|done|reflexivity|reflexivity].
Defined.

(** X4: the insertion of [p.*] changes no answer for the paths under [p]
    whose next segment already was a property there: what is denied below
    such a sibling stays denied. *)
Theorem wildcard_spares_siblings bits : ∀ T T' x rest,
  structurize (bits ++ ["*"%string]) T = Ret T' →
  x ≠ "*"%string →
  reaches (bits ++ [x]) T →
  walk (bits ++ x :: rest) T' = walk (bits ++ x :: rest) T.
Proof.
  induction bits as [|bit bits IH]; intros T T' x rest HS Hx Hr.
  - simpl in HS. destruct T as [|props|]; try done. injection HS as <-.
    simpl in *. rewrite lookup_insert_ne by congruence.
    by destruct (props !! x).
  - change ((bit :: bits) ++ ["*"%string]) with (bit :: (bits ++ ["*"%string])) in HS.
    apply structurize_step in HS as (props & child & child' & -> & Hc & HS & ->);
      [|by destruct bits].
    simpl in *. rewrite lookup_insert_eq.
    destruct Hc as [Hc|(Hc & _)]; rewrite Hc in *; [|done].
    by apply IH.
Qed.

Lemma wildcard_spares_siblings_witness :
  walk ["reports"; "export"; "pdf"]%string
    (PObj {[ "reports"%string :=
       PObj (<[ "*"%string := PTrue ]> {[ "export"%string :=
         PObj {[ "csv"%string := PTrue ]} ]}) ]}) = Ret false.
Proof.
  etrans.
  - apply (wildcard_spares_siblings ["reports"%string]
             (PObj {[ "reports"%string := PObj {[ "export"%string :=
                PObj {[ "csv"%string := PTrue ]} ]} ]}));
      [reflexivity|done|exact I].
  - reflexivity.
Defined.

(** ** Every answer has a grant behind it *)

Lemma reaches_PObj_empty bits : bits ≠ [] → ¬ reaches bits (PObj ∅).
Proof. destruct bits as [|b bits]; [done|]. simpl. rewrite lookup_empty. tauto. Qed.

(** A path of the tree after an insertion was a path before it, or is the
    beginning of the inserted string. *)
Lemma structurize_reaches new : ∀ T T' bits,
  structurize new T = Ret T' →
  bits ≠ [] → reaches bits T' →
  reaches bits T ∨ bits `prefix_of` new.
Proof.
  induction new as [|bit [|b0 rest0] IH]; intros T T' bits HS Hne Hr.
  - injection HS as <-. by left.
  - simpl in HS. destruct T as [|props|]; try done.
    case_bool_decide; injection HS as <-; [by left|].
    destruct bits as [|k bits]; [done|]. simpl in Hr.
    destruct (decide (k = bit)) as [->|Hk].
    + rewrite lookup_insert_eq in Hr. destruct bits; [|done].
      right. by exists [].
    + rewrite lookup_insert_ne in Hr by done. by left.
  - apply structurize_step in HS as (props & child & child' & -> & Hc & HS & ->); [|done].
    destruct bits as [|k bits]; [done|]. simpl in Hr.
    destruct (decide (k = bit)) as [->|Hk].
    2: { rewrite lookup_insert_ne in Hr by done. by left. }
    rewrite lookup_insert_eq in Hr.
    destruct bits as [|k' bits].
    { right. by exists (b0 :: rest0). }
    destruct (IH child child' (k' :: bits) HS) as [Hold|[tl Hpre]]; [done|done|..].
    + destruct Hc as [Hc|(_ & _ & ->)].
      * left. simpl. by rewrite Hc.
      * by apply reaches_PObj_empty in Hold.
    + right. exists tl. simpl. by rewrite Hpre.
Qed.

Lemma justified_structurize G new T T' :
  justified G T → structurize new T = Ret T' → justified (G ++ [new]) T'.
Proof.
  intros HJ HS bits Hne Hr.
  destruct (structurize_reaches new T T' bits HS Hne Hr) as [Hold|Hpre].
  - destruct (HJ bits Hne Hold) as (g & Hg & Hp). exists g. split; [|done].
    apply elem_of_app. by left.
  - exists new. split; [|done]. apply elem_of_app. right. by left.
Qed.

Lemma mapM_structurize_justified raw : ∀ G w T o w',
  permissions (this w) = Some T → justified G T →
  mapM structurize_permission raw w = (o, w') →
  ∃ T', permissions (this w') = Some T' ∧ justified (G ++ (split_dot <$> raw)) T'.
Proof.
  induction raw as [|perm raw IH]; intros G w T o w' HT HJ HM.
  { injection HM as <- <-. exists T. split; [done|]. csimpl. by rewrite (app_nil_r G). }
  simpl in HM. unfold mbind, mret, St_bind, St_ret in HM.
  destruct (structurize (split_dot perm) T) as [T1| | |] eqn:HS.
  - rewrite (structurize_permission_run perm T T1 w HT HS) in HM.
    destruct (mapM structurize_permission raw (cached_tree T1 w)) as [o1 w1] eqn:HM1.
    destruct (IH (G ++ [split_dot perm]) (cached_tree T1 w) T1 o1 w1) as (T' & HT' & HJ');
      [done|by apply (justified_structurize G _ T)|done|].
    exists T'. rewrite <- app_assoc in HJ'. csimpl.
    destruct o1; simpl in HM; injection HM as <- <-; done.
  - exists T. assert (structurize_permission perm w = (Throw e, w)) as E.
    { unfold structurize_permission. run. by rewrite HT, HS. }
    rewrite E in HM. injection HM as <- <-. split; [done|].
    intros bits Hne Hr. destruct (HJ bits Hne Hr) as (g & Hg & Hp).
    exists g. split; [|done]. apply elem_of_app. by left.
  - exists T. assert (structurize_permission perm w = (Unmodelled, w)) as E.
    { unfold structurize_permission. run. by rewrite HT, HS. }
    rewrite E in HM. injection HM as <- <-. split; [done|].
    intros bits Hne Hr. destruct (HJ bits Hne Hr) as (g & Hg & Hp).
    exists g. split; [|done]. apply elem_of_app. by left.
  - exists T. assert (structurize_permission perm w = (Diverge, w)) as E.
    { unfold structurize_permission. run. by rewrite HT, HS. }
    rewrite E in HM. injection HM as <- <-. split; [done|].
    intros bits Hne Hr. destruct (HJ bits Hne Hr) as (g & Hg & Hp).
    exists g. split; [|done]. apply elem_of_app. by left.
Qed.




(** * The middleware [requirePermissions] *)

Lemma sent_home_0 r : sent_home 0 r = r.
Proof. destruct r. unfold sent_home. simpl. by rewrite app_nil_r. Qed.

Lemma on_user_hasPermission_cached csvParse fuel perm r u T :
  req_user r = Some u → permissions u = Some T →
  on_user (hasPermission csvParse fuel perm) r = (walk (split_dot perm) T, r).
Proof.
  intros Hu HT. unfold on_user. rewrite Hu.
  rewrite (hasPermission_cached csvParse fuel _ T) by done.
  destruct r. simpl in *. by rewrite Hu.
Qed.

(** X6: for a logged-in user with a cached permission tree in which every
    listed check returns, [requirePermissions] returns true exactly when
    every listed permission is answered true, and sends nothing then;
    otherwise it returns false after one redirect to [/]. *)
Theorem requirePermissions_decides csvParse fuel perms : ∀ r u T,
  req_user r = Some u → permissions u = Some T →
  Forall (λ perm, ∃ b, walk (split_dot perm) T = Ret b) perms →
  requirePermissions csvParse fuel perms r =
    (Ret (forallb (answers_true T) perms),
     sent_home (if forallb (answers_true T) perms then 0 else 1) r).
Proof.
  induction perms as [|perm perms IH]; intros r u T Hu HT Hall.
  { simpl. by rewrite sent_home_0. }
  apply Forall_cons in Hall as [[b Hb] Hall]. simpl.
  rewrite (bind_run _ _ r b r)
    by (rewrite (on_user_hasPermission_cached _ _ _ r u T) by done; by rewrite Hb).
  unfold answers_true at 1 3. rewrite Hb. destruct b; simpl.
  - by apply (IH r u T).
  - reflexivity.
Qed.

Lemma requirePermissions_decides_witness :
  requirePermissions Reference.csv_parse 1 ["reports.export"; "other.export"]%string
    (request_of (Some (this (cached_tree tree_wildcard (w_individual "reports.*"))))
       (db_individual "reports.*"))
  = (Ret false,
     sent_home 1 (request_of (Some (this (cached_tree tree_wildcard
                                            (w_individual "reports.*"))))
                    (db_individual "reports.*"))).
Proof.
  apply (requirePermissions_decides Reference.csv_parse 1
           ["reports.export"; "other.export"]%string
           (request_of (Some (this (cached_tree tree_wildcard (w_individual "reports.*"))))
              (db_individual "reports.*"))
           (this (cached_tree tree_wildcard (w_individual "reports.*")))
           tree_wildcard);
    [reflexivity|reflexivity|].
  repeat constructor; by eexists.
Defined.

(** X7: when nobody is logged in, [requirePermissions] with at least one
    permission throws a [TypeError] and sends no redirect; with no
    permission at all it returns true. *)
Theorem requirePermissions_anonymous csvParse fuel perms r :
  req_user r = None →
  requirePermissions csvParse fuel perms r =
    (match perms with [] => Ret true | _ => Throw TypeError end, r).
Proof.
  intros Hu. destruct perms as [|perm perms]; [done|].
  simpl. unfold mbind, St_bind, on_user. by rewrite Hu.
Qed.

Lemma requirePermissions_anonymous_witness :
  requirePermissions Reference.csv_parse 1 ["resource.view"%string]
    (request_of None db_grant)
  = (Throw TypeError, request_of None db_grant).
Proof.
  apply (requirePermissions_anonymous Reference.csv_parse 1 ["resource.view"%string]
           (request_of None db_grant)).
  reflexivity.
Defined.

(** X8: whatever the user's caches, [requirePermissions] that returns has
    sent no redirect when it returns true and exactly one, to [/] with status
    303, when it returns false. *)
Theorem requirePermissions_redirects csvParse fuel perms : ∀ r b r',
  requirePermissions csvParse fuel perms r = (Ret b, r') →
  redirects r' = redirects r ++ (if b then [] else [(303, "/"%string)]).
Proof.
  induction perms as [|perm perms IH]; intros r b r' H.
  { injection H as <- <-. by rewrite app_nil_r. }
  simpl in H. apply bind_inv in H as (held & r1 & Hh & H).
  assert (redirects r1 = redirects r) as Hr.
  { unfold on_user in Hh. destruct (req_user r); [|done].
    destruct (hasPermission _ _ _ _) as [o w]. by injection Hh as _ <-. }
  destruct held; simpl in H.
  - rewrite <- Hr. by apply IH.
  - unfold mbind, St_bind, redirect in H. simpl in H. injection H as <- <-.
    simpl. by rewrite Hr.
Qed.

Lemma requirePermissions_redirects_witness :
  redirects (requirePermissions Reference.csv_parse 1 ["reports.export"%string]
               (request_of (Some (new_User 1)) db_grant)).2
  = [] ++ [(303, "/"%string)].
Proof.
  apply (requirePermissions_redirects Reference.csv_parse 1 ["reports.export"%string]
           (request_of (Some (new_User 1)) db_grant) false).
  reflexivity.
Defined.

(** * Further properties of the expansion *)

Section Resolution.

Variable csvParse : string → csv_result.

Lemma handleRow_Ret now row x l x' :
  handleRow csvParse now row x = (Ret l, x') →
  ∃ tf tt ua ga,
    window_of row x = Ret (tf, tt) ∧ l = pushed row ∧
    x' = record row (entry_of row x tf tt (is_active tf tt now) ua ga) x.
Proof.
  rewrite handleRow_eq. destruct (window_of row x) as [[tf tt]| | |]; try done.
  destruct (csvParse (default _ (r_user_args row))); [|done].
  destruct (csvParse (default _ (r_group_args row))); [|done].
  intros [= <- <-]. by eexists _, _, _, _.
Qed.

Lemma handleRow_failure now row x o x' :
  handleRow csvParse now row x = (o, x') → (∀ l, o ≠ Ret l) → x' = x.
Proof.
  destruct (handleRow_outcome csvParse now row x) as [[y E]|[e E]]; rewrite E.
  - intros [= <- <-] H. by destruct (H (pushed row)).
  - by intros [= <- <-].
Qed.

(** What every recorded row keeps, the whole expansion keeps. *)
Lemma mapM_handleRow_preserves (I : expansion → Prop) (R : row → Prop) now :
  (∀ row x tf tt ua ga, R row → I x → window_of row x = Ret (tf, tt) →
     I (record row (entry_of row x tf tt (is_active tf tt now) ua ga) x)) →
  ∀ rows x o x', Forall R rows → I x →
    mapM (handleRow csvParse now) rows x = (o, x') → I x'.
Proof.
  intros Hstep. induction rows as [|row rows IH]; intros x o x' HR HI HM.
  { by injection HM as <- <-. }
  apply Forall_cons in HR as [Hrow HR]. simpl in HM.
  unfold mbind, mret, St_bind, St_ret in HM.
  destruct (handleRow csvParse now row x) as [o1 x1] eqn:E1.
  destruct o1 as [l| | |].
  - apply handleRow_Ret in E1 as (tf & tt & ua & ga & HW & -> & ->).
    destruct (mapM _ rows _) as [o2 x2] eqn:E2.
    assert (I x2) as H2 by (eapply IH; [done| |exact E2]; by apply Hstep).
    destruct o2; by injection HM as <- <-.
  - apply handleRow_failure in E1 as ->; [|done]. by injection HM as <- <-.
  - apply handleRow_failure in E1 as ->; [|done]. by injection HM as <- <-.
  - apply handleRow_failure in E1 as ->; [|done]. by injection HM as <- <-.
Qed.

Lemma handleRows_preserves (I : expansion → Prop) (R : row → Prop) d now :
  (∀ row x tf tt ua ga, R row → I x → window_of row x = Ret (tf, tt) →
     I (record row (entry_of row x tf tt (is_active tf tt now) ua ga) x)) →
  (∀ g, g ∈ tbl_groups d → R (parent_row g)) →
  ∀ fuel rows x o x', Forall R rows → I x →
    handleRows csvParse fuel d now rows x = (o, x') → I x'.
Proof.
  intros Hstep Htable. induction fuel as [|fuel IH]; intros rows x o x' HR HI HH.
  { by injection HH as <- <-. }
  simpl in HH. unfold mbind, mret, St_bind, St_ret in HH.
  destruct (mapM _ rows x) as [o1 x1] eqn:E1.
  assert (I x1) as H1 by (by eapply (mapM_handleRow_preserves I R now Hstep rows x)).
  destruct o1 as [l| | |]; try (by injection HH as <- <-).
  destruct (length (concat l) <? 1)%nat; [by injection HH as <- <-|].
  eapply IH; [|exact H1|exact HH].
  apply Forall_forall. intros r Hr. unfold select_groups_in in Hr.
  apply list_elem_of_fmap in Hr as (g & -> & Hg).
  apply list_elem_of_filter in Hg as [_ Hg]. by apply Htable.
Qed.

(** The map and the arrays a fresh [getGroups] leaves are those of the
    closure, and keep what every recorded row keeps. *)
Lemma getGroups_preserves (I : expansion → Prop) (R : row → Prop) fuel w o w' :
  groups (this w) = None →
  (∀ row x tf tt ua ga, R row → I x → window_of row x = Ret (tf, tt) →
     I (record row (entry_of row x tf tt
                      (is_active tf tt (clock w (reads w))) ua ga) x)) →
  (∀ g, g ∈ tbl_groups (db w) → R (parent_row g)) →
  (∀ r, r ∈ select_user_groups (db w) (user_id (this w)) → R r) →
  I no_expansion →
  getGroups csvParse fuel w = (o, w') →
  ∃ x, groups (this w') = Some (e_groups x) ∧ pairings (this w') = e_pairings x ∧ I x ∧
       (∀ groups0, o = Ret groups0 → groups0 = e_groups x).
Proof.
  intros Hfresh Hstep Htable Hrows H0. rewrite getGroups_fresh by done. cbv zeta.
  destruct (handleRows _ _ _ _ _ _) as [o1 x] eqn:E. simpl. intros [= <- <-].
  exists x. split; [done|]. split; [done|]. split.
  - eapply (handleRows_preserves I R _ _ Hstep Htable); [|exact H0|exact E].
    by apply Forall_forall.
  - intros groups0. destruct o1; simpl; congruence.
Qed.

End Resolution.

Section Entries.

Variable csvParse : string → csv_result.

Lemma elem_of_select_user_groups d uid r :
  r ∈ select_user_groups d uid ↔
  ∃ ug g, ug ∈ tbl_users_groups d ∧ ug_user_id ug = uid ∧
          g ∈ tbl_groups d ∧ g_id g = ug_group_id ug ∧ r = joined_row ug g.
Proof.
  unfold select_user_groups. split.
  - intros H. apply list_elem_of_bind in H as (ug & H & Hug).
    apply list_elem_of_bind in H as (g & H & Hg).
    apply list_elem_of_singleton in H as ->.
    apply list_elem_of_filter in Hug as [? ?].
    apply list_elem_of_filter in Hg as [? ?]. by exists ug, g.
  - intros (ug & g & Hug & Hu & Hg & Hi & ->).
    apply list_elem_of_bind. exists ug. split; [|by apply list_elem_of_filter].
    apply list_elem_of_bind. exists g. split; [|by apply list_elem_of_filter].
    by apply list_elem_of_singleton.
Qed.

Lemma joined_row_of_group ug g : row_of_group g (joined_row ug g).
Proof. by repeat split. Qed.

Lemma parent_row_of_group g : row_of_group g (parent_row g).
Proof. by repeat split. Qed.

Lemma record_entries_of_table d now row x tf tt ua ga :
  (∃ g, g ∈ tbl_groups d ∧ row_of_group g row) →
  entries_of_table d now x →
  entries_of_table d now (record row (entry_of row x tf tt (is_active tf tt now) ua ga) x).
Proof.
  intros (g & Hg & Hrow) Hx k e. unfold record. simpl.
  destruct (decide (k = r_id row)) as [->|Hne].
  - rewrite lookup_insert_eq. intros [= <-]. split; [done|]. split; [done|].
    destruct Hrow as (? & ? & ? & ? & ? & ? & ?).
    exists g. split; [done|]. split; [done|].
    unfold describes. simpl. repeat split; congruence.
  - rewrite lookup_insert_ne by done. apply Hx.
Qed.

Lemma record_pairings_of_table d row entry x :
  (∃ g, g ∈ tbl_groups d ∧ row_of_group g row) →
  pairings_of_table d x → pairings_of_table d (record row entry x).
Proof.
  intros (g & Hg & Hrow) Hx p ids i. unfold record. simpl.
  destruct (truthy_id (r_parent row)) eqn:Hp; [|apply Hx].
  destruct (decide (default 0 (r_parent row) = p)) as [<-|Hne].
  - rewrite lookup_insert_eq. intros [= <-] Hi.
    apply elem_of_app in Hi as [Hi|Hi].
    + destruct (e_pairings x !! default 0 (r_parent row)) as [ids|] eqn:E; simpl in Hi.
      * by apply (Hx _ ids).
      * by apply elem_of_nil in Hi.
    + apply list_elem_of_singleton in Hi as ->.
      destruct Hrow as (Hid & _ & _ & _ & Hpar & _).
      exists g. split; [done|]. split; [done|]. rewrite <- Hpar.
      by destruct (r_parent row).
  - rewrite lookup_insert_ne by done. apply Hx.
Qed.

(** *** Windows *)

Lemma fold_min2_number l : ∀ a,
  Forall is_number l → is_number a → is_number (fold_left min2 l a).
Proof.
  induction l as [|v l IH]; intros a Hl Ha; [done|].
  apply Forall_cons in Hl as [[z ->] Hl]. destruct Ha as [y ->].
  simpl. apply IH; [done|]. rewrite min2_nums. by eexists.
Qed.

Lemma Math_min_number l : l ≠ [] → Forall is_number l → is_number (Math_min l).
Proof.
  destruct l as [|v l]; [done|]. intros _ Hl.
  apply Forall_cons in Hl as [[z ->] Hl]. unfold Math_min. simpl.
  apply fold_min2_number; [done|]. by exists z.
Qed.

Lemma fold_max2_end l : ∀ a,
  Forall (λ v, v = PosInfinity ∨ is_number v) l →
  a = PosInfinity ∨ is_number a →
  fold_left max2 l a = PosInfinity ∨ is_number (fold_left max2 l a).
Proof.
  induction l as [|v l IH]; intros a Hl Ha; [done|].
  apply Forall_cons in Hl as [Hv Hl]. simpl. apply IH; [done|].
  destruct Hv as [->|[z ->]], Ha as [->|[y ->]]; try (by left).
  right. rewrite max2_nums. by eexists.
Qed.

Lemma Math_max_end l :
  l ≠ [] → Forall (λ v, v = PosInfinity ∨ is_number v) l →
  Math_max l = PosInfinity ∨ is_number (Math_max l).
Proof.
  destruct l as [|v l]; [done|]. intros _ Hl.
  apply Forall_cons in Hl as [Hv Hl]. unfold Math_max. simpl.
  apply fold_max2_end; [done|].
  destruct Hv as [->|[z ->]]; [by left|right; by exists z].
Qed.

Lemma children_entries_Ret groups0 ids : ∀ l,
  children_entries groups0 ids = Ret l →
  (ids ≠ [] → l ≠ []) ∧ ∀ c, c ∈ l → ∃ i, i ∈ ids ∧ groups0 !! i = Some c.
Proof.
  induction ids as [|i ids IH]; intros l; simpl.
  { intros [= <-]. split; [done|]. intros c Hc. by apply elem_of_nil in Hc. }
  destruct (groups0 !! i) as [child|] eqn:E; [|done].
  destruct (children_entries groups0 ids) as [l'| | |]; try done.
  simpl. intros [= <-]. destruct (IH l' eq_refl) as [_ H]. split; [done|].
  intros c Hc. apply elem_of_cons in Hc as [->|Hc].
  - exists i. split; [by left|done].
  - destruct (H c Hc) as (j & Hj & Hc'). exists j. split; [by right|done].
Qed.

Lemma merge_present_formed tf tt e :
  is_number tf → is_end tt → is_number (from (user e)) → is_end (to (user e)) →
  is_number (merge_present tf tt e).1 ∧ is_end (merge_present tf tt e).2.
Proof.
  intros Hf Ht Hf' Ht'. unfold merge_present. simpl. split.
  - apply Math_min_number; [done|]. by repeat constructor.
  - destruct Ht as [->|[t ->]], Ht' as [->|[t' ->]]; simpl;
      try (by left); try (right; by eexists).
    + destruct (negb (t' =? 0)); [right; by eexists|by left].
    + destruct (negb (t =? 0)); simpl; [|right; by eexists].
      right. by eexists.
    + destruct (negb (t =? 0)), (negb (t' =? 0)); simpl; try (right; by eexists).
      right. exists (Z.max t t'). unfold Math_max. simpl.
      change (max2 NegInfinity (Num t)) with (Num t). apply max2_nums.
Qed.

Lemma window_of_children_formed l :
  l ≠ [] →
  (∀ c, c ∈ l → is_number (from (user c)) ∧ is_end (to (user c))) →
  is_number (window_of_children l).1 ∧ is_end (window_of_children l).2.
Proof.
  intros Hne Hl. unfold window_of_children. simpl. split.
  - apply Math_min_number; [by destruct l|].
    apply Forall_fmap, Forall_forall. intros c Hc. by apply Hl.
  - destruct (Math_max_end ((λ x, if negb (truthy (to (user x))) then PosInfinity
                                  else to (user x)) <$> l)) as [->|[z ->]].
    + by destruct l.
    + apply Forall_fmap, Forall_forall. intros c Hc. simpl.
      destruct (Hl c Hc) as [_ [->|[t ->]]]; simpl; [by left|].
      destruct (negb (t =? 0)); simpl; [right; by eexists|by left].
    + by left.
    + right. by eexists.
Qed.

Lemma window_of_formed row x tf tt :
  stored_window row → windows_formed x →
  window_of row x = Ret (tf, tt) → is_number tf ∧ is_end tt.
Proof.
  intros Hrow (Hres & Hne & Hx). unfold window_of.
  destruct (present_window row x) as [pf pt] eqn:EP.
  destruct (direct_of row) eqn:Hd.
  - intros [= <- <-]. destruct (Hrow Hd) as [Hf Ht].
    unfold present_window in EP.
    destruct (e_groups x !! r_id row) as [e|] eqn:E.
    + destruct (Hx _ _ E) as [Hf' Ht'].
      destruct (merge_present_formed (r_from row) (r_to row) e Hf Ht Hf' Ht') as [H1 H2].
      rewrite EP in H1, H2. done.
    + by injection EP as <- <-.
  - destruct (e_pairings x !! r_id row) as [ids|] eqn:E; [|done].
    destruct (children_entries (e_groups x) ids) as [l| | |] eqn:EC; try done.
    simpl. intros HW. destruct (children_entries_Ret _ _ _ EC) as [Hl Hin].
    destruct (window_of_children_formed l) as [H1 H2].
    + apply Hl. by apply (Hne (r_id row)).
    + intros c Hc. destruct (Hin c Hc) as (i & _ & Hi). by apply (Hx i).
    + injection HW as <- <-. done.
Qed.

Lemma record_windows_formed now row x tf tt ua ga :
  stored_window row → windows_formed x → window_of row x = Ret (tf, tt) →
  windows_formed (record row (entry_of row x tf tt (is_active tf tt now) ua ga) x).
Proof.
  intros Hrow Hx HW. pose proof (window_of_formed row x tf tt Hrow Hx HW) as Hwin.
  destruct Hx as (Hres & Hne & Hx). split; [by apply record_resolved|]. split.
  - intros k ids. unfold record. simpl.
    destruct (truthy_id (r_parent row)); [|apply Hne].
    destruct (decide (default 0 (r_parent row) = k)) as [<-|Hk].
    + rewrite lookup_insert_eq. intros [= <-]. intros H.
      by apply app_eq_nil in H as [_ H].
    + rewrite lookup_insert_ne by done. apply Hne.
  - intros k e. unfold record. simpl.
    destruct (decide (k = r_id row)) as [->|Hk].
    + rewrite lookup_insert_eq. by intros [= <-].
    + rewrite lookup_insert_ne by done. apply Hx.
Qed.

Lemma record_inherited_have_children row x tf tt act ua ga :
  inherited_have_children x → window_of row x = Ret (tf, tt) →
  inherited_have_children (record row (entry_of row x tf tt act ua ga) x).
Proof.
  intros Hx HW k e Hk Hd.
  assert (children (user e) = Some k ∧
          (is_Some (e_pairings x !! k) ∨ k = r_id row ∧ direct_of row = false)) as [Hc Hp].
  { unfold record in Hk. simpl in Hk.
    destruct (decide (k = r_id row)) as [->|Hne].
    - rewrite lookup_insert_eq in Hk. injection Hk as <-. simpl in *.
      unfold window_of in HW. destruct (present_window row x).
      rewrite Hd in HW. destruct (e_pairings x !! r_id row) eqn:E; [|done].
      split; [done|]. left. by eexists.
    - rewrite lookup_insert_ne in Hk by done. destruct (Hx k e Hk Hd). by split; [|left]. }
  split; [done|]. destruct Hp as [Hp|[-> Hp]].
  - by apply record_pairings_mono.
  - apply record_pairings_mono. unfold window_of in HW. destruct (present_window row x).
    rewrite Hp in HW. by destruct (e_pairings x !! r_id row).
Qed.

(** *** Keys *)

Lemma record_keys row entry x k :
  is_Some (e_groups x !! k) → is_Some (e_groups (record row entry x) !! k).
Proof.
  intros H. unfold record. simpl. destruct (decide (k = r_id row)) as [->|Hne].
  - rewrite lookup_insert_eq. by eexists.
  - by rewrite lookup_insert_ne.
Qed.

Lemma mapM_handleRow_keys now rows x o x' k :
  is_Some (e_groups x !! k) →
  mapM (handleRow csvParse now) rows x = (o, x') → is_Some (e_groups x' !! k).
Proof.
  intros Hk. apply (mapM_handleRow_preserves csvParse
    (λ x, is_Some (e_groups x !! k)) (λ _, True) now); [|by apply Forall_true|done].
  intros row y tf tt ua ga _ Hy _. by apply record_keys.
Qed.

Lemma handleRows_keys d now fuel rows x o x' k :
  is_Some (e_groups x !! k) →
  handleRows csvParse fuel d now rows x = (o, x') → is_Some (e_groups x' !! k).
Proof.
  intros Hk. apply (handleRows_preserves csvParse
    (λ x, is_Some (e_groups x !! k)) (λ _, True) d now); [|done|by apply Forall_true|done].
  intros row y tf tt ua ga _ Hy _. by apply record_keys.
Qed.

(** The rows of a pass that returns are resolved after it, and every parent
    of an entry is resolved, among the ids it pushed, or was pending. *)
Lemma mapM_handleRow_pending d now rows : ∀ x l x' pending,
  mapM (handleRow csvParse now) rows x = (Ret l, x') →
  parents_pending d rows pending x →
  (∀ r, r ∈ rows → is_Some (e_groups x' !! r_id r)) ∧
  parents_pending d [] (pending ++ concat l) x'.
Proof.
  induction rows as [|row rows IH]; intros x l x' pending HM HP.
  { injection HM as <- <-. split; [intros r Hr; by apply elem_of_nil in Hr|].
    simpl. rewrite app_nil_r. exact HP. }
  simpl in HM. unfold mbind, mret, St_bind, St_ret in HM.
  destruct (handleRow csvParse now row x) as [o1 x1] eqn:E1.
  destruct o1 as [l1| | |]; try done.
  apply handleRow_Ret in E1 as (tf & tt & ua & ga & HW & -> & ->).
  destruct (mapM _ rows _) as [o2 x2] eqn:E2.
  destruct o2 as [l2| | |]; try done. injection HM as <- <-.
  destruct (IH _ _ _ (pending ++ pushed row) E2) as [Hrows Hpend].
  - intros k e g Hk Hp Hg Hid. unfold record in Hk. simpl in Hk.
    destruct (decide (k = r_id row)) as [->|Hne].
    + rewrite lookup_insert_eq in Hk. injection Hk as <-. simpl in Hp, Hid.
      right. right. apply elem_of_app. right. unfold pushed. rewrite Hp, Hid. by left.
    + rewrite lookup_insert_ne in Hk by done.
      destruct (HP k e g Hk Hp Hg Hid) as [H|[(r & Hr & Hrid)|H]].
      * left. by apply record_keys.
      * apply elem_of_cons in Hr as [->|Hr].
        -- left. rewrite <- Hrid. unfold record. simpl. rewrite lookup_insert_eq. by eexists.
        -- right. left. by exists r.
      * right. right. apply elem_of_app. by left.
  - split.
    + intros r Hr. apply elem_of_cons in Hr as [->|Hr]; [|by apply Hrows].
      refine (mapM_handleRow_keys now rows _ _ _ _ _ E2).
      unfold record. simpl. rewrite lookup_insert_eq. by eexists.
    + simpl. by rewrite (assoc_L (++)).
Qed.

Lemma handleRows_closed d now fuel : ∀ rows x x',
  handleRows csvParse fuel d now rows x = (Ret (), x') →
  parents_pending d rows [] x →
  (∀ r, r ∈ rows → is_Some (e_groups x' !! r_id r)) ∧ parents_pending d [] [] x'.
Proof.
  induction fuel as [|fuel IH]; intros rows x x' HH HP; [done|].
  simpl in HH. unfold mbind, mret, St_bind, St_ret in HH.
  destruct (mapM _ rows x) as [o1 x1] eqn:E1.
  destruct o1 as [l| | |]; try done.
  destruct (mapM_handleRow_pending d now rows x l x1 [] E1 HP) as [Hrows Hpend].
  simpl in Hpend.
  destruct (length (concat l) <? 1)%nat eqn:El.
  - injection HH as <-. split; [done|]. apply Nat.ltb_lt in El.
    destruct (concat l); [done|simpl in El; lia].
  - destruct (IH _ _ _ HH) as [_ Hclosed].
    + intros k e g Hk Hp Hg Hid.
      destruct (Hpend k e g Hk Hp Hg Hid) as [H|[(r & Hr & _)|H]].
      * by left.
      * by apply elem_of_nil in Hr.
      * right. left. exists (parent_row g). split; [|done].
        unfold select_groups_in. apply list_elem_of_fmap. exists g. split; [done|].
        by apply list_elem_of_filter.
    + split; [|done]. intros r Hr.
      exact (handleRows_keys d now fuel _ x1 (Ret ()) x' _ (Hrows r Hr) HH).
Qed.

Lemma getGroups_fresh_Ret fuel w groups0 w' :
  groups (this w) = None →
  getGroups csvParse fuel w = (Ret groups0, w') →
  ∃ x, handleRows csvParse fuel (db w) (clock w (reads w))
         (select_user_groups (db w) (user_id (this w))) no_expansion = (Ret (), x) ∧
       groups0 = e_groups x ∧ w' = expanded w x.
Proof.
  intros Hfresh. rewrite getGroups_fresh by done. cbv zeta.
  destruct (handleRows _ _ _ _ _ _) as [o x]. simpl.
  destruct o as [[]| | |]; try done. simpl. intros [= <- <-]. by exists x.
Qed.

End Entries.

Section Invariants.

Variable csvParse : string → csv_result.

(** What the closure of a fresh [getGroups] leaves, however it ends. *)
Lemma getGroups_invariants fuel w o w' :
  groups (this w) = None →
  getGroups csvParse fuel w = (o, w') →
  ∃ x, groups (this w') = Some (e_groups x) ∧ pairings (this w') = e_pairings x ∧
       entries_of_table (db w) (clock w (reads w)) x ∧ pairings_of_table (db w) x ∧
       windows_formed x ∧ inherited_have_children x.
Proof.
  intros Hfresh HG.
  destruct (getGroups_preserves csvParse
    (λ x, entries_of_table (db w) (clock w (reads w)) x ∧ pairings_of_table (db w) x ∧
          windows_formed x ∧ inherited_have_children x)
    (λ r, (∃ g, g ∈ tbl_groups (db w) ∧ row_of_group g r) ∧ stored_window r)
    fuel w o w' Hfresh) as (x & H1 & H2 & H3 & _); [| | | |exact HG|by exists x].
  - intros row x tf tt ua ga [Hrow Hst] (He & Hp & Hw & Hi) HW.
    split; [by apply record_entries_of_table|].
    split; [by apply record_pairings_of_table|].
    split; [by apply record_windows_formed|].
    by apply record_inherited_have_children.
  - intros g Hg. split; [exists g; split; [done|apply parent_row_of_group]|].
    intros Hd. discriminate Hd.
  - intros r Hr. apply elem_of_select_user_groups in Hr as (ug & g & _ & _ & Hg & _ & ->).
    split; [exists g; split; [done|apply joined_row_of_group]|].
    intros _. split; [by eexists|]. simpl. destruct (ug_to ug); [right; by eexists|by left].
  - split; [intros k e Hk; by destruct (lookup_empty_Some (M:=gmap Z) _ _ Hk)|].
    split; [intros k ids i Hk; by destruct (lookup_empty_Some (M:=gmap Z) _ _ Hk)|].
    split; [|intros k e Hk; by destruct (lookup_empty_Some (M:=gmap Z) _ _ Hk)].
    split; [intros k ids i Hk; by destruct (lookup_empty_Some (M:=gmap Z) _ _ Hk)|].
    split; [intros k ids Hk; by destruct (lookup_empty_Some (M:=gmap Z) _ _ Hk)|].
    intros k e Hk; by destruct (lookup_empty_Some (M:=gmap Z) _ _ Hk).
Qed.

End Invariants.

(** X9: every entry of the map that a fresh [getGroups] leaves in
    [this.groups], whether it returned or not, sits under the id of a group
    of the table [groups] and carries that group's columns. *)
Theorem getGroups_entries_of_table csvParse fuel w o w' groups0 k e :
  groups (this w) = None →
  getGroups csvParse fuel w = (o, w') →
  groups (this w') = Some groups0 →
  groups0 !! k = Some e →
  ∃ g, g ∈ tbl_groups (db w) ∧ g_id g = k ∧ describes g e.
Proof.
  intros Hfresh HG Hg Hk.
  destruct (getGroups_invariants csvParse fuel w o w' Hfresh HG)
    as (x & Hx & _ & He & _).
  rewrite Hx in Hg. injection Hg as <-. by destruct (He k e Hk) as (_ & _ & H).
Qed.

Lemma getGroups_entries_of_table_witness :
  ∃ e, resolved 2500 db_committee !! 5 = Some e ∧
       ∃ g, g ∈ tbl_groups db_committee ∧ g_id g = 5 ∧ describes g e.
Proof.
  eexists. split; [vm_compute; reflexivity|].
  apply (getGroups_entries_of_table Reference.csv_parse 3 w_committee
           (Reference.getGroups 3 w_committee).1 (Reference.getGroups 3 w_committee).2
           (resolved 2500 db_committee) 5);
    [reflexivity|reflexivity|vm_compute; reflexivity|vm_compute; reflexivity].
Defined.

(** X10: every entry a fresh [getGroups] leaves has a number for [from] and
    a number or [null] for [to]: the [Infinity], [NaN] and [undefined] of
    the intermediate steps never reach the map. *)
Theorem getGroups_windows_formed csvParse fuel w o w' groups0 k e :
  groups (this w) = None →
  getGroups csvParse fuel w = (o, w') →
  groups (this w') = Some groups0 →
  groups0 !! k = Some e →
  is_number (from (user e)) ∧ is_end (to (user e)).
Proof.
  intros Hfresh HG Hg Hk.
  destruct (getGroups_invariants csvParse fuel w o w' Hfresh HG)
    as (x & Hx & _ & _ & _ & (_ & _ & Hw) & _).
  rewrite Hx in Hg. injection Hg as <-. by apply (Hw k).
Qed.

Lemma getGroups_windows_formed_witness :
  ∃ e, resolved 2500 db_committee !! 5 = Some e ∧
       is_number (from (user e)) ∧ is_end (to (user e)).
Proof.
  eexists. split; [vm_compute; reflexivity|].
  apply (getGroups_windows_formed Reference.csv_parse 3 w_committee
           (Reference.getGroups 3 w_committee).1 (Reference.getGroups 3 w_committee).2
           (resolved 2500 db_committee) 5);
    [reflexivity|reflexivity|vm_compute; reflexivity|vm_compute; reflexivity].
Defined.

(** X11: an entry that a fresh [getGroups] leaves with [direct] false has a
    [children] array that is not empty; every id in it has an entry of its
    own and is the id of a group of the table whose parent is the entry's
    group. *)
Theorem getGroups_inherited_children csvParse fuel w o w' groups0 k e :
  groups (this w) = None →
  getGroups csvParse fuel w = (o, w') →
  groups (this w') = Some groups0 →
  groups0 !! k = Some e →
  direct (user e) = false →
  ∃ ids, children_of (this w') e = Some ids ∧ ids ≠ [] ∧
    ∀ i, i ∈ ids →
      is_Some (groups0 !! i) ∧
      ∃ g, g ∈ tbl_groups (db w) ∧ g_id g = i ∧ g_parent g = Some k.
Proof.
  intros Hfresh HG Hg Hk Hd.
  destruct (getGroups_invariants csvParse fuel w o w' Hfresh HG)
    as (x & Hx & Hpair & _ & Hp & (Hres & Hne & _) & Hi).
  rewrite Hx in Hg. injection Hg as <-.
  destruct (Hi k e Hk Hd) as [Hc [ids Hids]]. exists ids.
  split; [unfold children_of; rewrite Hc, Hpair; exact Hids|].
  split; [by apply (Hne k)|].
  intros i Hin. split; [by apply (Hres k ids)|by apply (Hp k ids)].
Qed.

Lemma getGroups_inherited_children_witness :
  ∃ e, resolved 2500 db_committee !! 5 = Some e ∧
  ∃ ids, children_of (this (Reference.getGroups 3 w_committee).2) e = Some ids ∧
    ids ≠ [] ∧
    ∀ i, i ∈ ids →
      is_Some (resolved 2500 db_committee !! i) ∧
      ∃ g, g ∈ tbl_groups db_committee ∧ g_id g = i ∧ g_parent g = Some 5.
Proof.
  eexists. split; [vm_compute; reflexivity|].
  apply (getGroups_inherited_children Reference.csv_parse 3 w_committee
           (Reference.getGroups 3 w_committee).1 (Reference.getGroups 3 w_committee).2
           (resolved 2500 db_committee) 5);
    [reflexivity|reflexivity|vm_compute; reflexivity|vm_compute; reflexivity|reflexivity].
Defined.

(** X12: when a fresh [getGroups] returns, every stored membership of the
    user in a group of the table has an entry in the map. *)
Theorem getGroups_memberships_resolved csvParse fuel w groups0 w' ug g :
  groups (this w) = None →
  getGroups csvParse fuel w = (Ret groups0, w') →
  ug ∈ tbl_users_groups (db w) →
  ug_user_id ug = user_id (this w) →
  g ∈ tbl_groups (db w) →
  g_id g = ug_group_id ug →
  is_Some (groups0 !! g_id g).
Proof.
  intros Hfresh HG Hug Hu Hg Hid.
  destruct (getGroups_fresh_Ret csvParse fuel w groups0 w' Hfresh HG) as (x & HH & -> & _).
  destruct (handleRows_closed csvParse _ _ _ _ _ _ HH) as [Hrows _].
  { intros k e g' Hk. by destruct (lookup_empty_Some (M:=gmap Z) _ _ Hk). }
  apply (Hrows (joined_row ug g)). apply elem_of_select_user_groups. by exists ug, g.
Qed.

Lemma getGroups_memberships_resolved_witness :
  is_Some (resolved 2500 db_committee !! g_id (plain_group 7 "Committee" (Some 5))).
Proof.
  apply (getGroups_memberships_resolved Reference.csv_parse 3 w_committee
           (resolved 2500 db_committee) (Reference.getGroups 3 w_committee).2
           (stored 1 7 2000 (Some 3000)) (plain_group 7 "Committee" (Some 5)));
    [reflexivity|reflexivity| | reflexivity| |reflexivity].
  - by left.
  - right. by left.
Defined.

(** X13: when a fresh [getGroups] returns, the map is closed under parents:
    an entry whose group names a parent (an id other than 0) that is a
    group of the table comes with an entry for that parent. *)
Theorem getGroups_parents_resolved csvParse fuel w groups0 w' k e g :
  groups (this w) = None →
  getGroups csvParse fuel w = (Ret groups0, w') →
  groups0 !! k = Some e →
  parent (group e) = Some (g_id g) →
  g_id g ≠ 0 →
  g ∈ tbl_groups (db w) →
  is_Some (groups0 !! g_id g).
Proof.
  intros Hfresh HG Hk Hp Hz Hg.
  destruct (getGroups_fresh_Ret csvParse fuel w groups0 w' Hfresh HG) as (x & HH & -> & _).
  destruct (handleRows_closed csvParse _ _ _ _ _ _ HH) as [_ Hclosed].
  { intros k' e' g' Hk'. by destruct (lookup_empty_Some (M:=gmap Z) _ _ Hk'). }
  assert (truthy_id (parent (group e)) = true) as Ht.
  { rewrite Hp. simpl. unfold truthy_int. by apply negb_true_iff, Z.eqb_neq. }
  assert (g_id g = default 0 (parent (group e))) as Hd by (by rewrite Hp).
  destruct (Hclosed k e g Hk Ht Hg Hd) as [H|[(r & Hr & _)|H]]; [done| |].
  - by apply elem_of_nil in Hr.
  - by apply elem_of_nil in H.
Qed.

Lemma getGroups_parents_resolved_witness :
  is_Some (resolved 2500 db_committee !! g_id (plain_group 5 "Board" None)).
Proof.
  eapply (getGroups_parents_resolved Reference.csv_parse 3 w_committee
            (resolved 2500 db_committee) (Reference.getGroups 3 w_committee).2 7 _
            (plain_group 5 "Board" None));
    [reflexivity|reflexivity|vm_compute; reflexivity|reflexivity|done|by left].
Defined.

(** * The mutations *)

Lemma is_active_iff f tt now :
  is_end tt →
  is_active (Num f) tt now = true ↔
  f ≤ now ∧ (tt = Null ∨ tt = Num 0 ∨ ∃ t, tt = Num t ∧ now ≤ t).
Proof.
  intros [->|[t ->]]; unfold is_active, gt, lt; simpl.
  - destruct (Z.ltb_spec now f) as [Hlt|Hle].
    + split; [done|]. intros [? _]. lia.
    + split; [|done]. intros _. split; [done|by left].
  - transitivity (f ≤ now ∧ (t = 0 ∨ now ≤ t)).
    + destruct (Z.ltb_spec now f), (Z.eqb_spec t 0), (Z.ltb_spec t now); simpl;
        split; intros H'; try done; lia.
    + split.
      * intros [? [->|?]]; (split; [done|]); [right; by left|].
        right. right. by exists t.
      * intros [? [?|[[= ->]|(t' & [= <-] & ?)]]]; [done| |]; (split; [done|]);
          [by left|by right].
Qed.

(** X14: an entry that a fresh [getGroups] leaves is [active] exactly when
    its window holds the reading of the clock that the call took: [from] is
    not later, and [to] is [null], or 0, or not earlier. *)
Theorem getGroups_active_iff csvParse fuel w o w' groups0 k e :
  groups (this w) = None →
  getGroups csvParse fuel w = (o, w') →
  groups (this w') = Some groups0 →
  groups0 !! k = Some e →
  active (user e) = true ↔
    (∃ f, from (user e) = Num f ∧ f ≤ clock w (reads w)) ∧
    (to (user e) = Null ∨ to (user e) = Num 0 ∨
     ∃ t, to (user e) = Num t ∧ clock w (reads w) ≤ t).
Proof.
  intros Hfresh HG Hg Hk.
  destruct (getGroups_invariants csvParse fuel w o w' Hfresh HG)
    as (x & Hx & _ & He & _ & (_ & _ & Hw) & _).
  rewrite Hx in Hg. injection Hg as <-.
  destruct (He k e Hk) as (-> & _). destruct (Hw k e Hk) as [[f Hf] Hend].
  rewrite Hf, (is_active_iff f _ _ Hend). split.
  - intros [? ?]. split; [by exists f|done].
  - intros [(f' & [= <-] & ?) ?]. done.
Qed.

Lemma getGroups_active_iff_witness :
  ∃ e, resolved 2500 db_committee !! 5 = Some e ∧
    (active (user e) = true ↔
       (∃ f, from (user e) = Num f ∧ f ≤ 2500) ∧
       (to (user e) = Null ∨ to (user e) = Num 0 ∨
        ∃ t, to (user e) = Num t ∧ 2500 ≤ t)).
Proof.
  eexists. split; [vm_compute; reflexivity|].
  apply (getGroups_active_iff Reference.csv_parse 3 w_committee
           (Reference.getGroups 3 w_committee).1 (Reference.getGroups 3 w_committee).2
           (resolved 2500 db_committee) 5);
    [reflexivity|reflexivity|vm_compute; reflexivity|vm_compute; reflexivity].
Defined.

Section Ending.

Variable csvParse : string → csv_result.
Variable Group_getGroupById : Z → DB → outcome (option Group).
Variable Group_addUser : Group → Z → list string → Z → value → DB → outcome bool * DB.

(** [getGroups] reads the clock once when it expands and not at all when it
    answers from the cache. *)
Lemma getGroups_reads fuel w o w1 :
  getGroups csvParse fuel w = (o, w1) →
  reads w1 = (if groups (this w) is Some _ then reads w else S (reads w)).
Proof.
  destruct (groups (this w)) as [cached|] eqn:H.
  - rewrite (getGroups_cached _ _ _ _ H). by intros [= <- <-].
  - rewrite (getGroups_fresh _ _ _ H). simpl. by intros [= <- <-].
Qed.

Lemma resolve_group_Ret target w g0 w1 :
  resolve_group Group_getGroupById target w = (Ret g0, w1) →
  w1 = w ∧
  match target with
  | ByGroup g => g0 = Some g
  | ById n => Group_getGroupById n (db w) = Ret g0
  end.
Proof.
  intros H. split; [by apply resolve_group_frame in H|].
  destruct target as [g|n]; simpl in H.
  - by injection H as <- _.
  - unfold mbind, St_bind, get_db, lift in H. by injection H as ->.
Qed.

(** The steps of [endGroupMembership] when it returns. *)
Lemma endGroupMembership_Ret fuel target w b w' :
  endGroupMembership csvParse Group_getGroupById fuel target w = (Ret b, w') →
  ∃ g groups0 w1,
    resolve_group Group_getGroupById target w = (Ret (Some g), w) ∧
    getGroups csvParse fuel w = (Ret groups0, w1) ∧
    if b then
      is_Some (groups0 !! id g) ∧
      ∃ groups1,
        getGroups csvParse fuel
          (with_this (with_groups None (this w1))
             (with_db (update_users_groups_to (db w1) (clock w1 (reads w1))
                         (user_id (this w1)) (id g))
                {| db := db w1; this := this w1; clock := clock w1;
                   reads := S (reads w1) |}))
          = (Ret groups1, w')
    else groups0 !! id g = None ∧ w' = w1.
Proof.
  unfold endGroupMembership. intros H.
  apply bind_inv in H as (g0 & w0 & Hr & H).
  pose proof (resolve_group_frame _ _ _ _ _ Hr) as ->.
  apply bind_inv in H as (groups0 & w1 & HG & H).
  apply bind_inv in H as (g & w2 & Hd & H).
  destruct g0 as [g'|]; [|done]. injection Hd as -> <-.
  exists g, groups0, w1. split; [done|]. split; [done|].
  destruct (bool_decide (is_Some (groups0 !! id g))) eqn:E.
  - apply bool_decide_eq_true in E. simpl in H.
    apply bind_inv in H as (timeNow & w4 & Ht & H). injection Ht as <- <-.
    apply bind_inv in H as (d & w5 & Hdb & H). injection Hdb as <- <-.
    apply bind_inv in H as (u & w6 & Hu & H). injection Hu as <- <-.
    apply bind_inv in H as ([] & w7 & Hs & H). injection Hs as <-.
    apply bind_inv in H as ([] & w8 & Hs & H). injection Hs as <-.
    apply bind_inv in H as (groups1 & w9 & HG' & H). injection H as <- <-.
    split; [done|]. by exists groups1.
  - apply bool_decide_eq_false in E. simpl in H. injection H as <- <-.
    split; [|done]. by apply eq_None_not_Some.
Qed.

Lemma update_users_groups_to_rows d timeNow uid gid :
  Forall2 (updated_row timeNow uid gid) (tbl_users_groups d)
    (tbl_users_groups (update_users_groups_to d timeNow uid gid)).
Proof.
  simpl. induction (tbl_users_groups d) as [|ug l IH]; csimpl; [constructor|].
  constructor; [|exact IH]. unfold updated_row, ended. by case_bool_decide.
Qed.

(** The steps of [addToGroup] when it returns. *)
Lemma addToGroup_Ret fuel target args timeFrom timeTo w r w' :
  addToGroup csvParse Group_getGroupById Group_addUser fuel target args timeFrom timeTo w
    = (Ret r, w') →
  ∃ g w0,
    let tf := match timeFrom with Some t => t | None => clock w (reads w) end in
    let added := Group_addUser g (user_id (this w)) (default [] args) tf timeTo (db w) in
    resolve_group Group_getGroupById target w = (Ret (Some g), w) ∧
    w0 = with_db added.2
           {| db := db w; this := this w; clock := clock w;
              reads := if timeFrom is Some _ then reads w else S (reads w) |} ∧
    match r with
    | None => added.1 = Ret false ∧ w' = w0
    | Some g' =>
        g' = g ∧ added.1 = Ret true ∧
        ∃ groups0 w1,
          getGroups csvParse fuel
            {| db := db w0; this := this w0; clock := clock w0; reads := S (reads w0) |}
            = (Ret groups0, w1) ∧
          w' = with_this (with_groups (Some (<[id g :=
                 {| group := g;
                    user := {| u_args := default [] args;
                               from := Num tf;
                               to := timeTo;
                               active := is_active (Num tf) timeTo (clock w (reads w0));
                               direct := true;
                               children := None;
                               name := render_name (nameBase g) (nameDisplay g)
                                         (default [] args) |} |}]> groups0))
                 (this w1)) w1
    end.
Proof.
  unfold addToGroup. intros H.
  apply bind_inv in H as (tf & w1 & Ht & H).
  assert (tf = match timeFrom with Some t => t | None => clock w (reads w) end ∧
          w1 = {| db := db w; this := this w; clock := clock w;
                  reads := if timeFrom is Some _ then reads w else S (reads w) |}) as [-> ->].
  { destruct timeFrom; injection Ht as <- <-; [by destruct w|done]. }
  apply bind_inv in H as (g0 & w2 & Hr & H).
  pose proof (resolve_group_frame _ _ _ _ _ Hr) as ->.
  apply bind_inv in H as (g & w3 & Hd & H).
  destruct g0 as [g'|]; [|done]. injection Hd as -> <-.
  apply bind_inv in H as (u & w4 & Hu & H). injection Hu as <- <-.
  apply bind_inv in H as (d & w5 & Hd' & H). injection Hd' as <- <-.
  simpl in H. exists g. eexists. cbv zeta. split.
  { apply resolve_group_Ret in Hr as [_ Hr]. destruct target as [g'|n]; simpl in *.
    - by injection Hr as ->.
    - unfold mbind, St_bind, get_db, lift. simpl. by rewrite Hr. }
  split; [reflexivity|].
  destruct (Group_addUser _ _ _ _ _ _) as [wasAdded d'].
  apply bind_inv in H as ([] & w6 & Hs & H). injection Hs as <-.
  apply bind_inv in H as (added & w7 & Hl & H). unfold lift in Hl. injection Hl as -> <-.
  destruct added; simpl in H.
  - apply bind_inv in H as (timeNow & w8 & Hn & H). injection Hn as <- <-.
    apply bind_inv in H as (groups0 & w9 & HG & H).
    apply bind_inv in H as ([] & w10 & Hs & H). injection Hs as <-.
    injection H as <- <-. split; [done|]. split; [done|].
    exists groups0, w9. split; [exact HG|].
    simpl. unfold is_active, gt. simpl.
    by destruct (truthy timeTo && lt timeTo _), (lt _ _).
  - by injection H as <- <-.
Qed.

End Ending.

(** X15: [endGroupMembership] that returns [false] has changed no table and
    not the cached permission tree; the map it leaves cached has no entry
    for the group, and when a map was cached before the call, nothing at
    all has changed. *)
Theorem endGroupMembership_refused csvParse Group_getGroupById fuel target w w' :
  endGroupMembership csvParse Group_getGroupById fuel target w = (Ret false, w') →
  db w' = db w ∧ permissions (this w') = permissions (this w) ∧
  (∃ g groups0,
     resolve_group Group_getGroupById target w = (Ret (Some g), w) ∧
     groups (this w') = Some groups0 ∧ groups0 !! id g = None) ∧
  (is_Some (groups (this w)) → w' = w).
Proof.
  intros H.
  apply endGroupMembership_Ret in H as (g & groups0 & w1 & Hr & HG & Hnone & ->).
  pose proof (getGroups_frame _ _ _ _ _ HG) as (Hdb & _ & Hp & _).
  split; [done|]. split; [done|]. split.
  - exists g, groups0. split; [done|]. split; [|done].
    by eapply getGroups_returns_cache.
  - intros [cached Hc]. rewrite (getGroups_cached _ _ _ _ Hc) in HG.
    by injection HG as _ <-.
Qed.

Lemma endGroupMembership_refused_witness :
  let w' := (Reference.endGroupMembership 3 (ByGroup Closed) w_committee).2 in
  db w' = db w_committee ∧ permissions (this w') = permissions (this w_committee) ∧
  (∃ g groups0,
     resolve_group Reference.getGroupById (ByGroup Closed) w_committee
       = (Ret (Some g), w_committee) ∧
     groups (this w') = Some groups0 ∧ groups0 !! id g = None) ∧
  (is_Some (groups (this w_committee)) → w' = w_committee).
Proof.
  apply (endGroupMembership_refused Reference.csv_parse Reference.getGroupById 3
           (ByGroup Closed) w_committee). reflexivity.
Defined.

(** X16: [endGroupMembership] that returns [true] has set [to] of every
    stored membership of the user in the group to one reading of the clock,
    also of those that had ended before, and has changed no other row and
    no other table. *)
Theorem endGroupMembership_ends_rows csvParse Group_getGroupById fuel target w w' :
  endGroupMembership csvParse Group_getGroupById fuel target w = (Ret true, w') →
  ∃ g,
    let timeNow :=
      clock w (if groups (this w) is Some _ then reads w else S (reads w)) in
    resolve_group Group_getGroupById target w = (Ret (Some g), w) ∧
    tbl_groups (db w') = tbl_groups (db w) ∧
    tbl_groups_permissions (db w') = tbl_groups_permissions (db w) ∧
    tbl_users_permissions (db w') = tbl_users_permissions (db w) ∧
    Forall2 (updated_row timeNow (user_id (this w)) (id g))
      (tbl_users_groups (db w)) (tbl_users_groups (db w')).
Proof.
  intros H.
  apply endGroupMembership_Ret in H as (g & groups0 & w1 & Hr & HG & _ & groups1 & HG').
  pose proof (getGroups_frame _ _ _ _ _ HG) as (Hdb & Huid & _ & Hclock).
  pose proof (getGroups_reads _ _ _ _ _ HG) as Hreads.
  pose proof (getGroups_frame _ _ _ _ _ HG') as (Hdb' & _).
  simpl in Hdb'. exists g. cbv zeta. split; [done|].
  rewrite Hdb', Hdb, Huid, Hclock, Hreads. simpl.
  split; [done|]. split; [done|]. split; [done|].
  apply update_users_groups_to_rows.
Qed.

Lemma endGroupMembership_ends_rows_witness :
  ∃ g,
    let timeNow :=
      clock w_history
        (if groups (this w_history) is Some _ then reads w_history
         else S (reads w_history)) in
    resolve_group Reference.getGroupById (ByGroup Committee) w_history
      = (Ret (Some g), w_history) ∧
    tbl_groups (db (Reference.endGroupMembership 3 (ByGroup Committee) w_history).2)
      = tbl_groups (db w_history) ∧
    tbl_groups_permissions
      (db (Reference.endGroupMembership 3 (ByGroup Committee) w_history).2)
      = tbl_groups_permissions (db w_history) ∧
    tbl_users_permissions
      (db (Reference.endGroupMembership 3 (ByGroup Committee) w_history).2)
      = tbl_users_permissions (db w_history) ∧
    Forall2 (updated_row timeNow (user_id (this w_history)) (id g))
      (tbl_users_groups (db w_history))
      (tbl_users_groups
         (db (Reference.endGroupMembership 3 (ByGroup Committee) w_history).2)).
Proof.
  apply (endGroupMembership_ends_rows Reference.csv_parse Reference.getGroupById 3
           (ByGroup Committee) w_history
           (Reference.endGroupMembership 3 (ByGroup Committee) w_history).2).
  vm_compute. reflexivity.
Defined.

(** On [db_history] the membership that had ended at 20 ends at 100 after
    the call, and the other user's row is as it was. *)
Example ended_membership_moved :
  tbl_users_groups (db (Reference.endGroupMembership 3 (ByGroup Committee) w_history).2)
  = [stored 1 7 10 (Some 100); stored 1 7 30 (Some 100); stored 2 7 5 None].
Proof. vm_compute. reflexivity. Qed.

(** X17: [addToGroup] that returns [false] has left the user object as it
    was: no cache is read or written, [getGroups] is not called, and the
    clock is read only for a missing [timeFrom]. The database is as
    [addUser] left it when it refused. *)
Theorem addToGroup_refused csvParse Group_getGroupById Group_addUser fuel target args
    timeFrom timeTo w w' :
  addToGroup csvParse Group_getGroupById Group_addUser fuel target args timeFrom timeTo w
    = (Ret None, w') →
  this w' = this w ∧ clock w' = clock w ∧
  reads w' = (if timeFrom is Some _ then reads w else S (reads w)) ∧
  ∃ g tf,
    resolve_group Group_getGroupById target w = (Ret (Some g), w) ∧
    Group_addUser g (user_id (this w)) (default [] args) tf timeTo (db w)
      = (Ret false, db w').
Proof.
  intros H. apply addToGroup_Ret in H as (g & w0 & Hr & -> & Hrefused & ->).
  split; [done|]. split; [done|]. split; [done|].
  exists g, (match timeFrom with Some t => t | None => clock w (reads w) end).
  split; [exact Hr|].
  simpl. destruct (Group_addUser _ _ _ _ _ _) as [o d']. simpl in *. by rewrite Hrefused.
Qed.

Lemma addToGroup_refused_witness :
  let w' := (Reference.addToGroup 3 (ByGroup Closed) None None Null w_committee).2 in
  this w' = this w_committee ∧ clock w' = clock w_committee ∧
  reads w' = S (reads w_committee) ∧
  ∃ g tf,
    resolve_group Reference.getGroupById (ByGroup Closed) w_committee
      = (Ret (Some g), w_committee) ∧
    Reference.addUser g (user_id (this w_committee)) (default [] None) tf Null
      (db w_committee) = (Ret false, db w').
Proof.
  apply (addToGroup_refused Reference.csv_parse Reference.getGroupById Reference.addUser 3
           (ByGroup Closed) None None Null w_committee). reflexivity.
Defined.

(** X18: after [addToGroup] has returned the group, every later
    [getGroups] answers from the cache with a map whose entry for the group
    is direct, without children, carries the arguments and the window given
    to the call, a name rendered from them, and an [active] that the window
    gives at the reading of the clock taken after [addUser]; a map cached
    before the call keeps every other entry. *)
Theorem addToGroup_then_getGroups csvParse Group_getGroupById Group_addUser fuel fuel'
    target args timeFrom timeTo w g w' :
  addToGroup csvParse Group_getGroupById Group_addUser fuel target args timeFrom timeTo w
    = (Ret (Some g), w') →
  ∃ patched entry,
    getGroups csvParse fuel' w' = (Ret patched, w') ∧
    patched !! id g = Some entry ∧
    group entry = g ∧
    u_args (user entry) = default [] args ∧
    from (user entry) = Num (default (clock w (reads w)) timeFrom) ∧
    to (user entry) = timeTo ∧
    direct (user entry) = true ∧
    children (user entry) = None ∧
    name (user entry) = render_name (nameBase g) (nameDisplay g) (default [] args) ∧
    active (user entry) =
      is_active (from (user entry)) timeTo
        (clock w (if timeFrom is Some _ then reads w else S (reads w))) ∧
    ∀ cached k, groups (this w) = Some cached → k ≠ id g → patched !! k = cached !! k.
Proof.
  intros H.
  apply addToGroup_Ret in H as (g0 & w0 & Hr & -> & -> & _ & groups0 & w1 & HG & ->).
  eexists _, _. split; [by apply getGroups_cached|].
  split; [by rewrite lookup_insert_eq|]. simpl.
  split; [done|]. split; [done|]. split; [by destruct timeFrom|].
  split; [done|]. split; [done|]. split; [done|]. split; [done|]. split; [done|].
  intros cached k Hc Hk. rewrite lookup_insert_ne by done.
  erewrite getGroups_cached in HG by exact Hc. by injection HG as <- _.
Qed.

Lemma addToGroup_then_getGroups_witness :
  ∃ patched entry,
    Reference.getGroups 0 w_joined = (Ret patched, w_joined) ∧
    patched !! id Subcommittee = Some entry ∧
    group entry = Subcommittee ∧
    u_args (user entry) = default [] None ∧
    from (user entry) = Num (default (clock w_asked (reads w_asked)) None) ∧
    to (user entry) = Null ∧
    direct (user entry) = true ∧
    children (user entry) = None ∧
    name (user entry) =
      render_name (nameBase Subcommittee) (nameDisplay Subcommittee) (default [] None) ∧
    active (user entry) =
      is_active (from (user entry)) Null (clock w_asked (S (reads w_asked))) ∧
    ∀ cached k, groups (this w_asked) = Some cached → k ≠ id Subcommittee →
      patched !! k = cached !! k.
Proof.
  apply (addToGroup_then_getGroups Reference.csv_parse Reference.getGroupById
           Reference.addUser 2 0 (ById 7) None None Null w_asked Subcommittee w_joined).
  reflexivity.
Defined.

(** * The permission cache after a failure *)

Section PermissionCache.

Variable csvParse : string → csv_result.

Lemma getPermissions_fresh_stopped fuel w o w1 :
  permissions (this w) = None →
  getGroups csvParse fuel w = (o, w1) →
  (∀ groups0, o ≠ Ret groups0) →
  getPermissions csvParse fuel w =
    (match o with Ret _ => Diverge | Throw e => Throw e
     | Unmodelled => Unmodelled | Diverge => Diverge end, cached_tree (PObj ∅) w1).
Proof.
  intros H HG Ho. unfold getPermissions. run. rewrite H.
  pose proof (getGroups_with_permissions csvParse fuel w (Some (PObj ∅))) as E.
  rewrite HG in E. rewrite E. simpl.
  destruct o as [groups0| | |]; [by destruct (Ho groups0)|done..].
Qed.

Lemma walk_empty_tree b rest :
  inherited b = false → walk (b :: rest) (PObj ∅) = Ret false.
Proof. intros H. simpl. by rewrite lookup_empty, H. Qed.

Lemma elem_of_groupIds_of groups0 i :
  i ∈ groupIds_of groups0 ↔
  ∃ k e, groups0 !! k = Some e ∧ active (user e) = true ∧ id (group e) = i.
Proof.
  unfold groupIds_of. rewrite list_elem_of_fmap. split.
  - intros (e & -> & He). apply list_elem_of_filter in He as [Ha He].
    apply list_elem_of_fmap in He as ([k e'] & -> & He).
    apply elem_of_map_to_list in He. by exists k, e'.
  - intros (k & e & Hk & Ha & <-). exists e. split; [done|].
    apply list_elem_of_filter. split; [done|].
    apply list_elem_of_fmap. exists (k, e). split; [done|].
    by apply elem_of_map_to_list.
Qed.

Lemma elem_of_rawPermissions_of d uid groups0 perm :
  perm ∈ rawPermissions_of d uid groups0 ↔
  (∃ k e, groups0 !! k = Some e ∧ active (user e) = true ∧
          (id (group e), perm) ∈ tbl_groups_permissions d) ∨
  (uid, perm) ∈ tbl_users_permissions d.
Proof.
  unfold rawPermissions_of, select_groups_permissions, select_users_permissions.
  rewrite elem_of_app, !list_elem_of_fmap. split.
  - intros [([i p] & -> & H)|([i p] & -> & H)]; apply list_elem_of_filter in H as [Hi H];
      simpl in *.
    + left. apply elem_of_groupIds_of in Hi as (k & e & Hk & Ha & <-). by exists k, e.
    + right. by subst.
  - intros [(k & e & Hk & Ha & H)|H].
    + left. exists (id (group e), perm). split; [done|].
      apply list_elem_of_filter. split; [|done]. simpl.
      apply elem_of_groupIds_of. by exists k, e.
    + right. exists (uid, perm). split; [done|]. by apply list_elem_of_filter.
Qed.

End PermissionCache.

(** X19: a fresh [getPermissions] that does not return has still assigned
    [this.permissions]; every later [hasPermission] answers from the tree
    left there and reads nothing again. The tree is empty when [getGroups]
    did not return, and else holds only paths of granted strings. *)
Theorem getPermissions_failure_is_cached csvParse fuel w e w' :
  permissions (this w) = None →
  getPermissions csvParse fuel w = (Throw e, w') →
  ∃ T,
    permissions (this w') = Some T ∧
    (∀ fuel' path,
       hasPermission csvParse fuel' path w' = (walk (split_dot path) T, w')) ∧
    ((∃ w1, getGroups csvParse fuel w = (Throw e, w1) ∧ T = PObj ∅) ∨
     (∃ groups0 w1, getGroups csvParse fuel w = (Ret groups0, w1) ∧
        justified (split_dot <$> rawPermissions_of (db w) (user_id (this w)) groups0) T)).
Proof.
  intros Hp HP. destruct (getGroups csvParse fuel w) as [o w1] eqn:HG.
  assert (∀ T, permissions (this w') = Some T →
            ∀ fuel' path,
              hasPermission csvParse fuel' path w' = (walk (split_dot path) T, w')) as Hlater.
  { intros T HT fuel' path. by apply hasPermission_cached. }
  destruct o as [groups0|e'| |].
  - rewrite (getPermissions_fresh _ _ _ _ _ Hp HG) in HP.
    unfold mbind at 1, St_bind at 1 in HP.
    destruct (mapM _ _ _) as [o2 w2] eqn:HM.
    destruct (mapM_structurize_justified _ [] (cached_tree (PObj ∅) w1) (PObj ∅) _ _
                eq_refl (λ b Hb Hr, False_ind _ (reaches_PObj_empty b Hb Hr)) HM)
      as (T & HT & HJ).
    assert (w' = w2) as ->.
    { destruct o2; [|by injection HP as _ <-..].
      unfold this_permissions, mbind, St_bind, get_this in HP. rewrite HT in HP.
      discriminate HP. }
    exists T. split; [done|]. split; [by apply Hlater|]. right. by exists groups0, w1.
  - rewrite (getPermissions_fresh_stopped _ _ _ _ _ Hp HG) in HP by done.
    injection HP as <- <-.
    exists (PObj ∅). split; [done|]. split; [by apply Hlater|]. left. by exists w1.
  - by rewrite (getPermissions_fresh_stopped _ _ _ _ _ Hp HG) in HP.
  - by rewrite (getPermissions_fresh_stopped _ _ _ _ _ Hp HG) in HP.
Qed.

Lemma getPermissions_failure_is_cached_witness :
  let w' := (Reference.getPermissions 1 w_malformed).2 in
  ∃ T,
    permissions (this w') = Some T ∧
    (∀ fuel' path,
       hasPermission Reference.csv_parse fuel' path w' = (walk (split_dot path) T, w')) ∧
    ((∃ w1, getGroups Reference.csv_parse 1 w_malformed
              = (Throw (ParseError "Quoted field not terminated"), w1) ∧ T = PObj ∅) ∨
     (∃ groups0 w1, getGroups Reference.csv_parse 1 w_malformed = (Ret groups0, w1) ∧
        justified
          (split_dot <$> rawPermissions_of (db w_malformed) (user_id (this w_malformed))
                           groups0) T)).
Proof.
  apply (getPermissions_failure_is_cached Reference.csv_parse 1 w_malformed
           (ParseError "Quoted field not terminated")
           (Reference.getPermissions 1 w_malformed).2); reflexivity.
Defined.

(** X20: when the group expansion of a user throws, the first
    [hasPermission] throws the same error, and every later one answers
    [false] for each path whose first segment is not a name inherited from
    [Object.prototype], without reading anything again. *)
Theorem failed_expansion_denies_all csvParse fuel w e w1 path0 :
  permissions (this w) = None →
  getGroups csvParse fuel w = (Throw e, w1) →
  ∃ w',
    hasPermission csvParse fuel path0 w = (Throw e, w') ∧
    ∀ fuel' path,
      inherited (default EmptyString (head (split_dot path))) = false →
      hasPermission csvParse fuel' path w' = (Ret false, w').
Proof.
  intros Hp HG. exists (cached_tree (PObj ∅) w1). split.
  - unfold hasPermission.
    by rewrite (bind_stop _ _ _ _ _ (getPermissions_fresh_stopped _ _ _ _ _ Hp HG
                                       (λ g, ltac:(discriminate)))).
  - intros fuel' path Hi. rewrite (hasPermission_cached _ _ _ (PObj ∅)) by done.
    destruct (split_dot path) as [|b rest] eqn:E; [by destruct (split_dot_nonempty path)|].
    by rewrite walk_empty_tree.
Qed.

Lemma failed_expansion_denies_all_witness :
  ∃ w',
    hasPermission Reference.csv_parse 1 "reports.export" w_malformed
      = (Throw (ParseError "Quoted field not terminated"), w') ∧
    ∀ fuel' path,
      inherited (default EmptyString (head (split_dot path))) = false →
      hasPermission Reference.csv_parse fuel' path w' = (Ret false, w').
Proof.
  apply (failed_expansion_denies_all Reference.csv_parse 1 w_malformed
           (ParseError "Quoted field not terminated")
           (Reference.getGroups 1 w_malformed).2 "reports.export"); reflexivity.
Defined.

(** X21: the strings that a fresh [getPermissions] structurizes are the
    individual permissions of the user and the permissions of the groups
    whose entry in the resolved map is active, and no others. *)
Theorem rawPermissions_sources csvParse fuel w o w1 groups0 perm :
  groups (this w) = None →
  getGroups csvParse fuel w = (o, w1) →
  groups (this w1) = Some groups0 →
  perm ∈ rawPermissions_of (db w) (user_id (this w)) groups0 ↔
  (∃ k e, groups0 !! k = Some e ∧ active (user e) = true ∧
          (k, perm) ∈ tbl_groups_permissions (db w)) ∨
  (user_id (this w), perm) ∈ tbl_users_permissions (db w).
Proof.
  intros Hfresh HG Hg. rewrite elem_of_rawPermissions_of.
  destruct (getGroups_invariants csvParse fuel w o w1 Hfresh HG)
    as (x & Hx & _ & He & _).
  rewrite Hx in Hg. injection Hg as <-.
  split; (intros [(k & e & Hk & Ha & H)|H]; [left|by right]); exists k, e;
    destruct (He k e Hk) as (_ & _ & g & _ & Hid & Hd & _);
    (split; [done|]); (split; [done|]); by rewrite Hd, Hid in *.
Qed.

Lemma rawPermissions_sources_witness :
  "reports.export"%string
    ∈ rawPermissions_of (db (at_time 100 (db w_joined) (new_User 1)))
        (user_id (this (at_time 100 (db w_joined) (new_User 1))))
        (resolved 100 (db w_joined)) ↔
  (∃ k e, resolved 100 (db w_joined) !! k = Some e ∧ active (user e) = true ∧
          (k, "reports.export"%string)
            ∈ tbl_groups_permissions (db (at_time 100 (db w_joined) (new_User 1)))) ∨
  (user_id (this (at_time 100 (db w_joined) (new_User 1))), "reports.export"%string)
    ∈ tbl_users_permissions (db (at_time 100 (db w_joined) (new_User 1))).
Proof.
  apply (rawPermissions_sources Reference.csv_parse 3
           (at_time 100 (db w_joined) (new_User 1))
           (Reference.getGroups 3 (at_time 100 (db w_joined) (new_User 1))).1
           (Reference.getGroups 3 (at_time 100 (db w_joined) (new_User 1))).2);
    [reflexivity|reflexivity|vm_compute; reflexivity].
Defined.

(** * The guards of the router [/administrado] *)

Lemma redirect_home r : redirect 303 "/" r = (Ret (), sent_home 1 r).
Proof. reflexivity. Qed.

Lemma guards_dispatch_eq users_details page r :
  dispatch [requireInitialSetup users_details; requireLogin] page r =
  if set_up users_details r then page r else (Ret (), sent_home 1 r).
Proof.
  unfold dispatch, set_up, requireInitialSetup, requireLogin.
  unfold mbind at 1, St_bind at 1.
  destruct (req_user r) as [u|] eqn:Hu; [|reflexivity].
  destruct (hasCompletedInitialSetup users_details (user_id u)); [|reflexivity].
  unfold mbind, St_bind. rewrite Hu. reflexivity.
Qed.

(** X22: behind [requireInitialSetup] and [requireLogin] a page runs, on
    the request as it came, exactly when the request has a user with a row
    in [users_details]; every other request is answered by one redirect to
    [/] and the page does not run. [requireLogin] never redirects there. *)
Theorem guards_dispatch users_details page r :
  dispatch [requireInitialSetup users_details; requireLogin] page r =
  if set_up users_details r then page r else (Ret (), sent_home 1 r).
Proof.
  unfold dispatch, set_up, requireInitialSetup, requireLogin.
  unfold mbind at 1, St_bind at 1.
  destruct (req_user r) as [u|] eqn:Hu; [|reflexivity].
  destruct (hasCompletedInitialSetup users_details (user_id u)); [|reflexivity].
  unfold mbind, St_bind. rewrite Hu. reflexivity.
Qed.

(** X23: the page [administrado_resursoj] behind the guards, for a user
    with a row in [users_details] whose cached permission tree answers
    [resource.view]: when the answer is true the page is handed to
    [sendRegularPage] on the request as it came, and nothing else is sent;
    when it is false one redirect to [/] is sent and [sendRegularPage] is
    not called. *)
Theorem administrado_resursoj_guarded csvParse fuel users_details sendRegularPage r u T b :
  req_user r = Some u →
  hasCompletedInitialSetup users_details (user_id u) = true →
  permissions u = Some T →
  walk (split_dot "resource.view") T = Ret b →
  dispatch [requireInitialSetup users_details; requireLogin]
    (administrado_resursoj csvParse fuel sendRegularPage) r =
  if b then sendRegularPage "administrado/resursoj"%string r
  else (Ret (), sent_home 1 r).
Proof.
  intros Hu Hs HT Hb. rewrite guards_dispatch_eq. unfold set_up. rewrite Hu, Hs.
  unfold administrado_resursoj.
  assert (requirePermissions csvParse fuel ["resource.view"%string] r
          = (Ret b, sent_home (if b then 0 else 1) r)) as E.
  { unfold requirePermissions.
    rewrite (bind_run _ _ r b r)
      by (rewrite (on_user_hasPermission_cached _ _ _ r u T) by done; by rewrite Hb).
    destruct b; [by rewrite sent_home_0|reflexivity]. }
  rewrite (bind_run _ _ _ _ _ E). destruct b; [by rewrite sent_home_0|reflexivity].
Qed.

Lemma administrado_resursoj_guarded_witness :
  dispatch [requireInitialSetup details_of_1; requireLogin]
    (administrado_resursoj Reference.csv_parse 1 silent_page) r_resource =
  silent_page "administrado/resursoj"%string r_resource.
Proof.
  apply (administrado_resursoj_guarded Reference.csv_parse 1 details_of_1 silent_page
           r_resource (this (cached_tree tree_resource (w_individual "resource.view")))
           tree_resource true); reflexivity.
Defined.

(** * Names and pictures *)

Lemma hasCompletedInitialSetup_row ud i :
  hasCompletedInitialSetup ud i =
    bool_decide (is_Some (head (filter (λ row, ud_user_id row = i) ud))).
Proof.
  unfold hasCompletedInitialSetup. apply bool_decide_ext.
  rewrite Exists_exists. split.
  - intros (row & Hin & Hid).
    destruct (filter (λ row, ud_user_id row = i) ud) as [|r l] eqn:E; [|by eexists].
    assert (row ∈ filter (λ row, ud_user_id row = i) ud) as H
      by (by apply list_elem_of_filter).
    rewrite E in H. by apply elem_of_nil in H.
  - intros [row Hrow].
    destruct (filter (λ row, ud_user_id row = i) ud) as [|r l] eqn:E; [done|].
    assert (r ∈ filter (λ row, ud_user_id row = i) ud) as H by (rewrite E; by left).
    apply list_elem_of_filter in H as [Hid Hin]. exists r.
    by split.
Qed.

Lemma getNameDetails_unset s :
  a_details (account_of s) = None →
  hasCompletedInitialSetup (users_details s) (a_id (account_of s)) = false →
  getNameDetails s = (Ret no_details, s).
Proof.
  intros Hc Hs. rewrite hasCompletedInitialSetup_row in Hs.
  apply bool_decide_eq_false in Hs. unfold getNameDetails. rewrite Hc.
  destruct (head _) as [row|]; [|done]. destruct Hs. by eexists.
Qed.

(** X24: for a user object without cached details whose user has no row in
    [users_details], so that [hasCompletedInitialSetup] is false, the three
    names are [null], [getNameDetails] hands out the empty object, and none
    of them caches anything: a row stored later is seen. *)
Theorem names_before_setup s :
  a_details (account_of s) = None →
  hasCompletedInitialSetup (users_details s) (a_id (account_of s)) = false →
  getNameDetails s = (Ret no_details, s) ∧
  getLongName s = (Ret None, s) ∧
  getShortName s = (Ret None, s) ∧
  getBriefName s = (Ret None, s).
Proof.
  intros Hc Hs. pose proof (getNameDetails_unset s Hc Hs) as E.
  split; [done|]. unfold getLongName, getShortName, getBriefName.
  by rewrite !(bind_run _ _ _ _ _ E).
Qed.

Lemma names_before_setup_witness :
  getNameDetails s_new = (Ret no_details, s_new) ∧
  getLongName s_new = (Ret None, s_new) ∧
  getShortName s_new = (Ret None, s_new) ∧
  getBriefName s_new = (Ret None, s_new).
Proof. apply (names_before_setup s_new); reflexivity. Defined.

Lemma getNameDetails_cached s d :
  a_details (account_of s) = Some d → getNameDetails s = (Ret d, s).
Proof. intros H. unfold getNameDetails. by rewrite H. Qed.

Lemma getNameDetails_caches s d s' :
  getNameDetails s = (Ret d, s') →
  hasCompletedInitialSetup (users_details s) (a_id (account_of s)) = true ∨
    is_Some (a_details (account_of s)) →
  a_details (account_of s') = Some d.
Proof.
  unfold getNameDetails. intros H Hs.
  destruct (a_details (account_of s)) as [cached|] eqn:Hc.
  { injection H as <- <-. done. }
  destruct Hs as [Hs|[? [=]]]. rewrite hasCompletedInitialSetup_row in Hs.
  apply bool_decide_eq_true in Hs as [row Hrow]. rewrite Hrow in H.
  by injection H as <- <-.
Qed.

(** X25: once [getNameDetails] has run for a user who has a row in
    [users_details] (or whose details were cached already), the details are
    cached, and it and the three names answer the same whatever the tables
    hold by then, without changing anything. *)
Theorem names_answer_from_cache s d s' ud up :
  getNameDetails s = (Ret d, s') →
  hasCompletedInitialSetup (users_details s) (a_id (account_of s)) = true ∨
    is_Some (a_details (account_of s)) →
  let later := with_tables ud up s' in
  getNameDetails later = (Ret d, later) ∧
  getLongName later = ((getLongName s').1, later) ∧
  getShortName later = ((getShortName s').1, later) ∧
  getBriefName later = ((getBriefName s').1, later).
Proof.
  intros H Hs later. pose proof (getNameDetails_caches s d s' H Hs) as Hc.
  pose proof (getNameDetails_cached s' d Hc) as E.
  pose proof (getNameDetails_cached later d Hc) as E'.
  split; [done|]. unfold getLongName, getShortName, getBriefName.
  rewrite !(bind_run _ _ _ _ _ E), !(bind_run _ _ _ _ _ E').
  destruct (truthy_string (fullNameLatin d)), (truthy_string (nickname d)),
    (truthy_string (petName d)); done.
Qed.

Lemma names_answer_from_cache_witness :
  let later := with_tables [] [] (getNameDetails s_lulo).2 in
  getNameDetails later = (Ret (details_of_row row_lulo), later) ∧
  getLongName later = ((getLongName (getNameDetails s_lulo).2).1, later) ∧
  getShortName later = ((getShortName (getNameDetails s_lulo).2).1, later) ∧
  getBriefName later = ((getBriefName (getNameDetails s_lulo).2).1, later).
Proof.
  apply (names_answer_from_cache s_lulo _ (getNameDetails s_lulo).2 [] []);
    [reflexivity|by left].
Defined.



Lemma urls_lookup (email : string) (size : nat) :
  foldl (λ (urls : gmap nat string) size0,
           <[size0 := ("/img/aktivulo/" ++ email ++ "/" ++ digits size0 ++ ".png")%string]>
             urls) ∅ getPictureSizes !! size =
  if bool_decide (size ∈ getPictureSizes)
  then Some ("/img/aktivulo/" ++ email ++ "/" ++ digits size ++ ".png")%string
  else None.
Proof.
  unfold getPictureSizes. simpl.
  destruct (decide (size = 128%nat)) as [->|H1].
  { rewrite lookup_insert_eq, bool_decide_eq_true_2; [done|]. right. right. by left. }
  rewrite lookup_insert_ne by done.
  destruct (decide (size = 256%nat)) as [->|H2].
  { rewrite lookup_insert_eq, bool_decide_eq_true_2; [done|]. right. by left. }
  rewrite lookup_insert_ne by done.
  destruct (decide (size = 512%nat)) as [->|H3].
  { rewrite lookup_insert_eq, bool_decide_eq_true_2; [done|]. by left. }
  rewrite lookup_insert_ne by done. rewrite lookup_empty, bool_decide_eq_false_2; [done|].
  rewrite !elem_of_cons, elem_of_nil. intros [?|[?|[?|[]]]]; done.
Qed.

(** X27: the three readers of [users_pictures] agree. The state is 0
    exactly when [hasPicture ()] is false and 2 exactly when
    [hasPicture (true)] is true; [getPictureURLs ()], whose argument
    defaults to [true] where that of [hasPicture] defaults to [false], is
    [null] unless the state is 2, so that a private picture has
    [hasPicture ()] true and [getPictureURLs ()] [null]; and the URLs, when
    there are any, are those of the sizes 512, 256 and 128 under the user's
    email. *)
Theorem picture_functions_agree s :
  (getPictureState s = 0 ↔ hasPicture None s = false) ∧
  (getPictureState s = 2 ↔ hasPicture (Some true) s = true) ∧
  (getPictureURLs None s = None ↔ getPictureState s ≠ 2) ∧
  (getPictureState s = 1 → hasPicture None s = true ∧ getPictureURLs None s = None) ∧
  (∀ mustBePublic urls size,
     getPictureURLs mustBePublic s = Some urls →
     urls !! size =
       if bool_decide (size ∈ getPictureSizes)
       then Some ("/img/aktivulo/" ++ a_email (account_of s) ++ "/"
                  ++ digits size ++ ".png")%string
       else None).
Proof.
  unfold getPictureState, getPictureURLs, hasPicture.
  destruct (picture_row s) as [row|]; simpl.
  - destruct (truthy_id (up_public row)); simpl.
    + split; [done|]. split; [done|]. split; [split; [done|by intros []]|].
      split; [done|]. intros mustBePublic urls size H.
      destruct mustBePublic as [[]|]; simpl in H; injection H as <-; apply urls_lookup.
    + split; [done|]. split; [done|]. split; [done|]. split; [done|].
      intros mustBePublic urls size H.
      destruct mustBePublic as [[]|]; simpl in H; try done.
      injection H as <-. apply urls_lookup.
  - split; [done|]. split; [done|]. split; [done|]. split; [done|].
    by intros mustBePublic urls size [=].
Qed.

(** * Accounts *)

Lemma head_filter_Some {A} (P : A → Prop) `{∀ x, Decision (P x)} (l : list A) x :
  head (filter P l) = Some x → x ∈ l ∧ P x.
Proof.
  intros E. assert (x ∈ filter P l) as Hx.
  { destruct (filter P l) as [|y l']; [done|]. injection E as ->. by left. }
  apply list_elem_of_filter in Hx as [? ?]. done.
Qed.

Lemma head_filter_None {A} (P : A → Prop) `{∀ x, Decision (P x)} (l : list A) x :
  head (filter P l) = None → x ∈ l → ¬ P x.
Proof.
  intros E Hx HP. assert (x ∈ filter P l) as H' by (by apply list_elem_of_filter).
  destruct (filter P l); [by apply elem_of_nil in H'|done].
Qed.

Lemma head_filter_fmap {A} (P : A → Prop) `{∀ x, Decision (P x)} (f : A → A) (l : list A) :
  (∀ x, P (f x) ↔ P x) →
  head (filter P (f <$> l)) = f <$> head (filter P l).
Proof.
  intros Hf. induction l as [|x l IH]; [done|]. csimpl.
  rewrite !filter_cons. destruct (decide (P x)) as [Hx|Hx].
  - rewrite decide_True by (by apply Hf). done.
  - rewrite decide_False by (by rewrite Hf). done.
Qed.

Lemma update_users_id set0 i row :
  (∀ r, u_id (set0 r) = u_id r) →
  u_id (if bool_decide (u_id row = i) then set0 row else row) = u_id row.
Proof. intros H. by case_bool_decide. Qed.

(** X28: an account that has been activated is never deleted by
    [cleanUpActivationKeys], whatever the clock reads and whatever the
    validity is: after [activate], every row of the user is still there
    after the clean-up, and [getUserById] reads the account back with the
    password set and no activation key. *)
Theorem activated_survives_cleanup password timeNow validity s row :
  row ∈ tbl_users s →
  u_id row = l_id (self s) →
  let users' := cleanUpActivationKeys timeNow validity (tbl_users (activate password s).2) in
  activated password row ∈ users' ∧
  ∃ u, getUserById (l_id (self s)) users' = Some u ∧
       l_password u = Some password ∧ l_activationKey u = None ∧
       l_activationKeyTime u = None.
Proof.
  intros Hin Hid users'. unfold users', cleanUpActivationKeys, activate. simpl.
  assert (activated password row ∈
            filter (λ r, sql_lt (u_activation_key_time r) (timeNow - validity) = false)
              (update_users (activated password) (l_id (self s)) (tbl_users s))) as Hrow.
  { apply list_elem_of_filter. split; [done|].
    apply list_elem_of_fmap. exists row. by rewrite bool_decide_eq_true_2. }
  split; [done|]. unfold getUserById.
  destruct (head (filter (λ r, u_id r = l_id (self s)) _)) as [data|] eqn:E.
  - apply head_filter_Some in E as [Hd Hdid].
    apply list_elem_of_filter in Hd as [_ Hd].
    apply list_elem_of_fmap in Hd as (r0 & -> & Hr0).
    eexists. split; [done|]. simpl.
    case_bool_decide as Hr; [done|]. by destruct Hr.
  - by destruct (head_filter_None _ _ _ E Hrow).
Qed.

Lemma activated_survives_cleanup_witness :
  let users' := cleanUpActivationKeys 999999 60 (tbl_users (activate "hash" s_pending).2) in
  activated "hash" row_pending ∈ users' ∧
  ∃ u, getUserById (l_id (self s_pending)) users' = Some u ∧
       l_password u = Some "hash"%string ∧ l_activationKey u = None ∧
       l_activationKeyTime u = None.
Proof.
  apply (activated_survives_cleanup "hash" 999999 60 s_pending row_pending);
    [by left|reflexivity].
Defined.

(** Without [activate] the same clean-up deletes the account. *)
Example pending_account_deleted :
  cleanUpActivationKeys 999999 60 (tbl_users s_pending) = [].
Proof. reflexivity. Qed.

(** X29: [toggleEnabled] keeps the object in step with the table: when
    [this.enabled] is what [getUserById] reads for the user and the column
    is not [NULL], the value returned is the new [this.enabled] and is what
    [getUserById] reads afterwards; a second call restores both. *)
Theorem toggleEnabled_in_step s u :
  getUserById (l_id (self s)) (tbl_users s) = Some u →
  l_enabled u = l_enabled (self s) →
  (∀ row, row ∈ tbl_users s → u_id row = l_id (self s) → is_Some (u_enabled row)) →
  let flipped := negb (l_enabled (self s)) in
  let s1 := (toggleEnabled s).2 in
  let s2 := (toggleEnabled s1).2 in
  (toggleEnabled s).1 = Ret flipped ∧
  l_enabled (self s1) = flipped ∧
  (∃ u1, getUserById (l_id (self s)) (tbl_users s1) = Some u1 ∧ l_enabled u1 = flipped) ∧
  l_enabled (self s2) = l_enabled (self s) ∧
  ∃ u2, getUserById (l_id (self s)) (tbl_users s2) = Some u2 ∧
        l_enabled u2 = l_enabled (self s).
Proof.
  intros Hu He Hnn flipped s1 s2. unfold s2, s1, flipped, toggleEnabled. simpl.
  split; [done|]. split; [done|].
  unfold getUserById in *. unfold update_users. rewrite <- list_fmap_compose.
  rewrite !(head_filter_fmap (λ r, u_id r = l_id (self s)));
    [|intros x; simpl; by rewrite !update_users_id|intros x; by rewrite update_users_id].
  destruct (head (filter (λ r, u_id r = l_id (self s)) (tbl_users s))) as [data|] eqn:E;
    [|done].
  apply head_filter_Some in E as [Hd Hid]. destruct (Hnn data Hd Hid) as [z Hz].
  injection Hu as <-. simpl in He. simpl.
  rewrite !bool_decide_eq_true_2 by done. simpl.
  rewrite Hz in *. simpl in *. rewrite <- He. unfold truthy_int.
  split; [eexists; split; [done|]; simpl; by destruct (z =? 0)|].
  split; [by rewrite negb_involutive|].
  eexists. split; [done|]. simpl. by destruct (z =? 0).
Qed.

Lemma toggleEnabled_in_step_witness :
  let flipped := negb (l_enabled (self s_pending)) in
  let s1 := (toggleEnabled s_pending).2 in
  let s2 := (toggleEnabled s1).2 in
  (toggleEnabled s_pending).1 = Ret flipped ∧
  l_enabled (self s1) = flipped ∧
  (∃ u1, getUserById (l_id (self s_pending)) (tbl_users s1) = Some u1 ∧
         l_enabled u1 = flipped) ∧
  l_enabled (self s2) = l_enabled (self s_pending) ∧
  ∃ u2, getUserById (l_id (self s_pending)) (tbl_users s2) = Some u2 ∧
        l_enabled u2 = l_enabled (self s_pending).
Proof.
  apply (toggleEnabled_in_step s_pending (self s_pending)); [reflexivity|reflexivity|].
  intros row Hrow _. apply list_elem_of_singleton in Hrow as ->. by eexists.
Defined.

(** * The clock and the resolved map *)

(** X30: the reading of the clock decides nothing but [active]. Two fresh
    expansions for the same user on the same database, at whatever
    readings, end alike (both return, or both throw the same error), and
    the maps and [pairings] they leave agree in everything except the
    [active] of the entries. *)
Theorem getGroups_clock_only_active csvParse fuel w wz o w1 oz wz1 groups0 groups1 :
  groups (this w) = None →
  groups (this wz) = None →
  db wz = db w →
  user_id (this wz) = user_id (this w) →
  getGroups csvParse fuel w = (o, w1) →
  getGroups csvParse fuel wz = (oz, wz1) →
  groups (this w1) = Some groups0 →
  groups (this wz1) = Some groups1 →
  (λ _, ()) <$> o = (λ _, ()) <$> oz ∧
  timeless <$> groups1 = timeless <$> groups0 ∧
  pairings (this wz1) = pairings (this w1).
Proof.
  intros Hfresh Hz Hdb Huid HG HGz Hg Hgz.
  rewrite (getGroups_fresh _ _ _ Hfresh) in HG. rewrite (getGroups_fresh _ _ _ Hz) in HGz.
  rewrite Hdb, Huid in HGz. cbv zeta in *.
  destruct (handleRows_shape csvParse (db w) (clock w (reads w)) (clock wz (reads wz)) fuel
              (select_user_groups (db w) (user_id (this w))) no_expansion no_expansion eq_refl)
    as [Ho Hs].
  destruct (handleRows csvParse fuel (db w) (clock w (reads w)) _ _) as [o1 x1],
           (handleRows csvParse fuel (db w) (clock wz (reads wz)) _ _) as [o2 x2].
  simpl in *. subst o2. injection HG as <- <-. injection HGz as <- <-.
  simpl in Hg, Hgz. injection Hg as <-. injection Hgz as <-.
  unfold shape in Hs. injection Hs as Hs1 Hs2.
  split; [|by split]. by destruct o1.
Qed.

Lemma getGroups_clock_only_active_witness :
  (λ _, ()) <$> (Reference.getGroups 3 (at_time 2500 db_committee (new_User 1))).1
    = (λ _, ()) <$> (Reference.getGroups 3 (at_time 9000 db_committee (new_User 1))).1 ∧
  timeless <$> resolved 9000 db_committee = timeless <$> resolved 2500 db_committee ∧
  pairings (this (Reference.getGroups 3 (at_time 9000 db_committee (new_User 1))).2)
    = pairings (this (Reference.getGroups 3 (at_time 2500 db_committee (new_User 1))).2).
Proof.
  apply (getGroups_clock_only_active Reference.csv_parse 3
           (at_time 2500 db_committee (new_User 1)) (at_time 9000 db_committee (new_User 1))
           (Reference.getGroups 3 (at_time 2500 db_committee (new_User 1))).1
           (Reference.getGroups 3 (at_time 2500 db_committee (new_User 1))).2
           (Reference.getGroups 3 (at_time 9000 db_committee (new_User 1))).1
           (Reference.getGroups 3 (at_time 9000 db_committee (new_User 1))).2);
    [reflexivity|reflexivity|reflexivity|reflexivity|reflexivity|reflexivity
    |vm_compute; reflexivity|vm_compute; reflexivity].
Defined.
